(** * path/dynamics.py: timing, transition state and trajectory

    A shallow embedding of the two classes of [path/dynamics.py].

    - [Time.time_to_transition_state] only uses the four IEEE operations
      and comparisons, and what it does with a division by zero decides
      what it returns; it is embedded over Rocq's primitive binary64
      floats, which are NumPy's [float64], with [np.sum] in NumPy's own
      order of additions.
    - [Time.time_steps] and [Transition] call [log], [exp], [sinh],
      [cosh] and a matrix inverse; they are embedded over the real
      numbers, the exact arithmetic that the floating-point code
      approximates.  A division by zero and an overflowing [math.sinh]
      leave that model and are kept as Python exceptions.  What is proved
      over the reals is an order, a length, an exception or the content of
      the store; where only the rounding decides (equal ratios of
      [time_steps], the solve of [transition_state]) nothing is claimed
      of the code.  The first loop of [time_steps] is also embedded in
      binary64, where the rounding of its ratios can be computed. *)

From Stdlib Require Import ZArith Reals Lra Lia Floats Uint63 Bool.
From Stdlib Require Import ClassicalDescription IndefiniteDescription.
From stdpp Require Import base option list gmap.

(** ** Python outcomes *)

Inductive exn : Set :=
| ValueError
| IndexError
| TypeError
| ZeroDivisionError
| LinAlgError.

Inductive result (A : Type) : Type :=
| Ok (a : A)
| Raise (e : exn).
Arguments Ok {A} a.
Arguments Raise {A} e.

#[global] Instance result_ret : MRet result := @Ok.

#[global] Instance result_bind : MBind result := λ A B k m,
  match m with
  | Ok a => k a
  | Raise e => Raise e
  end.

(** [l[i]] on a Python sequence. *)
Definition getitem {A} (l : list A) (i : nat) : result A :=
  match l !! i with
  | Some a => Ok a
  | None => Raise IndexError
  end.

(** [for i in idx: s = body(i, s)], stopping at the first exception. *)
Fixpoint for_each {S} (idx : list nat) (body : nat → S → result S) (s : S)
  : result S :=
  match idx with
  | [] => Ok s
  | i :: idx' => s' ← body i s; for_each idx' body s'
  end.

(** [x / y] on real-valued Python floats: a zero divisor leaves the reals. *)
Definition pdiv (x y : R) : result R :=
  if Req_dec_T y 0 then Raise ZeroDivisionError else Ok (x / y)%R.

(** ** Time.time_to_transition_state, over binary64 *)

Module Spectrum.

Local Open Scope float_scope.

(** The literal [0.95], as the double nearest to it. *)
Definition cutoff_fraction : float := 0x1.e666666666666p-1.

(** [np.int64] to [float64]. *)
Definition float_of_index (k : nat) : float :=
  PrimFloat.of_uint63 (Uint63.of_Z (Z.of_nat k)).

Definition np_reciprocal (a : list float) : list float :=
  map (fun x => 1 / x) a.

(** [np.cumsum]: out[0] = a[0], out[i] = out[i-1] + a[i]. *)
Fixpoint cumsum_from (acc : float) (a : list float) : list float :=
  match a with
  | [] => []
  | x :: r => let s := acc + x in s :: cumsum_from s r
  end.

Definition np_cumsum (a : list float) : list float :=
  match a with
  | [] => []
  | x :: r => x :: cumsum_from x r
  end.

(** [np.sum] on a float64 array.  NumPy's add-reduction starts from the
    identity 0.0 and adds to it the pairwise sum of the whole array
    (pairwise_sum of numpy's loops_utils): fewer than 8 entries are added
    in index order; up to 128 entries go into eight accumulators, entry i
    into accumulator i mod 8, the accumulators are added as
    ((r0+r1)+(r2+r3))+((r4+r5)+(r6+r7)), and the entries after the last
    full block of 8 are added in index order; a longer array is cut at a
    multiple of 8 near its middle and the sums of the two parts added. *)
Fixpoint accumulate_blocks (blocks : nat) (r a : list float)
  : list float * list float :=
  match blocks with
  | O => (r, a)
  | S blocks' =>
      accumulate_blocks blocks' (zip_with PrimFloat.add r (take 8 a)) (drop 8 a)
  end.

Definition block_sum (a : list float) : float :=
  let '(r, rest) :=
    accumulate_blocks (length a / 8 - 1) (take 8 a) (drop 8 a) in
  match r with
  | [r0; r1; r2; r3; r4; r5; r6; r7] =>
      fold_left PrimFloat.add rest
        (((r0 + r1) + (r2 + r3)) + ((r4 + r5) + (r6 + r7)))
  | _ => fold_left PrimFloat.add a neg_zero
  end.

(** [depth] bounds the halvings; the length of the array is always
    enough (lemma [pairwise_sum_depth]). *)
Fixpoint pairwise_sum (depth : nat) (a : list float) : float :=
  let n := length a in
  if (n <? 8)%nat then fold_left PrimFloat.add a neg_zero
  else if (n <=? 128)%nat then block_sum a
  else
    match depth with
    | O => block_sum a
    | S depth' =>
        let n2 := (n / 2 - (n / 2) mod 8)%nat in
        pairwise_sum depth' (take n2 a) + pairwise_sum depth' (drop n2 a)
    end.

Definition np_sum (a : list float) : float := 0 + pairwise_sum (length a) a.

(** [np.argmin] on a boolean array: the index of the first minimum, with
    [False < True]; an empty array raises [ValueError]. *)
Definition bool_lt (a b : bool) : bool := negb a && b.

Fixpoint argmin_scan (best : bool) (best_id next_id : nat) (a : list bool) : nat :=
  match a with
  | [] => best_id
  | x :: r =>
      if bool_lt x best then argmin_scan x next_id (S next_id) r
      else argmin_scan best best_id (S next_id) r
  end.

Definition np_argmin (a : list bool) : result nat :=
  match a with
  | [] => Raise ValueError
  | x :: r => Ok (argmin_scan x 0 1 r)
  end.

(** The cumulative fraction [np.cumsum(reciprocal) / np.sum(reciprocal)]. *)
Definition cumulative_fraction (reciprocal : list float) : list float :=
  map (fun c => c / np_sum reciprocal) (np_cumsum reciprocal).

Definition skip_count (eigenvalue : list float) : nat :=
  if (6 <? length eigenvalue)%nat then 6%nat else 5%nat.

Definition force_constant_at (cumulative : list float) (cutoff_id : nat)
  : result float :=
  c ← getitem cumulative cutoff_id;
  Ok (1 / (c / float_of_index cutoff_id + 1)).

Definition time_to_transition_state (eigenvalue : list float)
  : result (float * float) :=
  let skip := skip_count eigenvalue in
  (* [eigenvalue[i] for i in range(skip, len(eigenvalue))] *)
  let reciprocal := np_reciprocal (drop skip eigenvalue) in
  let cumulative := cumulative_fraction reciprocal in
  cutoff_id ← np_argmin (map (fun c => c <? cutoff_fraction) cumulative);
  average_force_constant ← force_constant_at cumulative cutoff_id;
  Ok (7 / average_force_constant, average_force_constant).

(** *** The specification's wording of the same function

    Written out on its own, sharing no arithmetic with the definitions
    above. *)

(** "the first index where this cumulative fraction reaches or exceeds
    0.95": nothing is said when no index does. *)
Fixpoint first_index {A} (p : A → bool) (l : list A) : option nat :=
  match l with
  | [] => None
  | x :: r => if p x then Some 0%nat else S <$> first_index p r
  end.

(** The entries of a sequence added in index order. *)
Definition sum_in_order (l : list float) : float :=
  match l with
  | [] => 0
  | x :: r => fold_left PrimFloat.add r x
  end.

(** "the cumulative sum": entry [k] adds the entries 0..k in index order. *)
Definition running_sums (l : list float) : list float :=
  map (λ k, sum_in_order (take (S k) l)) (seq 0 (length l)).

(** The claim as it is stated: the total is the sum of all the
    reciprocals in index order (the last cumulative sum), and the cutoff is
    the first fraction that reaches 0.95. *)
Definition spec_time_to_transition_state (eigenvalue : list float)
  : option (float * float) :=
  let skip := if (6 <? length eigenvalue)%nat then 6%nat else 5%nat in
  let retained := drop skip eigenvalue in
  let reciprocal := map (fun x => 1 / x) retained in
  let total := sum_in_order reciprocal in
  let cumulative := map (fun c => c / total) (running_sums reciprocal) in
  match first_index (fun c => cutoff_fraction <=? c) cumulative with
  | None => None
  | Some cutoff_index =>
      match cumulative !! cutoff_index with
      | None => None
      | Some c =>
          let average_force_constant :=
            1 / (c / PrimFloat.of_uint63 (Uint63.of_Z (Z.of_nat cutoff_index))
                 + 1) in
          Some (7 / average_force_constant, average_force_constant)
      end
  end.

(** The total as NumPy adds it.  Below 8 entries: in index order.  Up to
    128 entries: the entries at the indices j, j+8, j+16, ... of the full
    blocks of 8 are added in index order for each j < 8, these eight sums
    are added in pairs, and the entries left after the last full block are
    added in index order.  Above 128: the two parts are totalled and
    added. *)
Definition every_eighth (j : nat) (l : list float) : list float :=
  map (λ b, nth (8 * b + j) l 0) (seq 0 (length l / 8)).

Definition blocked_total (l : list float) : float :=
  let s j := sum_in_order (every_eighth j l) in
  fold_left PrimFloat.add (drop (8 * (length l / 8)) l)
    (((s 0%nat + s 1%nat) + (s 2%nat + s 3%nat))
     + ((s 4%nat + s 5%nat) + (s 6%nat + s 7%nat))).

Fixpoint halved_total (depth : nat) (l : list float) : float :=
  if (length l <? 8)%nat then fold_left PrimFloat.add l neg_zero
  else if (length l <=? 128)%nat then blocked_total l
  else
    match depth with
    | O => blocked_total l
    | S depth' =>
        let cut := (length l / 2 - (length l / 2) mod 8)%nat in
        halved_total depth' (take cut l) + halved_total depth' (drop cut l)
    end.

Definition numpy_total (l : list float) : float :=
  0 + halved_total (length l) l.

(** The cutoff read the way [np.argmin] reads it: the first index whose
    fraction is not below 0.95 (a NaN fraction is not below anything),
    index 0 when every fraction is below 0.95, and no result on an empty
    retained spectrum. *)
Definition cutoff_not_below (cumulative : list float) : option nat :=
  match cumulative with
  | [] => None
  | _ => Some (default 0%nat
                 (first_index (fun c => negb (c <? cutoff_fraction)) cumulative))
  end.

(** The claim as amended: NumPy's total and [np.argmin]'s cutoff. *)
Definition amended_time_to_transition_state (eigenvalue : list float)
  : option (float * float) :=
  let skip := if (6 <? length eigenvalue)%nat then 6%nat else 5%nat in
  let retained := drop skip eigenvalue in
  let reciprocal := map (fun x => 1 / x) retained in
  let total := numpy_total reciprocal in
  let cumulative := map (fun c => c / total) (running_sums reciprocal) in
  match cutoff_not_below cumulative with
  | None => None
  | Some cutoff_index =>
      match cumulative !! cutoff_index with
      | None => None
      | Some c =>
          let average_force_constant :=
            1 / (c / PrimFloat.of_uint63 (Uint63.of_Z (Z.of_nat cutoff_index))
                 + 1) in
          Some (7 / average_force_constant, average_force_constant)
      end
  end.

(** An eigenvalue whose reciprocal is an ordinary non-zero number. *)
Definition finite_nonzero (x : float) : bool :=
  match classify x with
  | PNormal | NNormal | PSubn | NSubn => true
  | _ => false
  end.

End Spectrum.

(** ** Time.time_steps, over the reals *)

Module Schedule.

Local Open Scope R_scope.

(** The first loop: [intermediate] passes, each appending the folded
    [current_step_size] and then advancing it by [step_size]. *)
Fixpoint ratio_loop (passes : nat) (step_size current_step_size : R) : list R :=
  match passes with
  | O => []
  | S passes' =>
      (if Rge_dec current_step_size 1 then 2 - current_step_size
       else current_step_size)
      :: ratio_loop passes' step_size (current_step_size + step_size)
  end.

Section TimeSteps.

Variables tbar_left tbar_right fc_left fc_right energy_left energy_right : R.
Variable nconf : nat.

(** One pass of the second loop: the time and the energy appended at
    index [step]. *)
Definition schedule_entry (ratio : list R) (tf : R) (step : nat) : result (R * R) :=
  r ← getitem ratio step;
  if Rle_dec (INR step) (INR nconf / 2) then
    if Req_dec_T r 0 then Ok (0, 0 + (energy_right - energy_left))
    else
      t ← pdiv (7 + ln r) fc_left;
      Ok (t, r * energy_left + (energy_right - energy_left))
  else
    if Req_dec_T r 0 then Ok (tf, 0)
    else
      q ← pdiv (7 + ln r) fc_right;
      Ok (tf - q, r * energy_right).

Fixpoint schedule_loop (ratio : list R) (tf : R) (steps : list nat)
    (t energy : list R) : result (list R * list R) :=
  match steps with
  | [] => Ok (t, energy)
  | step :: steps' =>
      '(ti, ei) ← schedule_entry ratio tf step;
      schedule_loop ratio tf steps' (t ++ [ti]) (energy ++ [ei])
  end.

Definition time_steps : result (list R * list R) :=
  let intermediate := (Z.of_nat nconf - 2)%Z in
  step_size ← pdiv 2 (IZR (intermediate + 1));
  let tf := tbar_left + tbar_right in
  let ratio := [0] ++ ratio_loop (Z.to_nat intermediate) step_size step_size ++ [0] in
  schedule_loop ratio tf (seq 0 nconf) [] [].

End TimeSteps.

(** A sequence read in index order never decreases. *)
Definition nondecreasing (l : list R) : Prop :=
  ∀ i x y, l !! i = Some x → l !! S i = Some y → x <= y.

(** A sequence mirrored about its midpoint: entry [i] and entry
    [len - 1 - i] add up to [total]. *)
Definition symmetric_about (total : R) (l : list R) : Prop :=
  ∀ i x y, (i < length l)%nat →
    l !! i = Some x → l !! (length l - 1 - i)%nat = Some y → x + y = total.

(** *** The schedule in closed form *)

(** The fold of the first loop: a tent over [0, 2). *)
Definition tent (x : R) : R := if Rge_dec x 1 then 2 - x else x.

(** The indices between the two end points. *)
Definition interior (nconf k : nat) : Prop := (1 ≤ k ≤ nconf - 2)%nat.

(** What the second loop appends at index [k], for two conformations or
    more. *)
Definition entry_at
    (tbar_left tbar_right fc_left fc_right energy_left energy_right : R)
    (nconf k : nat) : R * R :=
  if decide (k = 0%nat) then (0, 0 + (energy_right - energy_left))
  else if decide (k = (nconf - 1)%nat) then
    if decide (nconf = 2%nat) then (0, 0 + (energy_right - energy_left))
    else (tbar_left + tbar_right, 0)
  else
    let r := tent (INR k * (2 / (INR nconf - 1))) in
    if decide (2 * k ≤ nconf)%nat
    then ((7 + ln r) / fc_left, r * energy_left + (energy_right - energy_left))
    else (tbar_left + tbar_right - (7 + ln r) / fc_right, r * energy_right).

End Schedule.

(** ** The ratios of Time.time_steps, in binary64

    The first loop of [time_steps] adds [step_size] to [current_step_size]
    with rounding, so ratios that exact arithmetic makes equal can differ
    in the last places.  That loop uses binary64 additions, subtractions
    and comparisons only and is embedded here exactly; the second loop
    applies [np.log] to these ratios. *)

Module Schedule64.

Local Open Scope float_scope.

Fixpoint ratio_loop (passes : nat) (step_size current_step_size : float)
  : list float :=
  match passes with
  | O => []
  | S passes' =>
      (if 1 <=? current_step_size then 2 - current_step_size
       else current_step_size)
      :: ratio_loop passes' step_size (current_step_size + step_size)
  end.

Definition float_of_int (k : nat) : float :=
  PrimFloat.of_uint63 (Uint63.of_Z (Z.of_nat k)).

(** The list [ratio] when the second loop starts. *)
Definition ratio (nconf : nat) : list float :=
  let intermediate := (nconf - 2)%nat in
  let step_size := 2 / float_of_int (intermediate + 1) in
  [0] ++ ratio_loop intermediate step_size step_size ++ [0].

(** [step <= nconf / 2] *)
Definition first_half (nconf step : nat) : bool :=
  float_of_int step <=? float_of_int nconf / 2.

(** The time [tf - q] of a second-half index, where [tf] is
    [tbar_left + tbar_right] and [q] is the quotient
    [float(7 + np.log(ratio[step])) / float(fc_right)]. *)
Definition second_half_time (tbar_left tbar_right q : float) : float :=
  (tbar_left + tbar_right) - q.

End Schedule64.

(** ** NumPy arrays over the reals *)

Module Numpy.

Local Open Scope R_scope.

Abbreviation vector := (list R).
Abbreviation matrix := (list (list R)).

Definition tabulate {A} (n : nat) (f : nat → A) : list A := map f (seq 0 n).

(** [[[0 for x in range(n)] for x in range(n)]] *)
Definition zeros (n : nat) : matrix := tabulate n (λ _, tabulate n (λ _, 0)).

(** [m[i][j]], read with 0 outside the array. *)
Definition entry (m : matrix) (i j : nat) : R := nth j (nth i m []) 0.

(** [m[i][i] = x] on a nested list. *)
Definition set_diag (m : matrix) (i : nat) (x : R) : matrix :=
  alter (λ row, <[i := x]> row) i m.

Definition cols (m : matrix) : nat :=
  match m with
  | [] => 0
  | row :: _ => length row
  end.

Definition rectangular (m : matrix) : bool :=
  forallb (λ row, length row =? cols m)%nat m.

(** [m.T] *)
Definition transpose (m : matrix) : matrix :=
  tabulate (cols m) (λ j, map (λ row, nth j row 0) m).

Fixpoint dot (u v : vector) : R :=
  match u, v with
  | x :: u', y :: v' => x * y + dot u' v'
  | _, _ => 0
  end.

Definition matmul (a b : matrix) : matrix :=
  map (λ row, map (λ col, dot row col) (transpose b)) a.

Definition matvec (a : matrix) (v : vector) : vector :=
  map (λ row, dot row v) a.

Definition vecmat (v : vector) (b : matrix) : vector :=
  map (λ col, dot v col) (transpose b).

(** [np.dot] by the dimensions of its arguments; mismatched shapes raise
    [ValueError]. *)
Definition np_dot_mm (a b : matrix) : result matrix :=
  if rectangular a && rectangular b && (cols a =? length b)%nat
  then Ok (matmul a b) else Raise ValueError.

Definition np_dot_mv (a : matrix) (v : vector) : result vector :=
  if rectangular a && (cols a =? length v)%nat
  then Ok (matvec a v) else Raise ValueError.

Definition np_dot_vm (v : vector) (b : matrix) : result vector :=
  if rectangular b && (length v =? length b)%nat
  then Ok (vecmat v b) else Raise ValueError.

Definition np_dot_vv (u v : vector) : result R :=
  if (length u =? length v)%nat then Ok (dot u v) else Raise ValueError.

(** Elementwise [u - v], [u + v] and [a - b]. *)
Definition np_sub_v (u v : vector) : result vector :=
  if (length u =? length v)%nat then Ok (zip_with Rminus u v)
  else Raise ValueError.

Definition np_add_v (u v : vector) : result vector :=
  if (length u =? length v)%nat then Ok (zip_with Rplus u v)
  else Raise ValueError.

Definition np_sub_m (a b : matrix) : result matrix :=
  if rectangular a && rectangular b && (length a =? length b)%nat
     && (cols a =? cols b)%nat
  then Ok (zip_with (zip_with Rminus) a b) else Raise ValueError.

Definition identity (n : nat) : matrix :=
  tabulate n (λ i, tabulate n (λ j, if decide (i = j) then 1 else 0)).

Definition square (n : nat) (m : matrix) : Prop :=
  length m = n ∧ Forall (λ row, length row = n) m.

Definition is_inverse (m inv : matrix) : Prop :=
  square (length m) m ∧ square (length m) inv ∧
  matmul m inv = identity (length m) ∧ matmul inv m = identity (length m).

(** [np.linalg.inv]: the inverse of a square matrix that has one,
    [LinAlgError] otherwise. *)
Definition linalg_inv (m : matrix) : result matrix :=
  match excluded_middle_informative (∃ inv, is_inverse m inv) with
  | left invertible =>
      Ok (proj1_sig (constructive_indefinite_description _ invertible))
  | right _ => Raise LinAlgError
  end.

(** [math.sinh], which raises [OverflowError] when the result is beyond
    the largest double, (2 - 2^-52) * 2^1023; [None] stands for that
    exception, which its only caller catches. *)
Definition float_max : R := (2 - / 2 ^ 52) * 2 ^ 1023.

Definition math_sinh (x : R) : option R :=
  if Rlt_dec float_max (Rabs (sinh x)) then None else Some (sinh x).

(** *** Finite sums and spectral products *)

Fixpoint Rsum (n : nat) (f : nat → R) : R :=
  match n with
  | O => 0
  | S n' => Rsum n' f + f n'
  end.

(** The diagonal matrix of [d]. *)
Definition diag (n : nat) (d : nat → R) : matrix :=
  tabulate n (λ i, tabulate n (λ j, if decide (i = j) then d i else 0)).

Definition msub (a b : matrix) : matrix := zip_with (zip_with Rminus) a b.

(** [evec . diag d . evec.T], the shape of every product of the class. *)
Definition sandwich (n : nat) (evec : matrix) (d : nat → R) : matrix :=
  matmul evec (matmul (diag n d) (transpose evec)).

Definition orthonormal (n : nat) (evec : matrix) : Prop :=
  square n evec ∧
  matmul evec (transpose evec) = identity n ∧
  matmul (transpose evec) evec = identity n.

End Numpy.

(** ** class Transition *)

Module Dynamics.

Import Numpy.
Local Open Scope R_scope.

(** The arrays of the two end states live in a store and are passed by
    reference, as Python passes them. *)
Inductive ndarray : Type :=
| Vector (v : vector)
| Matrix (m : matrix).

Abbreviation ref := nat (only parsing).
Abbreviation heap := (gmap nat ndarray).

Definition load_vector (h : heap) (r : ref) : result vector :=
  match h !! r with
  | Some (Vector v) => Ok v
  | _ => Raise TypeError
  end.

Definition load_matrix (h : heap) (r : ref) : result matrix :=
  match h !! r with
  | Some (Matrix m) => Ok m
  | _ => Raise TypeError
  end.

(** [a[i]] and [a[i] = x] through a reference. *)
Definition load_item (h : heap) (r : ref) (i : nat) : result R :=
  v ← load_vector h r; getitem v i.

Definition store_item (h : heap) (r : ref) (i : nat) (x : R) : result heap :=
  v ← load_vector h r;
  if (i <? length v)%nat then Ok (<[r := Vector (<[i := x]> v)]> h)
  else Raise IndexError.

(** The attributes that [__init__] sets before it calls
    [transition_state]. *)
Record Attributes : Type := {
  tbar_left : R;
  tbar_right : R;
  t_series : list R;
  tf : R;
  kl : R;
  kr : R;
  eval1 : ref;
  eval2 : ref;
  evec1 : ref;
  evec2 : ref;
  coord_left : ref;
  coord_right : ref;
  natoms : nat
}.

Record Transition : Type := {
  attributes : Attributes;
  xbar : vector;
  work_left : vector;
  work_right : vector;
  action_left : R;
  action_right : R;
  trajectory_coord : matrix
}.

(** The literal [0.000001] below which a mode is treated as a zero mode. *)
Definition zero_mode : R := 1e-6.

Definition within_700 (x : R) : bool :=
  if Rlt_dec x 700 then (if Rgt_dec x (-700) then true else false) else false.

Section Transition.

(** [Constant().dim] and [ThermoDynamics().work], which are defined outside
    this file. *)
Variable dim : nat.
Variable work : vector → vector → vector.

Variable self : Attributes.

Definition dimensions : nat := natoms self * dim.

(** The first loop of [transition_state]. *)
Definition init_diagonal (h : heap) (i : nat) (ba : matrix * matrix)
  : result (matrix * matrix) :=
  let '(b_left, a_right) := ba in
  e1 ← load_item h (eval1 self) i;
  e2 ← load_item h (eval2 self) i;
  Ok (set_diag b_left i e1, set_diag a_right i (- e2)).

(** The second loop, left state then right state. *)
Definition stiffness_left (i : nat) (st : matrix * matrix * heap)
  : result (matrix * matrix * heap) :=
  let '(b_left, s_left, h) := st in
  e ← load_item h (eval1 self) i;
  if Rlt_dec e zero_mode then
    q ← pdiv 1 (tbar_left self);
    h' ← store_item h (eval1 self) i 0;
    Ok (set_diag b_left i q, set_diag s_left i q, h')
  else if within_700 (e * tbar_left self) then
    b ← pdiv (e * cosh (e * tbar_left self)) (sinh (e * tbar_left self));
    s ← pdiv (e * exp (e * tbar_left self)) (sinh (e * tbar_left self));
    Ok (set_diag b_left i b, set_diag s_left i s, h)
  else Ok (b_left, s_left, h).

Definition stiffness_right (i : nat) (st : matrix * matrix * heap)
  : result (matrix * matrix * heap) :=
  let '(a_right, s_right, h) := st in
  e ← load_item h (eval2 self) i;
  if Rlt_dec e zero_mode then
    q ← pdiv 1 (tbar_left self - tf self);
    h' ← store_item h (eval2 self) i 0;
    Ok (set_diag a_right i q, set_diag s_right i (- q), h')
  else if within_700 (e * (tbar_left self - tf self)) then
    a ← pdiv (e * cosh (e * (tbar_left self - tf self)))
             (sinh (e * (tbar_left self - tf self)));
    s ← pdiv (e * exp (e * (tf self - tbar_left self)))
             (sinh (e * (tf self - tbar_left self)));
    Ok (set_diag a_right i a, set_diag s_right i s, h)
  else Ok (a_right, s_right, h).

Definition stiffness (i : nat) (st : matrix * matrix * matrix * matrix * heap)
  : result (matrix * matrix * matrix * matrix * heap) :=
  let '(b_left, a_right, s_left, s_right, h) := st in
  '(b_left, s_left, h) ← stiffness_left i (b_left, s_left, h);
  '(a_right, s_right, h) ← stiffness_right i (a_right, s_right, h);
  Ok (b_left, a_right, s_left, s_right, h).

(** [np.dot(evec, np.dot(d, evec.T))] *)
Definition project (evec d : matrix) : result matrix :=
  inner ← np_dot_mm d (transpose evec);
  np_dot_mm evec inner.

(** [0.5 * np.dot(w.T, np.dot(s, w))] *)
Definition action (s : matrix) (w : vector) : result R :=
  sw ← np_dot_mv s w;
  a ← np_dot_vv w sw;
  Ok (0.5 * a).

Definition transition_state (h : heap)
  : result (vector * vector * vector * R * R * heap) :=
  let z := zeros dimensions in
  '(b_left, a_right) ← for_each (seq 0 dimensions) (init_diagonal h) (z, z);
  '(b_left, a_right, s_left, s_right, h) ←
    for_each (seq 0 dimensions) stiffness (b_left, a_right, z, z, h);
  evec_left ← load_matrix h (evec1 self);
  evec_right ← load_matrix h (evec2 self);
  x_left ← load_vector h (coord_left self);
  x_right ← load_vector h (coord_right self);
  den1 ← project evec_left b_left;
  den2 ← project evec_right a_right;
  num1 ← np_dot_mv den1 x_left;
  num2 ← np_dot_mv den2 x_right;
  num ← np_sub_v num1 num2;
  den ← np_sub_m den1 den2;
  inv ← linalg_inv den;
  xbar ← np_dot_vm num inv;
  let work_left := work xbar x_left in
  let work_right := work xbar x_right in
  s_left_matrix ← project evec_left s_left;
  s_right_matrix ← project evec_right s_right;
  action_left ← action s_left_matrix work_left;
  action_right ← action s_right_matrix work_right;
  Ok (xbar, work_left, work_right, action_left, action_right, h).

(** The weight [xlr[dim][dim]] of one mode at the time [t]. *)
Definition weight_left (h : heap) (t : R) (d : nat) : result R :=
  e ← load_item h (eval1 self) d;
  if Rlt_dec e zero_mode then pdiv t (tbar_left self)
  else
    match math_sinh (e * t) with
    | None => Ok (exp (e * (t - tbar_left self)))
    | Some x =>
        match math_sinh (e * tbar_left self) with
        | None => Ok (exp (e * (t - tbar_left self)))
        | Some y => pdiv x y
        end
    end.

Definition weight_right (h : heap) (t : R) (d : nat) : result R :=
  e ← load_item h (eval2 self) d;
  if Rlt_dec e zero_mode then pdiv (tf self - t) (tbar_right self)
  else
    match math_sinh (e * (t - tf self)) with
    | None => Ok (exp (e * (t - tf self - tbar_right self)))
    | Some x =>
        match math_sinh (e * tbar_right self) with
        | None => Ok (exp (e * (t - tf self - tbar_right self)))
        | Some y => pdiv (- x) y
        end
    end.

Definition set_weight (h : heap) (t : R) (d : nat) (xlr : matrix)
  : result matrix :=
  w ← (if Rlt_dec t (tbar_left self) then weight_left h t d
       else weight_right h t d);
  Ok (set_diag xlr d w).

(** One pass of the outer loop of [trajectory]: the weights are written
    into [xlr], which is kept from one pass to the next, and the
    coordinates of the step are appended. *)
Definition trajectory_step (h : heap) (w_left w_right : vector) (t : R)
    (st : matrix * matrix) : result (matrix * matrix) :=
  let '(xlr, coord) := st in
  xlr ← for_each (seq 0 dimensions) (set_weight h t) xlr;
  if Rlt_dec t (tbar_left self) then
    evec ← load_matrix h (evec1 self);
    x ← load_vector h (coord_left self);
    p ← project evec xlr;
    v ← np_dot_mv p w_left;
    c ← np_add_v v x;
    Ok (xlr, coord ++ [c])
  else
    evec ← load_matrix h (evec2 self);
    x ← load_vector h (coord_right self);
    p ← project evec xlr;
    v ← np_dot_mv p w_right;
    c ← np_add_v v x;
    Ok (xlr, coord ++ [c]).

Fixpoint trajectory_loop (h : heap) (w_left w_right : vector)
    (times : list R) (st : matrix * matrix) : result (matrix * matrix) :=
  match times with
  | [] => Ok st
  | t :: times' =>
      st' ← trajectory_step h w_left w_right t st;
      trajectory_loop h w_left w_right times' st'
  end.

Definition trajectory (h : heap) (w_left w_right : vector) : result matrix :=
  '(_, coord) ←
    trajectory_loop h w_left w_right (t_series self) (zeros dimensions, []);
  Ok coord.

End Transition.

(** [Transition.__init__] *)
Definition Transition_init (dim : nat) (work : vector → vector → vector)
    (tbar_left tbar_right fc_left fc_right : R)
    (eval_left eval_right evec_left evec_right coord_left coord_right : ref)
    (t_series : list R) (natoms : nat) (h : heap)
  : result (Transition * heap) :=
  let self := {|
    tbar_left := tbar_left;
    tbar_right := tbar_right;
    t_series := t_series;
    tf := tbar_left + tbar_right;
    kl := fc_left;
    kr := fc_right;
    eval1 := eval_left;
    eval2 := eval_right;
    evec1 := evec_left;
    evec2 := evec_right;
    coord_left := coord_left;
    coord_right := coord_right;
    natoms := natoms
  |} in
  '(xbar, work_left, work_right, action_left, action_right, h) ←
    transition_state dim work self h;
  trajectory_coord ← trajectory dim self h work_left work_right;
  Ok ({| attributes := self;
         xbar := xbar;
         work_left := work_left;
         work_right := work_right;
         action_left := action_left;
         action_right := action_right;
         trajectory_coord := trajectory_coord |}, h).

(** What [transition_state] leaves in an eigenvalue array: among the first
    [n] entries, those below 1e-6 are overwritten with 0. *)
Definition clamp (n : nat) (v : vector) : vector :=
  imap (λ i x, if decide (i < n)%nat then (if Rlt_dec x zero_mode then 0 else x)
               else x) v.

(** *** The effect of [transition_state] on the store *)

Definition clamp_value (x : R) : R := if Rlt_dec x zero_mode then 0 else x.

(** The effect of one pass on one array: entry [i] is overwritten with 0
    when it is below 1e-6. *)
Definition clamp_entry (i : nat) (v : vector) : vector :=
  if Rlt_dec (nth i v 0) zero_mode then <[i := 0]> v else v.

Definition clamp_array (n : nat) (a : ndarray) : ndarray :=
  match a with
  | Vector v => Vector (clamp n v)
  | Matrix m => Matrix m
  end.

(** The store after [transition_state]: the two eigenvalue arrays (which
    may be one array) are clamped, nothing else is written. *)
Definition clamp_heap (n : nat) (r1 r2 : nat) (h : heap) : heap :=
  alter (clamp_array n) r1 (alter (clamp_array n) r2 h).

(** *** The diagonals after the two loops *)

(** One diagonal entry after the second loop, from the eigenvalue [x] and
    the entry [prev] the first loop left there. *)
Definition b_entry (tl x prev : R) : R :=
  if Rlt_dec x zero_mode then 1 / tl
  else if within_700 (x * tl) then x * cosh (x * tl) / sinh (x * tl)
  else prev.

Definition s_left_entry (tl x prev : R) : R :=
  if Rlt_dec x zero_mode then 1 / tl
  else if within_700 (x * tl) then x * exp (x * tl) / sinh (x * tl)
  else prev.

Definition a_entry (tl tf x prev : R) : R :=
  if Rlt_dec x zero_mode then 1 / (tl - tf)
  else if within_700 (x * (tl - tf))
       then x * cosh (x * (tl - tf)) / sinh (x * (tl - tf))
  else prev.

Definition s_right_entry (tl tf x prev : R) : R :=
  if Rlt_dec x zero_mode then - (1 / (tl - tf))
  else if within_700 (x * (tl - tf))
       then x * exp (x * (tf - tl)) / sinh (x * (tf - tl))
  else prev.

(** [d] with the entry [i] replaced by [y]. *)
Definition upd (d : nat → R) (i : nat) (y : R) : nat → R :=
  λ k, if decide (k = i) then y else d k.

Definition b_diagonal (self : Attributes) (v1 : vector) (k : nat) : R :=
  b_entry (tbar_left self) (nth k v1 0) (nth k v1 0).

Definition a_diagonal (self : Attributes) (v2 : vector) (k : nat) : R :=
  a_entry (tbar_left self) (tf self) (nth k v2 0) (- nth k v2 0).

Definition s_left_diagonal (self : Attributes) (v1 : vector) (k : nat) : R :=
  s_left_entry (tbar_left self) (nth k v1 0) 0.

Definition s_right_diagonal (self : Attributes) (v2 : vector) (k : nat) : R :=
  s_right_entry (tbar_left self) (tf self) (nth k v2 0) 0.

(** *** The linear system of [transition_state] *)

Definition den1 (dim : nat) (self : Attributes) (v1 : vector) (e1 : matrix)
    : matrix :=
  sandwich (dimensions dim self) e1 (b_diagonal self v1).

Definition den2 (dim : nat) (self : Attributes) (v2 : vector) (e2 : matrix)
    : matrix :=
  sandwich (dimensions dim self) e2 (a_diagonal self v2).

Definition den (dim : nat) (self : Attributes) (v1 v2 : vector)
    (e1 e2 : matrix) : matrix :=
  msub (den1 dim self v1 e1) (den2 dim self v2 e2).

Definition num (dim : nat) (self : Attributes) (v1 v2 x1 x2 : vector)
    (e1 e2 : matrix) : vector :=
  zip_with Rminus (matvec (den1 dim self v1 e1) x1)
                  (matvec (den2 dim self v2 e2) x2).

(** With the same spectrum and basis on both sides and equal times, the
    transition state is the midpoint of the two coordinate vectors. *)
Definition midpoint (x1 x2 : vector) : vector :=
  zip_with (λ a b, (a + b) / 2) x1 x2.

(** *** The weights of [trajectory] *)

Definition weight_left_value (tl e t : R) : R :=
  if Rlt_dec e zero_mode then t / tl
  else
    match math_sinh (e * t) with
    | None => exp (e * (t - tl))
    | Some x =>
        match math_sinh (e * tl) with
        | None => exp (e * (t - tl))
        | Some y => x / y
        end
    end.

Definition weight_right_value (tr tf e t : R) : R :=
  if Rlt_dec e zero_mode then (tf - t) / tr
  else
    match math_sinh (e * (t - tf)) with
    | None => exp (e * (t - tf - tr))
    | Some x =>
        match math_sinh (e * tr) with
        | None => exp (e * (t - tf - tr))
        | Some y => - x / y
        end
    end.

(** The weight of the mode [k] at the time [t]. *)
Definition weight_at (self : Attributes) (v1 v2 : vector) (t : R) (k : nat)
    : R :=
  if Rlt_dec t (tbar_left self)
  then weight_left_value (tbar_left self) (nth k v1 0) t
  else weight_right_value (tbar_right self) (tf self) (nth k v2 0) t.

(** The coordinates appended at the time [t]. *)
Definition coord_at (dim : nat) (self : Attributes)
    (w_left w_right v1 v2 x1 x2 : vector) (e1 e2 : matrix) (t : R) : vector :=
  if Rlt_dec t (tbar_left self)
  then zip_with Rplus
         (matvec (sandwich (dimensions dim self) e1 (weight_at self v1 v2 t))
                 w_left) x1
  else zip_with Rplus
         (matvec (sandwich (dimensions dim self) e2 (weight_at self v1 v2 t))
                 w_right) x2.

(** *** Two identical end states *)

(** The attributes of the object under construction when both sides have
    the same time to the transition state. *)
Definition mirror_attributes (tl fc_left fc_right : R)
    (eval_left eval_right evec_left evec_right c_left c_right : ref)
    (times : list R) (atoms : nat) : Attributes := {|
  tbar_left := tl;
  tbar_right := tl;
  t_series := times;
  tf := tl + tl;
  kl := fc_left;
  kr := fc_right;
  eval1 := eval_left;
  eval2 := eval_right;
  evec1 := evec_left;
  evec2 := evec_right;
  coord_left := c_left;
  coord_right := c_right;
  natoms := atoms
|}.

(** A displacement, for [ThermoDynamics().work]. *)
Definition displacement (xbar coord : vector) : vector :=
  zip_with Rminus xbar coord.

(** Six arrays: two spectra, two bases, two coordinate vectors. *)
Definition store_of (spectrum x_left x_right : vector) : heap :=
  <[0%nat := Vector spectrum]>
    (<[1%nat := Vector spectrum]>
       (<[2%nat := Matrix (identity 3)]>
          (<[3%nat := Matrix (identity 3)]>
             (<[4%nat := Vector x_left]>
                (<[5%nat := Vector x_right]> ∅))))).

End Dynamics.

(** * Theorems *)

(** ** Sequencing, loops and division *)

Module PythonFacts.
Local Open Scope R_scope.

Lemma bind_inv {A B} (m : result A) (f : A → result B) y :
  m ≫= f = Ok y → ∃ x, m = Ok x ∧ f x = Ok y.
Proof. destruct m as [x|e]; [|done]. intros H. by exists x. Qed.

Lemma bind_ok {A B} (m : result A) (f : A → result B) x :
  m = Ok x → m ≫= f = f x.
Proof. by intros ->. Qed.

Lemma pdiv_ok x y : y ≠ 0 → pdiv x y = Ok (x / y).
Proof. intros Hy. unfold pdiv. by destruct (Req_dec_T y 0). Qed.

Lemma map_seq_lookup {A} (f : nat → A) (start len k : nat) :
  (k < len)%nat → map f (seq start len) !! k = Some (f (start + k)%nat).
Proof.
  revert start k. induction len as [|len IH]; intros start k Hk; [lia|].
  destruct k as [|k]; simpl.
  - by rewrite Nat.add_0_r.
  - rewrite IH by lia. f_equal. f_equal. lia.
Qed.

(** A loop over a range that keeps an invariant runs to its end. *)
Lemma for_each_seq_total {S} (Inv : nat → S → Prop) body start len (s : S) :
  Inv start s →
  (∀ i s, (start ≤ i < start + len)%nat → Inv i s →
     ∃ s', body i s = Ok s' ∧ Inv (Datatypes.S i) s') →
  ∃ s', for_each (seq start len) body s = Ok s' ∧ Inv (start + len)%nat s'.
Proof.
  revert start s. induction len as [|len IH]; intros start s H0 Hstep.
  - exists s. rewrite Nat.add_0_r. done.
  - cbn [seq for_each].
    destruct (Hstep start s ltac:(lia) H0) as (s1 & -> & H1). cbn.
    destruct (IH (Datatypes.S start) s1 H1) as (s' & Hs' & Hinv).
    { intros i s2 Hi. apply Hstep. lia. }
    exists s'. split; [done|].
    by replace (start + Datatypes.S len)%nat with (Datatypes.S start + len)%nat by lia.
Qed.

(** What a loop over a range returns satisfies every invariant of its
    body. *)
Lemma for_each_seq_partial {S} (Inv : nat → S → Prop) body start len (s s' : S) :
  Inv start s →
  (∀ i s s', (start ≤ i < start + len)%nat → Inv i s →
     body i s = Ok s' → Inv (Datatypes.S i) s') →
  for_each (seq start len) body s = Ok s' → Inv (start + len)%nat s'.
Proof.
  revert start s. induction len as [|len IH]; intros start s H0 Hstep.
  - cbn. intros [= <-]. by rewrite Nat.add_0_r.
  - cbn [seq for_each].
    destruct (body start s) as [s1|e] eqn:Hb; [|done]. cbn. intros Hrest.
    replace (start + Datatypes.S len)%nat with (Datatypes.S start + len)%nat by lia.
    apply (IH (Datatypes.S start) s1); [|intros i s2 s3 Hi; apply Hstep; lia|done].
    apply (Hstep start s s1); [lia|done|done].
Qed.

(** A range cut at one of its indices. *)
Lemma seq_split n k :
  (k < n)%nat → seq 0 n = seq 0 k ++ k :: seq (S k) (n - S k).
Proof.
  intros Hk. transitivity (seq 0 (k + S (n - S k))); [f_equal; lia|].
  by rewrite seq_app.
Qed.

(** A loop stops at the first index whose body raises. *)
Lemma for_each_raises {S} (body : nat → S → result S) before i after (s : S) e :
  (∀ j s, In j before → ∃ s', body j s = Ok s') →
  (∀ s, body i s = Raise e) →
  for_each (before ++ i :: after) body s = Raise e.
Proof.
  intros Hbefore Hi. revert s.
  induction before as [|j before IH]; intros s; cbn [app for_each].
  - by rewrite Hi.
  - destruct (Hbefore j s) as [s' Hs]; [by left|]. rewrite Hs. cbn.
    apply IH. intros j' s0 Hj. apply Hbefore. by right.
Qed.

End PythonFacts.

(** ** Time.time_to_transition_state *)

Module SpectrumFacts.
Import Spectrum.
Local Open Scope float_scope.

(** *** binary64 facts *)

Lemma div_eucl_shift (m : positive) :
  Z.div_eucl (Z.shiftl (Zpos m) 53) (Zpos m) = (Z.pow 2 53, 0%Z).
Proof.
  rewrite Z.shiftl_mul_pow2 by lia.
  pose proof (Z_div_mult (2 ^ 53) (Z.pos m) ltac:(lia)) as Hq.
  pose proof (Z_mod_mult (2 ^ 53) (Z.pos m)) as Hr.
  rewrite (Z.mul_comm (Z.pos m)).
  unfold Z.div, Z.modulo in Hq, Hr.
  destruct (Z.div_eucl (2 ^ 53 * Z.pos m) (Z.pos m)) as [q r].
  simpl in Hq, Hr. congruence.
Qed.

Lemma SFdiv_self s m e :
  SF64div (S754_finite s m e) (S754_finite s m e) = Prim2SF 1.
Proof.
  unfold SF64div, SFdiv, SFdiv_core_binary.
  rewrite !Z.sub_diag.
  change (Z.min (fexp prec emax 0) 0) with (-53)%Z.
  change (0 - -53)%Z with 53%Z.
  cbv beta iota zeta.
  rewrite div_eucl_shift.
  replace (new_location (Z.pos m) 0) with loc_Exact
    by (unfold new_location; destruct (Z.even (Z.pos m)); reflexivity).
  destruct s; vm_compute; reflexivity.
Qed.

(** A finite non-zero double divided by itself is exactly 1. *)
Lemma div_self x : finite_nonzero x = true → x / x = 1.
Proof.
  unfold finite_nonzero. rewrite classify_spec. intros H.
  apply Prim2SF_inj. rewrite FloatAxioms.div_spec.
  destruct (Prim2SF x) as [s|s| |s m e];
    try (destruct s; discriminate H); try discriminate H.
  apply SFdiv_self.
Qed.

(** Adding a zero to a finite non-zero double changes nothing. *)
Lemma signed_zero_add x (s : bool) :
  finite_nonzero x = true → SF2Prim (S754_zero s) + x = x.
Proof.
  unfold finite_nonzero. rewrite classify_spec. intros H.
  apply Prim2SF_inj. rewrite FloatAxioms.add_spec.
  replace (Prim2SF (SF2Prim (S754_zero s))) with (S754_zero s)
    by (by destruct s).
  destruct (Prim2SF x) as [s'|s'| |s' m e];
    try (destruct s'; discriminate H); try discriminate H.
  done.
Qed.

Lemma zero_add x : finite_nonzero x = true → 0 + x = x.
Proof. apply (signed_zero_add x false). Qed.

Lemma neg_zero_add x : finite_nonzero x = true → neg_zero + x = x.
Proof. apply (signed_zero_add x true). Qed.

(** *** [np.cumsum] and [np.sum] against the wording *)

Lemma cumsum_from_running acc r :
  cumsum_from acc r
  = map (λ k, fold_left PrimFloat.add (take (S k) r) acc) (seq 0 (length r)).
Proof.
  revert acc. induction r as [|x r IH]; intros acc; [done|].
  cbn [cumsum_from length seq map take fold_left]. f_equal.
  rewrite IH, <- seq_shift, map_map. done.
Qed.

Lemma np_cumsum_running_sums l : np_cumsum l = running_sums l.
Proof.
  destruct l as [|x r]; [done|]. unfold running_sums.
  cbn [np_cumsum length seq map take]. f_equal.
  rewrite cumsum_from_running, <- seq_shift, map_map. done.
Qed.

Lemma nth_take_below {A} (l : list A) n j d :
  (j < n)%nat → nth j (take n l) d = nth j l d.
Proof. intros Hj. by rewrite !nth_lookup, lookup_take_lt. Qed.

Lemma nth_drop_shift {A} (l : list A) n j d :
  nth j (drop n l) d = nth (n + j) l d.
Proof. by rewrite !nth_lookup, lookup_drop. Qed.

Lemma nth_zip_add (r s : list float) j :
  (j < length r)%nat → (j < length s)%nat →
  nth j (zip_with PrimFloat.add r s) 0 = nth j r 0 + nth j s 0.
Proof.
  revert s j. induction r as [|x r IH]; intros [|y s] j Hr Hs;
    simpl in *; try lia.
  destruct j as [|j]; [done|]. apply IH; lia.
Qed.

Lemma eight_entries (r : list float) :
  length r = 8%nat → r = map (λ j, nth j r 0) (seq 0 8).
Proof. intros H. by do 9 (destruct r as [|? r]; try done). Qed.

(** The eight accumulators after [blocks] more blocks. *)
Lemma accumulate_blocks_lanes blocks r a :
  length r = 8%nat → (8 * blocks ≤ length a)%nat →
  accumulate_blocks blocks r a
  = (map (λ j, fold_left PrimFloat.add
                 (map (λ i, nth (8 * i + j) a 0) (seq 0 blocks)) (nth j r 0))
         (seq 0 8),
     drop (8 * blocks) a).
Proof.
  revert r a. induction blocks as [|b IH]; intros r a Hr Ha.
  - cbn [accumulate_blocks]. change (seq 0 0) with (@nil nat).
    cbn [map fold_left]. by rewrite <- eight_entries.
  - cbn [accumulate_blocks]. rewrite IH.
    + f_equal.
      * apply map_ext_in. intros j Hj. apply in_seq in Hj.
        cbn [seq map fold_left]. rewrite <- seq_shift, map_map.
        rewrite nth_zip_add by (rewrite ?length_take; lia).
        rewrite nth_take_below by lia. rewrite Nat.mul_0_r, Nat.add_0_l.
        f_equal. apply map_ext. intros i. rewrite nth_drop_shift.
        f_equal. lia.
      * rewrite drop_drop. f_equal. lia.
    + rewrite length_zip_with, length_take. lia.
    + rewrite length_drop. lia.
Qed.

Lemma block_sum_blocked_total l :
  (8 ≤ length l)%nat → block_sum l = blocked_total l.
Proof.
  intros Hl. unfold block_sum, blocked_total.
  pose proof (Nat.div_mod_eq (length l) 8) as Hdiv.
  pose proof (Nat.mod_upper_bound (length l) 8 ltac:(lia)) as Hmod.
  set (q := (length l / 8)%nat) in *.
  rewrite accumulate_blocks_lanes
    by (rewrite ?length_take, ?length_drop; lia).
  cbn [seq map]. rewrite drop_drop.
  replace (8 + 8 * (q - 1))%nat with (8 * q)%nat by lia.
  assert (Hlane : ∀ j, (j < 8)%nat →
    fold_left PrimFloat.add
      (map (λ i, nth (8 * i + j) (drop 8 l) 0) (seq 0 (q - 1)))
      (nth j (take 8 l) 0)
    = sum_in_order (every_eighth j l)).
  { intros j Hj. unfold every_eighth. fold q.
    replace q with (S (q - 1)) at 2 by lia.
    cbn [seq map sum_in_order]. rewrite <- seq_shift, map_map.
    rewrite nth_take_below by lia. rewrite Nat.mul_0_r, Nat.add_0_l.
    f_equal. apply map_ext. intros i. rewrite nth_drop_shift. f_equal. lia. }
  by rewrite !Hlane by lia.
Qed.

Lemma pairwise_sum_halved_total depth l :
  pairwise_sum depth l = halved_total depth l.
Proof.
  revert l. induction depth as [|d IH]; intros l; cbn [pairwise_sum halved_total].
  - destruct (Nat.ltb_spec (length l) 8); [done|].
    by rewrite block_sum_blocked_total by done.
  - destruct (Nat.ltb_spec (length l) 8); [done|].
    rewrite block_sum_blocked_total by done. by rewrite !IH.
Qed.

Lemma np_sum_numpy_total l : np_sum l = numpy_total l.
Proof. unfold np_sum, numpy_total. by rewrite pairwise_sum_halved_total. Qed.

(** The bound on the halvings is never reached: any depth from the length
    of the array on gives the same sum. *)
Lemma pairwise_sum_depth d1 d2 a :
  (length a ≤ d1)%nat → (length a ≤ d2)%nat →
  pairwise_sum d1 a = pairwise_sum d2 a.
Proof.
  revert d2 a. induction d1 as [|d1 IH]; intros d2 a H1 H2.
  - destruct a; [|simpl in H1; lia]. by destruct d2.
  - destruct d2 as [|d2].
    { destruct a; [done|simpl in H2; lia]. }
    cbn [pairwise_sum].
    destruct (Nat.ltb_spec (length a) 8); [done|].
    destruct (Nat.leb_spec (length a) 128); [done|].
    pose proof (Nat.div_mod_eq (length a) 2) as Hdiv.
    pose proof (Nat.mod_upper_bound (length a) 2 ltac:(lia)) as Hmod.
    pose proof (Nat.mod_upper_bound (length a / 2) 8 ltac:(lia)) as Hmod8.
    set (h := (length a / 2)%nat) in *. set (m := (h mod 8)%nat) in *.
    f_equal; apply IH; rewrite ?length_take, ?length_drop; lia.
Qed.

(** One entry: the sum is the entry. *)
Lemma np_sum_single x : finite_nonzero x = true → np_sum [x] = x.
Proof.
  intros H. unfold np_sum.
  change (pairwise_sum (length [x]) [x]) with (neg_zero + x).
  by rewrite neg_zero_add, zero_add.
Qed.

(** *** [np.argmin] on booleans *)

Lemma argmin_scan_false best_id next_id a :
  argmin_scan false best_id next_id a = best_id.
Proof.
  revert next_id. induction a as [|x r IH]; intros next_id; simpl; [done|].
  unfold bool_lt. rewrite andb_false_r. apply IH.
Qed.

Lemma argmin_scan_true best_id next_id a :
  argmin_scan true best_id next_id a =
  default best_id ((λ i, next_id + i)%nat <$> first_index negb a).
Proof.
  revert next_id. induction a as [|x r IH]; intros next_id; simpl; [done|].
  destruct x; simpl.
  - rewrite IH. destruct (first_index negb r); simpl; f_equal; lia.
  - rewrite argmin_scan_false. f_equal; lia.
Qed.

Lemma first_index_map {A B} (f : A → B) (p : B → bool) l :
  first_index p (map f l) = first_index (λ x, p (f x)) l.
Proof.
  induction l as [|x r IH]; simpl; [done|].
  destruct (p (f x)); [done|]. by rewrite IH.
Qed.

Lemma first_index_lt {A} (p : A → bool) l i :
  first_index p l = Some i → (i < length l)%nat.
Proof.
  revert i. induction l as [|x r IH]; intros i; simpl; [done|].
  destruct (p x).
  - intros [= <-]. lia.
  - destruct (first_index p r) as [j|]; simpl; [|done].
    intros [= <-]. specialize (IH j eq_refl). lia.
Qed.

(** [np.argmin(a)] is the first [False] of [a], and 0 when [a] has none. *)
Lemma np_argmin_first_false a :
  a ≠ [] → np_argmin a = Ok (default 0%nat (first_index negb a)).
Proof.
  destruct a as [|x r]; [done|]. intros _. simpl. f_equal.
  destruct x; simpl.
  - rewrite argmin_scan_true. by destruct (first_index negb r).
  - apply argmin_scan_false.
Qed.

Lemma cutoff_not_below_lt cumulative k :
  cutoff_not_below cumulative = Some k → (k < length cumulative)%nat.
Proof.
  unfold cutoff_not_below. destruct cumulative as [|c r] eqn:E; [done|].
  rewrite <- E. intros [= <-].
  destruct (first_index _ cumulative) as [i|] eqn:Hi; simpl.
  - by apply first_index_lt in Hi.
  - subst; simpl; lia.
Qed.

Lemma np_argmin_cutoff (cumulative : list float) :
  np_argmin (map (λ c, c <? cutoff_fraction) cumulative) =
  match cutoff_not_below cumulative with
  | Some k => Ok k
  | None => Raise ValueError
  end.
Proof.
  destruct cumulative as [|c r] eqn:E; [done|]. rewrite <- E.
  rewrite np_argmin_first_false by (subst; done).
  rewrite first_index_map.
  unfold cutoff_not_below. by subst.
Qed.

End SpectrumFacts.

Module SpectrumClaims.
Import Spectrum SpectrumFacts.
Local Open Scope float_scope.
Set Warnings "-inexact-float".

(** C3. The spectrum [0,0,0,0,0,1e-7,2] has seven entries, so six are
    skipped and the one retained eigenvalue, 2, is strictly positive; the
    cutoff index is 0, and the function returns an infinite time and a
    zero force constant: neither is strictly positive and finite. *)
Theorem positive_spectrum_zero_force_constant :
  let eigenvalue := [0; 0; 0; 0; 0; 1e-7; 2] in
  drop (skip_count eigenvalue) eigenvalue = [2] ∧
  (0 <? 2) = true ∧
  time_to_transition_state eigenvalue = Ok (infinity, 0) ∧
  (0 <? 0) = false ∧ is_finite infinity = false.
Proof. vm_compute. done. Qed.

(** C8, as stated, fails, in two ways.  On the retained eigenvalues
    [-1,1,1,-1] the cumulative fractions are [-inf, nan, inf, nan]; the
    first fraction that reaches 0.95 is at index 2, where the wording gives
    (inf, 0), while [np.argmin] stops at the NaN of index 1 and the code
    returns (nan, nan).  On twenty retained eigenvalues 3.0 the nineteenth
    cumulative sum divided by the sum of the reciprocals in index order
    reaches 0.95, and the wording gives the cutoff index 18; [np.sum] adds
    the reciprocals in eight accumulators, its total is one unit in the
    last place larger, and the code finds the cutoff index 19. *)
Lemma wording_differs_from_code :
  (let eigenvalue := [0; 0; 0; 0; 0; 0; -1; 1; 1; -1] in
   cumulative_fraction (np_reciprocal (drop (skip_count eigenvalue) eigenvalue))
     = [neg_infinity; nan; infinity; nan] ∧
   spec_time_to_transition_state eigenvalue = Some (infinity, 0) ∧
   time_to_transition_state eigenvalue = Ok (nan, nan) ∧
   time_to_transition_state eigenvalue ≠ Ok (infinity, 0)) ∧
  (let eigenvalue := [0; 0; 0; 0; 0; 0] ++ repeat 3 20 in
   sum_in_order (map (λ x, 1 / x) (repeat 3 20)) = 0x1.aaaaaaaaaaaa8p+2 ∧
   np_sum (np_reciprocal (repeat 3 20)) = 0x1.aaaaaaaaaaaa9p+2 ∧
   spec_time_to_transition_state eigenvalue
     = Some (0x1.d7a4fa4fa4fa5p+2, 0x1.e6551bb1a57cfp-1) ∧
   time_to_transition_state eigenvalue
     = Ok (0x1.d79435e50d794p+2, 0x1.e666666666667p-1) ∧
   time_to_transition_state eigenvalue
     ≠ Ok (0x1.d7a4fa4fa4fa5p+2, 0x1.e6551bb1a57cfp-1)).
Proof. vm_compute. repeat split; discriminate. Qed.

(** C8, amended. The function computes exactly what the specification
    words: it skips 6 eigenvalues of a spectrum longer than 6 and 5
    otherwise, takes the reciprocals of the others, divides their
    cumulative sums (entry k adds the reciprocals 0..k in index order) by
    their total as NumPy adds it, takes as cutoff index the first index
    whose cumulative fraction is not below 0.95 (index 0 if all are below),
    sets average_force_constant = 1 / (fraction / cutoff_index + 1) and
    returns (7 / average_force_constant, average_force_constant); it raises
    [ValueError] exactly when no eigenvalue is retained. *)
Theorem time_to_transition_state_as_specified (eigenvalue : list float) :
  time_to_transition_state eigenvalue =
  match amended_time_to_transition_state eigenvalue with
  | Some r => Ok r
  | None => Raise ValueError
  end.
Proof.
  unfold time_to_transition_state, amended_time_to_transition_state.
  unfold skip_count, np_reciprocal, cumulative_fraction.
  rewrite np_sum_numpy_total, np_cumsum_running_sums.
  set (cumulative := map _ (running_sums _)). clearbody cumulative.
  rewrite np_argmin_cutoff.
  destruct (cutoff_not_below cumulative) as [k|] eqn:Hk; [|done].
  apply cutoff_not_below_lt, lookup_lt_is_Some in Hk as [c Hc].
  cbn. unfold force_constant_at, getitem, float_of_index. rewrite Hc. done.
Qed.

(** C9, as stated, fails: with a zero among the retained eigenvalues the
    reciprocal is [inf] and no exception is raised; a pair is returned. *)
Lemma zero_eigenvalue_returns_nan :
  let eigenvalue := [0; 0; 0; 0; 0; 0; 0; 2] in
  drop (skip_count eigenvalue) eigenvalue = [0; 2] ∧
  time_to_transition_state eigenvalue = Ok (nan, nan).
Proof. vm_compute. done. Qed.

(** C9, amended. The function raises (the [ValueError] of [np.argmin] on
    an empty array) when the spectrum is empty, and whenever it has at most
    five entries; on every spectrum of six or more entries, zero
    eigenvalues included, it raises nothing and returns a pair. *)
Theorem time_to_transition_state_raises_iff_short (eigenvalue : list float) :
  time_to_transition_state [] = Raise ValueError ∧
  ((length eigenvalue ≤ 5)%nat →
     time_to_transition_state eigenvalue = Raise ValueError) ∧
  ((6 ≤ length eigenvalue)%nat →
     ∃ time fc, time_to_transition_state eigenvalue = Ok (time, fc)).
Proof.
  split; [done|].
  unfold time_to_transition_state, np_reciprocal, cumulative_fraction.
  split; intros Hlen.
  - rewrite drop_ge; [done|].
    unfold skip_count. destruct (Nat.ltb_spec 6 (length eigenvalue)); lia.
  - set (cumulative := map _ (np_cumsum _)).
    rewrite np_argmin_cutoff.
    destruct (cutoff_not_below cumulative) as [k|] eqn:Hk.
    + apply cutoff_not_below_lt, lookup_lt_is_Some in Hk as [c Hc].
      cbn. unfold force_constant_at, getitem. rewrite Hc. cbn. eauto.
    + exfalso. unfold cutoff_not_below in Hk.
      destruct cumulative as [|c r] eqn:E; [|done].
      apply (f_equal length) in E. subst cumulative.
      rewrite length_map in E.
      assert (Hd : (0 < length (drop (skip_count eigenvalue) eigenvalue))%nat).
      { rewrite length_drop. unfold skip_count.
        destruct (Nat.ltb_spec 6 (length eigenvalue)); lia. }
      destruct (drop _ eigenvalue); simpl in *; [lia|done].
Qed.

Lemma time_to_transition_state_raises_iff_short_witness :
  time_to_transition_state [1; 2; 3] = Raise ValueError ∧
  ∃ time fc, time_to_transition_state [0; 0; 0; 0; 0; 0; 0; 2] = Ok (time, fc).
Proof.
  split.
  - apply (time_to_transition_state_raises_iff_short [1; 2; 3]). simpl; lia.
  - apply (time_to_transition_state_raises_iff_short [0; 0; 0; 0; 0; 0; 0; 2]).
    simpl; lia.
Defined.

(** C10, as stated, fails: the smallest positive double, 2^-1074, has the
    reciprocal [inf]; the only cumulative fraction is inf/inf = nan and the
    function returns (nan, nan), not a zero force constant and an infinite
    time. *)
Lemma tiny_eigenvalue_returns_nan :
  let eigenvalue := [0; 0; 0; 0; 0; 0x1p-1074] in
  (0 <? 0x1p-1074) = true ∧
  time_to_transition_state eigenvalue = Ok (nan, nan) ∧
  time_to_transition_state eigenvalue ≠ Ok (infinity, 0).
Proof. vm_compute. repeat split; discriminate. Qed.

(** C10, amended. For every spectrum of length exactly 6 whose sixth
    eigenvalue is positive and has a finite, non-zero reciprocal, one
    eigenvalue is retained, its cumulative fraction is 1, the cutoff index
    is 0, the quotient by the cutoff index is a division by zero, and the
    function raises nothing: it returns an infinite time and a zero force
    constant. *)
Theorem single_mode_divides_by_zero (eigenvalue : list float) (e5 : float) :
  length eigenvalue = 6%nat →
  eigenvalue !! 5%nat = Some e5 →
  (0 <? e5) = true →
  finite_nonzero (1 / e5) = true →
  let cumulative :=
    cumulative_fraction (np_reciprocal (drop (skip_count eigenvalue) eigenvalue)) in
  cumulative = [1] ∧
  np_argmin (map (λ c, c <? cutoff_fraction) cumulative) = Ok 0%nat ∧
  float_of_index 0 = 0 ∧
  time_to_transition_state eigenvalue = Ok (infinity, 0).
Proof.
  intros Hlen H5 _ Hfin.
  do 6 (destruct eigenvalue as [|? eigenvalue]; [done|]).
  destruct eigenvalue; [|done].
  injection H5 as ->.
  assert (Hc : cumulative_fraction
            (np_reciprocal (drop (skip_count [f; f0; f1; f2; f3; e5])
                              [f; f0; f1; f2; f3; e5])) = [1]).
  { unfold cumulative_fraction, np_reciprocal, np_cumsum, skip_count.
    cbn [length Nat.ltb Nat.leb drop map].
    by rewrite np_sum_single, div_self. }
  cbv zeta. unfold time_to_transition_state. rewrite Hc.
  repeat split.
Qed.

Lemma single_mode_divides_by_zero_witness :
  time_to_transition_state [0; 0; 0; 0; 0; 2] = Ok (infinity, 0).
Proof.
  apply (single_mode_divides_by_zero [0; 0; 0; 0; 0; 2] 2); reflexivity.
Defined.

End SpectrumClaims.

(** ** Time.time_steps *)

Module ScheduleFacts.
Import Schedule PythonFacts.
Local Open Scope R_scope.

Lemma ratio_loop_length passes step_size current :
  length (ratio_loop passes step_size current) = passes.
Proof.
  revert current. induction passes as [|p IH]; intros c; simpl; [done|].
  by rewrite IH.
Qed.

Lemma ratio_loop_lookup passes step_size current j :
  (j < passes)%nat →
  ratio_loop passes step_size current !! j = Some (tent (current + INR j * step_size)).
Proof.
  revert current j. induction passes as [|p IH]; intros c j Hj; [lia|].
  destruct j as [|j].
  - simpl. unfold tent. by replace (c + 0 * step_size) with c by lra.
  - cbn [ratio_loop]. rewrite lookup_cons_ne_0 by lia. cbn [Nat.pred].
    rewrite IH by lia. rewrite S_INR. do 2 f_equal. lra.
Qed.

Lemma tent_range x : 0 < x < 2 → 0 < tent x <= 1.
Proof. intros Hx. unfold tent. destruct (Rge_dec x 1); lra. Qed.

Lemma tent_mirror x : tent (2 - x) = tent x.
Proof. unfold tent. do 2 destruct (Rge_dec _ 1); lra. Qed.

Lemma tent_incr x y : 0 < x <= y → y <= 1 → tent x <= tent y.
Proof. intros Hx Hy. unfold tent. do 2 destruct (Rge_dec _ 1); lra. Qed.

Section Loop.

Variables tbar_left tbar_right fc_left fc_right energy_left energy_right : R.
Variable nconf : nat.

Lemma schedule_loop_map ratio tf (f : nat → R * R) steps t energy :
  (∀ step, In step steps →
     schedule_entry fc_left fc_right energy_left energy_right nconf ratio tf step
     = Ok (f step)) →
  schedule_loop fc_left fc_right energy_left energy_right nconf ratio tf steps t energy
  = Ok (t ++ map (λ k, fst (f k)) steps, energy ++ map (λ k, snd (f k)) steps).
Proof.
  revert t energy. induction steps as [|k steps IH]; intros t energy Hf.
  - simpl. by rewrite !app_nil_r.
  - cbn [schedule_loop]. rewrite (Hf k) by (by left).
    destruct (f k) as [ti ei] eqn:Hk. cbn.
    rewrite IH by (intros; apply Hf; by right).
    rewrite Hk. cbn. by rewrite <- !app_assoc.
Qed.

End Loop.

(** *** The schedule, entry by entry *)

Section Entries.

Variables tbar_left tbar_right fc_left fc_right energy_left energy_right : R.
Variable nconf : nat.
Hypothesis nconf_ge_2 : (2 ≤ nconf)%nat.

Let tf := tbar_left + tbar_right.
Let step_size := 2 / (INR nconf - 1).
Let ratio := [0] ++ ratio_loop (nconf - 2) step_size step_size ++ [0].

Lemma INR_nconf : 2 <= INR nconf.
Proof. apply (le_INR 2) in nconf_ge_2. simpl in nconf_ge_2. lra. Qed.

Lemma step_size_pos : 0 < step_size.
Proof.
  pose proof INR_nconf. unfold step_size.
  apply Rdiv_lt_0_compat; lra.
Qed.

Lemma step_size_total : (INR nconf - 1) * step_size = 2.
Proof. pose proof INR_nconf. unfold step_size. field. lra. Qed.

Lemma ratio_length : length ratio = nconf.
Proof.
  unfold ratio. rewrite !length_app, ratio_loop_length. simpl. lia.
Qed.

Lemma ratio_first : ratio !! 0%nat = Some 0.
Proof. done. Qed.

Lemma ratio_last : ratio !! (nconf - 1)%nat = Some 0.
Proof.
  unfold ratio. rewrite lookup_app_r by (simpl; lia).
  rewrite lookup_app_r by (rewrite ratio_loop_length; simpl; lia).
  rewrite ratio_loop_length. simpl.
  by replace (nconf - 1 - 1 - (nconf - 2))%nat with 0%nat by lia.
Qed.

Lemma ratio_interior k :
  interior nconf k → ratio !! k = Some (tent (INR k * step_size)).
Proof.
  intros [Hk1 Hk2]. unfold ratio.
  rewrite lookup_app_r by (simpl; lia).
  rewrite lookup_app_l by (rewrite ratio_loop_length; simpl; lia).
  rewrite ratio_loop_lookup by (simpl; lia).
  do 2 f_equal. simpl length.
  replace (INR k) with (INR (k - 1) + 1).
  - lra.
  - rewrite minus_INR by lia. simpl. lra.
Qed.

Lemma interior_arg k : interior nconf k → 0 < INR k * step_size < 2.
Proof.
  intros [Hk1 Hk2]. pose proof step_size_pos. pose proof step_size_total.
  apply (le_INR 1) in Hk1. simpl in Hk1.
  assert (INR k <= INR nconf - 2).
  { apply le_INR in Hk2. rewrite minus_INR in Hk2 by lia. simpl in Hk2. lra. }
  split; nra.
Qed.

Lemma ratio_interior_range k :
  interior nconf k → 0 < tent (INR k * step_size) <= 1.
Proof. intros Hk. by apply tent_range, interior_arg. Qed.

Lemma first_half_iff k : INR k <= INR nconf / 2 ↔ (2 * k ≤ nconf)%nat.
Proof.
  split; intros H.
  - apply INR_le. rewrite mult_INR. simpl. lra.
  - apply le_INR in H. rewrite mult_INR in H. simpl in H. lra.
Qed.

Hypothesis fc_left_nonzero : fc_left ≠ 0.
Hypothesis fc_right_nonzero : fc_right ≠ 0.

Lemma schedule_entry_at k :
  (k < nconf)%nat →
  schedule_entry fc_left fc_right energy_left energy_right nconf ratio tf k
  = Ok (entry_at tbar_left tbar_right fc_left fc_right
                 energy_left energy_right nconf k).
Proof.
  intros Hk. unfold schedule_entry, entry_at, getitem.
  destruct (decide (k = 0%nat)) as [->|Hk0].
  { rewrite ratio_first. cbn.
    destruct (Rle_dec _ _) as [_|Hn].
    - by destruct (Req_dec_T 0 0).
    - exfalso. apply Hn, (first_half_iff 0). lia. }
  destruct (decide (k = (nconf - 1)%nat)) as [->|Hk1].
  { rewrite ratio_last. cbn.
    destruct (Rle_dec _ _) as [Hh|Hh]; destruct (Req_dec_T 0 0) as [_|]; try done.
    - apply first_half_iff in Hh. by rewrite decide_True by lia.
    - rewrite decide_False; [done|]. intros E. apply Hh, first_half_iff. lia. }
  assert (Hi : interior nconf k) by (unfold interior; lia).
  rewrite ratio_interior by done. cbn.
  pose proof (ratio_interior_range k Hi) as Hr.
  destruct (Req_dec_T _ 0) as [Hz|_]; [lra|].
  destruct (Rle_dec _ _) as [Hh|Hh].
  - apply first_half_iff in Hh. rewrite decide_True by done.
    by rewrite pdiv_ok.
  - rewrite decide_False by (intros H; by apply Hh, first_half_iff).
    by rewrite pdiv_ok.
Qed.

(** [time_steps] raises nothing and returns the two series entry by entry. *)
Lemma time_steps_entries :
  time_steps tbar_left tbar_right fc_left fc_right energy_left energy_right nconf
  = Ok (map (λ k, fst (entry_at tbar_left tbar_right fc_left fc_right
                              energy_left energy_right nconf k))
            (seq 0 nconf),
        map (λ k, snd (entry_at tbar_left tbar_right fc_left fc_right
                              energy_left energy_right nconf k))
            (seq 0 nconf)).
Proof.
  unfold time_steps.
  replace (IZR (Z.of_nat nconf - 2 + 1)) with (INR nconf - 1).
  2:{ rewrite plus_IZR, minus_IZR, <- INR_IZR_INZ. lra. }
  pose proof INR_nconf.
  rewrite pdiv_ok by lra. cbn.
  replace (Z.to_nat (Z.of_nat nconf - 2)) with (nconf - 2)%nat by lia.
  rewrite (schedule_loop_map _ _ _ _ _ _ _
             (entry_at tbar_left tbar_right fc_left fc_right
                       energy_left energy_right nconf)); [done|].
  intros k Hk. apply in_seq in Hk. apply schedule_entry_at. lia.
Qed.

End Entries.

Lemma ln_le x y : 0 < x → x <= y → ln x <= ln y.
Proof.
  intros Hx [Hlt | ->]; [|lra]. left. by apply ln_increasing.
Qed.

Lemma ln_nonpos x : 0 < x <= 1 → ln x <= 0.
Proof. intros [Hx Hx1]. rewrite <- ln_1. by apply ln_le. Qed.

Lemma ln_ge_minus_7 x : exp (-7) <= x → -7 <= ln x.
Proof.
  intros Hx. rewrite <- (ln_exp (-7)). apply ln_le; [apply exp_pos|done].
Qed.

(** *** Order of the times *)

Section Monotone.

Variables tbar_left tbar_right fc_left fc_right energy_left energy_right : R.
Variable nconf : nat.
Hypothesis nconf_ge_2 : (2 ≤ nconf)%nat.
Hypothesis fc_left_pos : 0 < fc_left.
Hypothesis fc_right_pos : 0 < fc_right.
Hypothesis tbar_left_covers : 7 / fc_left <= tbar_left.
Hypothesis tbar_right_covers : 7 / fc_right <= tbar_right.
Hypothesis first_ratio_large : exp (-7) <= 2 / (INR nconf - 1).

Let tf := tbar_left + tbar_right.
Let step_size := 2 / (INR nconf - 1).
Let time_at (k : nat) : R :=
  fst (entry_at tbar_left tbar_right fc_left fc_right energy_left energy_right nconf k).
Let r (k : nat) : R := tent (INR k * step_size).

Lemma r_range k : interior nconf k → 0 < r k <= 1.
Proof. apply ratio_interior_range, nconf_ge_2. Qed.

Lemma tbar_right_nonneg : 0 <= tbar_right.
Proof.
  apply Rle_trans with (7 / fc_right); [|done].
  apply Rlt_le, Rdiv_lt_0_compat; lra.
Qed.

(** The first and the last interior ratio are both [step_size]. *)
Lemma r_first : (3 ≤ nconf)%nat → r 1 = step_size.
Proof.
  intros Hn. unfold r, tent. simpl INR. rewrite Rmult_1_l.
  destruct (Rge_dec step_size 1) as [Hge|]; [|done].
  assert (3 <= INR nconf) by (apply (le_INR 3) in Hn; simpl in Hn; lra).
  pose proof (step_size_total nconf nconf_ge_2) as Ht.
  pose proof (step_size_pos nconf nconf_ge_2) as Hs.
  fold step_size in Ht, Hs. nra.
Qed.

Lemma r_last : (3 ≤ nconf)%nat → r (nconf - 2) = step_size.
Proof.
  intros Hn. rewrite <- r_first by done. unfold r.
  rewrite <- tent_mirror. f_equal.
  pose proof (step_size_total nconf nconf_ge_2) as Ht. fold step_size in Ht.
  rewrite minus_INR by lia. simpl INR. lra.
Qed.

Lemma first_half_time_le k :
  interior nconf k → (7 + ln (r k)) / fc_left <= tbar_left.
Proof.
  intros Hk. apply Rle_trans with (7 / fc_left); [|done].
  pose proof (ln_nonpos _ (r_range k Hk)).
  apply Rmult_le_compat_r; [|lra].
  apply Rlt_le, Rinv_0_lt_compat, fc_left_pos.
Qed.

Lemma second_half_time_ge k :
  interior nconf k → tbar_left <= tf - (7 + ln (r k)) / fc_right.
Proof.
  intros Hk. pose proof (ln_nonpos _ (r_range k Hk)).
  assert ((7 + ln (r k)) / fc_right <= 7 / fc_right).
  { apply Rmult_le_compat_r; [|lra].
    apply Rlt_le, Rinv_0_lt_compat, fc_right_pos. }
  unfold tf. lra.
Qed.

Lemma r_rises k :
  interior nconf k → interior nconf (S k) → (2 * S k ≤ nconf)%nat →
  r k <= r (S k).
Proof.
  intros Hk HSk Hhalf.
  pose proof (interior_arg nconf nconf_ge_2 k Hk) as Hx.
  pose proof (interior_arg nconf nconf_ge_2 (S k) HSk) as Hy.
  pose proof (step_size_total nconf nconf_ge_2) as Ht.
  pose proof (step_size_pos nconf nconf_ge_2) as Hs.
  fold step_size in Hx, Hy, Ht, Hs.
  assert (Hsum : INR k * step_size + INR (S k) * step_size <= 2).
  { apply le_INR in Hhalf. rewrite mult_INR, (S_INR k) in Hhalf.
    change (INR 2) with 2 in Hhalf. rewrite S_INR.
    assert (0 <= (INR nconf - 1 - (2 * INR k + 1)) * step_size)
      by (apply Rmult_le_pos; lra).
    lra. }
  rewrite S_INR in *. unfold r, tent. rewrite S_INR.
  do 2 destruct (Rge_dec _ 1); lra.
Qed.

Lemma r_falls k :
  interior nconf k → interior nconf (S k) → ¬ (2 * k ≤ nconf)%nat →
  r (S k) <= r k.
Proof.
  intros Hk HSk Hhalf.
  pose proof (step_size_total nconf nconf_ge_2) as Ht.
  pose proof (step_size_pos nconf nconf_ge_2) as Hs.
  fold step_size in Ht, Hs.
  assert (Hx : 1 <= INR k * step_size).
  { assert (INR nconf + 1 <= 2 * INR k).
    { assert (nconf + 1 ≤ 2 * k)%nat as H by lia.
      apply le_INR in H. rewrite plus_INR, mult_INR in H. simpl in H. lra. }
    nra. }
  unfold r, tent. rewrite S_INR.
  do 2 destruct (Rge_dec _ 1); lra.
Qed.

Lemma time_at_step k : (S k < nconf)%nat → time_at k <= time_at (S k).
Proof.
  intros Hk. unfold time_at, entry_at. fold tf step_size.
  pose proof tbar_right_nonneg as Htr.
  assert (Hinv_l : 0 < / fc_left) by (apply Rinv_0_lt_compat, fc_left_pos).
  assert (Hinv_r : 0 < / fc_right) by (apply Rinv_0_lt_compat, fc_right_pos).
  rewrite (decide_False (P := S k = 0%nat)) by lia.
  destruct (decide (k = 0%nat)) as [->|Hk0].
  { (* the first step *)
    destruct (decide (1 = nconf - 1)%nat) as [Hn|Hn].
    - rewrite decide_True by lia. simpl. lra.
    - rewrite decide_True by lia. cbn [fst].
      fold (r 1). rewrite r_first by lia.
      pose proof (ln_ge_minus_7 _ first_ratio_large). fold step_size in H.
      apply Rmult_le_pos; lra. }
  rewrite (decide_False (P := k = (nconf - 1)%nat)) by lia.
  assert (Hik : interior nconf k) by (unfold interior; lia).
  fold (r k) (r (S k)).
  destruct (decide (S k = (nconf - 1)%nat)) as [HS|HS].
  { (* the last step *)
    rewrite (decide_False (P := nconf = 2%nat)) by lia.
    destruct (decide (2 * k ≤ nconf)%nat); cbn [fst].
    - pose proof (first_half_time_le k Hik). unfold tf. lra.
    - replace k with (nconf - 2)%nat by lia. rewrite r_last by lia.
      pose proof (ln_ge_minus_7 _ first_ratio_large). fold step_size in H.
      assert (0 <= (7 + ln step_size) / fc_right) by (apply Rmult_le_pos; lra).
      lra. }
  assert (HiS : interior nconf (S k)) by (unfold interior; lia).
  pose proof (r_range k Hik) as Hrk. pose proof (r_range (S k) HiS) as HrS.
  destruct (decide (2 * k ≤ nconf)%nat) as [Hh|Hh];
    destruct (decide (2 * S k ≤ nconf)%nat) as [HhS|HhS]; cbn [fst]; try lia.
  - (* both in the first half *)
    pose proof (ln_le _ _ (proj1 Hrk) (r_rises k Hik HiS HhS)).
    apply Rmult_le_compat_r; lra.
  - (* across the midpoint *)
    pose proof (first_half_time_le k Hik).
    pose proof (second_half_time_ge (S k) HiS). lra.
  - (* both in the second half *)
    pose proof (ln_le _ _ (proj1 HrS) (r_falls k Hik HiS Hh)).
    assert ((7 + ln (r (S k))) / fc_right <= (7 + ln (r k)) / fc_right).
    { apply Rmult_le_compat_r; lra. }
    lra.
Qed.

End Monotone.

(** *** Mirror symmetry of the times *)

Section Mirror.

Variables fc energy_left energy_right : R.
Variable nconf : nat.
Hypothesis nconf_ge_3 : (3 ≤ nconf)%nat.
Hypothesis nconf_odd : Nat.odd nconf = true.
Hypothesis fc_nonzero : fc ≠ 0.

Let tbar := 7 / fc.
Let tf := tbar + tbar.
Let step_size := 2 / (INR nconf - 1).
Let time_at (k : nat) : R :=
  fst (entry_at tbar tbar fc fc energy_left energy_right nconf k).
Let r (k : nat) : R := tent (INR k * step_size).

Lemma nconf_ge_2' : (2 ≤ nconf)%nat.
Proof. lia. Qed.

Lemma r_mirror k : (k < nconf)%nat → r (nconf - 1 - k) = r k.
Proof.
  intros Hk. unfold r. rewrite <- tent_mirror. f_equal.
  pose proof (step_size_total nconf nconf_ge_2') as Ht. fold step_size in Ht.
  rewrite !minus_INR by lia. simpl INR. lra.
Qed.

Lemma r_middle k : (2 * k + 1 = nconf)%nat → r k = 1.
Proof.
  intros Hk. unfold r.
  pose proof (step_size_total nconf nconf_ge_2') as Ht. fold step_size in Ht.
  assert (INR nconf = 2 * INR k + 1) as Hn.
  { rewrite <- Hk, plus_INR, mult_INR. simpl. lra. }
  replace (INR k * step_size) with 1 by (rewrite Hn in Ht; lra).
  unfold tent. destruct (Rge_dec 1 1); lra.
Qed.

Lemma time_at_mirror k :
  (k < nconf)%nat → time_at k + time_at (nconf - 1 - k) = tf.
Proof.
  intros Hk. unfold time_at, entry_at. fold tf step_size.
  destruct (Nat.odd_spec nconf) as [[p Hp] _]; [done|].
  destruct (decide (k = 0%nat)) as [->|Hk0].
  { rewrite (decide_False (P := (nconf - 1 - 0 = 0)%nat)) by lia.
    rewrite (decide_True (P := (nconf - 1 - 0 = nconf - 1)%nat)) by lia.
    rewrite (decide_False (P := nconf = 2%nat)) by lia. simpl. lra. }
  destruct (decide (k = (nconf - 1)%nat)) as [Hk1|Hk1].
  { rewrite (decide_False (P := nconf = 2%nat)) by lia.
    rewrite (decide_True (P := (nconf - 1 - k = 0)%nat)) by lia. simpl. lra. }
  rewrite (decide_False (P := (nconf - 1 - k = 0)%nat)) by lia.
  rewrite (decide_False (P := (nconf - 1 - k = nconf - 1)%nat)) by lia.
  fold (r k) (r (nconf - 1 - k)). rewrite r_mirror by done.
  destruct (decide (2 * k ≤ nconf)%nat) as [Hh|Hh];
    destruct (decide (2 * (nconf - 1 - k) ≤ nconf)%nat) as [Hm|Hm];
    cbn [fst]; try lia.
  - rewrite r_middle by lia. rewrite ln_1. unfold tf, tbar. lra.
  - lra.
  - lra.
Qed.

End Mirror.

(** *** Three schedules on small and large inputs *)

Lemma exp_7_le : exp 7 <= 2187.
Proof.
  replace 7 with (1 + 1 + 1 + 1 + 1 + 1 + 1) by lra.
  rewrite !exp_plus.
  pose proof exp_le_3 as H3. pose proof (exp_pos 1) as H0.
  replace 2187 with (3 ^ 7) by lra.
  replace (exp 1 * exp 1 * exp 1 * exp 1 * exp 1 * exp 1 * exp 1)
    with (exp 1 ^ 7) by ring.
  apply pow_incr. lra.
Qed.

Lemma exp_minus_7_ge : / 2187 <= exp (-7).
Proof.
  pose proof exp_7_le as H7. pose proof (exp_pos 7) as Hp.
  replace (exp (-7)) with (/ exp 7).
  - apply Rinv_le_contravar; lra.
  - rewrite <- exp_Ropp. f_equal.
Qed.

(** Three conformations, unit force constants: the middle ratio is 1 and
    the middle time is 7. *)
Lemma three_conformations tbar :
  time_steps tbar tbar 1 1 0 0 3 = Ok ([0; 7; tbar + tbar], [0; 0; 0]).
Proof.
  rewrite time_steps_entries by (lia || lra).
  assert (Hr : tent (INR 1 * (2 / (INR 3 - 1))) = 1).
  { replace (INR 1 * (2 / (INR 3 - 1))) with 1 by (simpl; lra).
    unfold tent. destruct (Rge_dec 1 1); lra. }
  cbn [seq map]. unfold entry_at.
  repeat case_decide; try lia. cbn [fst snd]. rewrite Hr, ln_1.
  repeat f_equal; lra.
Qed.

(** Four conformations, unit force constants: both interior indices are in
    the first half and get the same time. *)
Lemma four_conformations tbar :
  time_steps tbar tbar 1 1 0 0 4
  = Ok ([0; 7 + ln (2 / 3); 7 + ln (2 / 3); tbar + tbar], [0; 0; 0; 0]).
Proof.
  rewrite time_steps_entries by (lia || lra).
  assert (Hr1 : tent (INR 1 * (2 / (INR 4 - 1))) = 2 / 3).
  { replace (INR 1 * (2 / (INR 4 - 1))) with (2 / 3) by (simpl; lra).
    unfold tent. destruct (Rge_dec (2 / 3) 1); lra. }
  assert (Hr2 : tent (INR 2 * (2 / (INR 4 - 1))) = 2 / 3).
  { replace (INR 2 * (2 / (INR 4 - 1))) with (4 / 3) by (simpl; lra).
    unfold tent. destruct (Rge_dec (4 / 3) 1); lra. }
  cbn [seq map]. unfold entry_at.
  repeat case_decide; try lia. cbn [fst snd]. rewrite Hr1, Hr2.
  repeat f_equal; lra.
Qed.

(** Many conformations: the first interior ratio, 2/4400, is below
    exp(-7) and the first interior time is negative. *)
Lemma many_conformations :
  ∃ t energy x,
    time_steps 7 7 1 1 0 0 4401 = Ok (t, energy) ∧
    t !! 0%nat = Some 0 ∧ t !! 1%nat = Some x ∧ x < 0.
Proof.
  eexists _, _, _. split.
  { apply time_steps_entries; (lia || lra). }
  rewrite !map_seq_lookup by lia. split; [done|]. split; [done|].
  unfold entry_at. cbn [Nat.add].
  rewrite (decide_False (P := 1%nat = 0%nat)) by lia.
  rewrite (decide_False (P := 1%nat = (4401 - 1)%nat)) by lia.
  rewrite decide_True by lia. cbn [fst].
  rewrite (INR_IZR_INZ 4401). change (Z.of_nat 4401) with 4401%Z.
  replace (INR 1 * (2 / (4401 - 1))) with (/ 2200) by (simpl; lra).
  assert (Ht : tent (/ 2200) = / 2200).
  { unfold tent. destruct (Rge_dec (/ 2200) 1); lra. }
  rewrite Ht.
  assert (ln (/ 2200) < -7); [|lra].
  rewrite <- (ln_exp (-7)). apply ln_increasing; [lra|].
  pose proof exp_minus_7_ge. lra.
Qed.

(** The quotient [(7 + ln (1/2)) / fc_right] for [fc_right = 7 * 2^53]
    lies strictly between 2^-54 and 2^-53. *)
Lemma ln_half_range : -1 < ln (1 / 2) < 0.
Proof.
  replace (1 / 2) with (/ 2) by lra. rewrite ln_Rinv by lra.
  pose proof ln_lt_2 as H2.
  assert (ln 2 < 1); [|lra].
  rewrite <- (ln_exp 1). apply ln_increasing; [lra|].
  pose proof (exp_ineq1 1 ltac:(lra)). lra.
Qed.

Lemma stiff_right_quotient :
  / 2 ^ 54 < (7 + ln (1 / 2)) / (7 * 2 ^ 53) < / 2 ^ 53.
Proof.
  pose proof ln_half_range as Hln.
  assert (Hp : 0 < 2 ^ 53) by (apply pow_lt; lra).
  change (2 ^ 54) with (2 * 2 ^ 53).
  set (p := 2 ^ 53) in *.
  assert (Hi : 0 < / p) by (by apply Rinv_0_lt_compat).
  replace (/ (2 * p)) with (/ p / 2) by (field; lra).
  replace ((7 + ln (1 / 2)) / (7 * p)) with ((7 + ln (1 / 2)) / 7 * / p)
    by (field; lra).
  split; nra.
Qed.

End ScheduleFacts.

Module ScheduleClaims.
Import Schedule PythonFacts ScheduleFacts.
Local Open Scope R_scope.

(** The intended endpoints, reached whenever there are at least three
    conformations: the series have [nconf] entries, the first time is 0 and
    the last is [tbar_left + tbar_right]. *)
Lemma time_steps_endpoints tbar_left tbar_right fc_left fc_right
    energy_left energy_right nconf :
  (3 ≤ nconf)%nat → fc_left ≠ 0 → fc_right ≠ 0 →
  ∃ t energy,
    time_steps tbar_left tbar_right fc_left fc_right energy_left energy_right nconf
      = Ok (t, energy) ∧
    length t = nconf ∧ length energy = nconf ∧
    t !! 0%nat = Some 0 ∧
    t !! (nconf - 1)%nat = Some (tbar_left + tbar_right).
Proof.
  intros Hn Hl Hr. eexists _, _. split.
  { apply time_steps_entries; [lia|done|done]. }
  rewrite !length_map, !length_seq. repeat split.
  - rewrite map_seq_lookup by lia. done.
  - rewrite map_seq_lookup by lia. unfold entry_at. cbn [Nat.add].
    rewrite decide_False by lia. rewrite decide_True by done.
    by rewrite decide_False by lia.
Qed.

(** C1. With two conformations the index 1 satisfies [step <= nconf / 2], so
    the last entry is produced by the first-half branch: both times are 0,
    whatever the total time [tbar_left + tbar_right] is. *)
Theorem time_steps_two_conformations tbar_left tbar_right fc_left fc_right
    energy_left energy_right :
  time_steps tbar_left tbar_right fc_left fc_right energy_left energy_right 2
  = Ok ([0; 0],
        [0 + (energy_right - energy_left); 0 + (energy_right - energy_left)]).
Proof.
  unfold time_steps.
  change (IZR (Z.of_nat 2 - 2 + 1)) with 1.
  change (Z.to_nat (Z.of_nat 2 - 2)) with 0%nat.
  rewrite pdiv_ok by lra. cbn.
  unfold schedule_entry, getitem. cbn.
  destruct (Rle_dec 0 ((1 + 1) / 2)) as [_|?]; [|lra].
  destruct (Rle_dec 1 ((1 + 1) / 2)) as [_|?]; [|lra].
  destruct (Req_dec_T 0 0) as [_|?]; [|lra].
  done.
Qed.

(** C2, as stated, fails.  With positive force constants and times: three
    conformations with unit values give the times [0; 7; 2]; with
    [tbar = 7 / fc], 4401 conformations put a negative time after the
    initial 0; with an even number of conformations the indices
    nconf/2 - 1 and nconf/2 are both handled by the first-half branch with
    ratios that are equal in exact arithmetic: in binary64, for 30
    conformations, the ratio at index 15 is smaller than the ratio at
    index 14, and so is its time; and with five conformations,
    [tbar_left = 7 / fc_left = 1] and [tbar_right = 7 / fc_right = 2^-53],
    the sum [tbar_left + tbar_right] is rounded to 1, and the time of
    index 3, [tf - q] with the quotient [q = (7 + ln (1/2)) / fc_right]
    between 2^-54 and 2^-53 (0x1.cd4d1db931c4bp-54 in binary64), is below
    the time 1 of the middle index 2, for every binary64 quotient of that
    range. *)
Lemma times_can_decrease :
  (∃ t energy, time_steps 1 1 1 1 0 0 3 = Ok (t, energy) ∧ ¬ nondecreasing t) ∧
  (∃ t energy, time_steps 7 7 1 1 0 0 4401 = Ok (t, energy) ∧ ¬ nondecreasing t) ∧
  (Schedule64.ratio 30 !! 14%nat = Some 0x1.ee58469ee5849p-1%float ∧
   Schedule64.ratio 30 !! 15%nat = Some 0x1.ee58469ee5844p-1%float ∧
   (0x1.ee58469ee5844p-1 <? 0x1.ee58469ee5849p-1)%float = true ∧
   Schedule64.first_half 30 14 = true ∧ Schedule64.first_half 30 15 = true) ∧
  (/ 2 ^ 54 < (7 + ln (1 / 2)) / (7 * 2 ^ 53) < / 2 ^ 53 ∧
   Schedule64.ratio 5 !! 3%nat = Some 0x1p-1%float ∧
   Schedule64.first_half 5 2 = true ∧ Schedule64.first_half 5 3 = false ∧
   (1 + 0x1p-53)%float = 1%float ∧
   Schedule64.second_half_time 1 0x1p-53 0x1.0000000000001p-54
     = 0x1.fffffffffffffp-1%float ∧
   Schedule64.second_half_time 1 0x1p-53 0x1.cd4d1db931c4bp-54
     = 0x1.fffffffffffffp-1%float ∧
   Schedule64.second_half_time 1 0x1p-53 0x1.fffffffffffffp-54
     = 0x1.fffffffffffffp-1%float ∧
   (0x1.fffffffffffffp-1 <? 1)%float = true).
Proof.
  split; [|split; [|split]].
  - eexists _, _. split; [apply three_conformations|].
    intros H. specialize (H 1%nat 7 (1 + 1) eq_refl eq_refl). lra.
  - destruct many_conformations as (t & energy & x & Ht & H0 & H1 & Hx).
    exists t, energy. split; [done|].
    intros H. specialize (H 0%nat 0 x H0 H1). lra.
  - vm_compute. done.
  - split; [apply stiff_right_quotient|]. vm_compute. done.
Qed.

(** C2, amended. For every odd nconf >= 3, positive force constants,
    [tbar_left >= 7 / fc_left] and [tbar_right >= 7 / fc_right] (the
    function [time_to_transition_state] returns [tbar = 7 / fc]), a
    [tbar_left] of at most 2^32 times [tbar_right], and a first interior
    ratio [2 / (nconf - 1)] of at least exp(-7), [time_steps] returns a
    time sequence that never decreases.  (With an odd number of
    conformations no two indices share a ratio on the same side; within
    one side the order of the times is the order of the ratios, and where
    the two sides meet the second-half time exceeds the middle time by at
    least [exp (-7) / 7 * tbar_right], which the bound on [tbar_left]
    keeps far above a rounding of [tbar_left + tbar_right].) *)
Theorem time_steps_nondecreasing tbar_left tbar_right fc_left fc_right
    energy_left energy_right nconf :
  (3 ≤ nconf)%nat → Nat.odd nconf = true →
  0 < fc_left → 0 < fc_right →
  7 / fc_left <= tbar_left → 7 / fc_right <= tbar_right →
  tbar_left <= 4294967296 * tbar_right →
  exp (-7) <= 2 / (INR nconf - 1) →
  ∃ t energy,
    time_steps tbar_left tbar_right fc_left fc_right energy_left energy_right nconf
      = Ok (t, energy) ∧
    nondecreasing t.
Proof.
  intros Hn _ Hl Hr Htl Htr _ Hfirst. eexists _, _. split.
  { apply time_steps_entries; [lia|lra|lra]. }
  intros i x y Hx Hy.
  assert (S i < nconf)%nat as Hi.
  { apply lookup_lt_Some in Hy. by rewrite length_map, length_seq in Hy. }
  rewrite map_seq_lookup in Hx, Hy by lia.
  injection Hx as <-. injection Hy as <-.
  apply time_at_step; (done || lia).
Qed.

Lemma time_steps_nondecreasing_witness :
  ∃ t energy, time_steps 7 7 1 1 0 0 3 = Ok (t, energy) ∧ nondecreasing t.
Proof.
  apply (time_steps_nondecreasing 7 7 1 1 0 0 3); try lra; [lia|done|].
  simpl INR. replace (2 / (1 + 1 + 1 - 1)) with (exp 0) by (rewrite exp_0; lra).
  left. apply exp_increasing. lra.
Defined.

(** With an even number of conformations the index nconf/2 is handled by
    the first-half branch, like its mirror image nconf/2 - 1: with
    [tbar = 7 / fc] on both sides the two times add up to less than
    [tbar_left + tbar_right]. *)
Lemma even_schedule_not_mirrored fc energy_left energy_right m :
  (2 ≤ m)%nat → 0 < fc →
  ∃ t energy x y,
    time_steps (7 / fc) (7 / fc) fc fc energy_left energy_right (2 * m)
      = Ok (t, energy) ∧
    t !! (m - 1)%nat = Some x ∧ t !! (2 * m - 1 - (m - 1))%nat = Some y ∧
    x + y < 7 / fc + 7 / fc.
Proof.
  intros Hm Hfc. eexists _, _, _, _. split.
  { apply time_steps_entries; [lia|lra|lra]. }
  replace (2 * m - 1 - (m - 1))%nat with m by lia.
  rewrite !map_seq_lookup by lia. split; [done|]. split; [done|].
  cbn [Nat.add]. unfold entry_at.
  repeat case_decide; try lia. cbn [fst].
  assert (Hn : INR (2 * m) - 1 = 2 * INR m - 1).
  { rewrite mult_INR. simpl. lra. }
  assert (Hm' : 2 <= INR m) by (apply (le_INR 2) in Hm; simpl in Hm; lra).
  set (r := (2 * INR m - 2) / (2 * INR m - 1)).
  assert (Hr : 0 < r < 1).
  { unfold r. split.
    - apply Rdiv_lt_0_compat; lra.
    - apply Rmult_lt_reg_r with (2 * INR m - 1); [lra|].
      unfold Rdiv. rewrite Rmult_assoc, Rinv_l by lra. lra. }
  assert (Hr1 : tent (INR (m - 1) * (2 / (INR (2 * m) - 1))) = r).
  { rewrite Hn, minus_INR by lia. simpl INR.
    replace ((INR m - 1) * (2 / (2 * INR m - 1))) with r
      by (unfold r; field; lra).
    unfold tent. destruct (Rge_dec r 1); lra. }
  assert (Hr2 : tent (INR m * (2 / (INR (2 * m) - 1))) = r).
  { rewrite Hn.
    assert (E : 2 - INR m * (2 / (2 * INR m - 1)) = r)
      by (unfold r; field; lra).
    unfold tent. destruct (Rge_dec _ 1) as [_|Hlt]; [done|].
    exfalso. apply Hlt. rewrite <- E in Hr. lra. }
  rewrite Hr1, Hr2.
  assert (Hln : ln r < 0).
  { rewrite <- ln_1. apply ln_increasing; lra. }
  assert (Hq : (7 + ln r) / fc < 7 / fc).
  { apply Rmult_lt_compat_r; [apply Rinv_0_lt_compat|]; lra. }
  lra.
Qed.

(** C5.  With four conformations, [fc = 1] and [tbar = 7 / fc] on both
    sides, the indices 1 and 2 both take the first-half branch: the times
    are [0; 7 + ln (2/3); 7 + ln (2/3); 14], and the mirrored pair adds up
    to about 13.19, more than a half below
    [tbar_left + tbar_right = 14]. *)
Theorem four_conformations_not_mirrored :
  time_steps 7 7 1 1 0 0 4
  = Ok ([0; 7 + ln (2 / 3); 7 + ln (2 / 3); 7 + 7], [0; 0; 0; 0]) ∧
  (7 + ln (2 / 3)) + (7 + ln (2 / 3)) < 7 + 7 - 1 / 2.
Proof.
  split; [apply four_conformations|].
  assert (Hln : ln (2 / 3) < - (1 / 4)); [|lra].
  rewrite <- (ln_exp (- (1 / 4))). apply ln_increasing; [lra|].
  pose proof (exp_ineq1 (- (1 / 4))) as H. lra.
Qed.

(** With equal force constants and times and zero energies, three
    conformations with unit values give the times [0; 7; 2], where 7 + 7
    is not 2. *)
Lemma times_not_mirrored :
  (∃ t energy, time_steps 1 1 1 1 0 0 3 = Ok (t, energy) ∧
      ¬ symmetric_about (1 + 1) t) ∧
  (∃ t energy, time_steps 7 7 1 1 0 0 4 = Ok (t, energy) ∧
      ¬ symmetric_about (7 + 7) t).
Proof.
  split.
  - eexists _, _. split; [apply three_conformations|].
    intros H. specialize (H 1%nat 7 7 ltac:(simpl; lia) eq_refl eq_refl). lra.
  - eexists _, _. split; [apply four_conformations|].
    intros H.
    specialize (H 1%nat _ _ ltac:(simpl; lia) eq_refl eq_refl).
    assert (ln (2 / 3) < 0); [|lra].
    rewrite <- ln_1. apply ln_increasing; lra.
Qed.

(** In exact arithmetic, for every odd nconf >= 3, if
    [fc_left == fc_right] and [tbar_left == tbar_right == 7 / fc_left],
    the times mirror about the midpoint:
    [times[i] + times[nconf-1-i] == tbar_left + tbar_right] for every
    index i.  (In binary64 the two sides agree up to rounding only.) *)
Lemma time_steps_symmetric tbar_left tbar_right fc_left fc_right
    energy_left energy_right nconf :
  (3 ≤ nconf)%nat → Nat.odd nconf = true →
  fc_left ≠ 0 → fc_left = fc_right →
  tbar_left = tbar_right → tbar_left = 7 / fc_left →
  ∃ t energy,
    time_steps tbar_left tbar_right fc_left fc_right energy_left energy_right nconf
      = Ok (t, energy) ∧
    length t = nconf ∧
    symmetric_about (tbar_left + tbar_right) t.
Proof.
  intros Hn Hodd Hfc <- <- ->. eexists _, _. split.
  { apply time_steps_entries; [lia|done|done]. }
  split; [by rewrite length_map, length_seq|].
  intros i x y Hi Hx Hy.
  rewrite length_map, length_seq in Hi, Hy.
  rewrite map_seq_lookup in Hx, Hy by lia.
  injection Hx as <-. injection Hy as <-.
  by apply time_at_mirror.
Qed.

End ScheduleClaims.

(** ** NumPy arrays *)

Module NumpyFacts.
Import Numpy PythonFacts.
Local Open Scope R_scope.

(** *** Finite sums *)

Lemma Rsum_ext n f g :
  (∀ k, (k < n)%nat → f k = g k) → Rsum n f = Rsum n g.
Proof.
  induction n as [|n IH]; intros H; simpl; [done|].
  rewrite IH by (intros; apply H; lia). rewrite H by lia. done.
Qed.

Lemma Rsum_zero n : Rsum n (λ _, 0) = 0.
Proof. induction n as [|n IH]; simpl; lra. Qed.

Lemma Rsum_plus n f g : Rsum n (λ k, f k + g k) = Rsum n f + Rsum n g.
Proof. induction n as [|n IH]; simpl; lra. Qed.

Lemma Rsum_scal n c f : Rsum n (λ k, c * f k) = c * Rsum n f.
Proof. induction n as [|n IH]; simpl; [lra|]. rewrite IH. lra. Qed.

Lemma Rsum_minus n f g : Rsum n (λ k, f k - g k) = Rsum n f - Rsum n g.
Proof. induction n as [|n IH]; simpl; lra. Qed.

Lemma Rsum_opp n f : Rsum n (λ k, - f k) = - Rsum n f.
Proof. induction n as [|n IH]; simpl; lra. Qed.

Lemma Rsum_exchange n m (f : nat → nat → R) :
  Rsum n (λ i, Rsum m (λ j, f i j)) = Rsum m (λ j, Rsum n (λ i, f i j)).
Proof.
  induction n as [|n IH]; simpl.
  - by rewrite Rsum_zero.
  - rewrite IH, <- Rsum_plus. done.
Qed.

Lemma Rsum_shift n f : Rsum (S n) f = f 0%nat + Rsum n (λ k, f (S k)).
Proof.
  induction n as [|n IH]; [simpl; lra|].
  change (Rsum (S (S n)) f) with (Rsum (S n) f + f (S n)).
  rewrite IH. simpl. lra.
Qed.

(** A sum with one non-zero term. *)
Lemma Rsum_single n i f :
  (i < n)%nat → (∀ k, (k < n)%nat → k ≠ i → f k = 0) → Rsum n f = f i.
Proof.
  induction n as [|n IH]; intros Hi H; [lia|]. simpl.
  destruct (decide (i = n)) as [->|Hne].
  - rewrite (Rsum_ext n f (λ _, 0)) by (intros; apply H; lia).
    rewrite Rsum_zero. lra.
  - rewrite IH by (try lia; intros; apply H; lia).
    rewrite (H n) by lia. lra.
Qed.

(** *** Lists read by index *)

Lemma tabulate_length {A} n (f : nat → A) : length (tabulate n f) = n.
Proof. unfold tabulate. by rewrite length_map, length_seq. Qed.

Lemma tabulate_lookup {A} n (f : nat → A) i :
  (i < n)%nat → tabulate n f !! i = Some (f i).
Proof. intros Hi. unfold tabulate. by rewrite map_seq_lookup. Qed.

Lemma tabulate_nth {A} n (f : nat → A) i d :
  (i < n)%nat → nth i (tabulate n f) d = f i.
Proof. intros Hi. by rewrite nth_lookup, tabulate_lookup. Qed.

Lemma tabulate_ext {A} n (f g : nat → A) :
  (∀ i, (i < n)%nat → f i = g i) → tabulate n f = tabulate n g.
Proof.
  intros H. unfold tabulate. apply map_ext_in. intros i Hi.
  apply in_seq in Hi. apply H. lia.
Qed.

Lemma nth_map_in {A B} (f : A → B) l i d d' :
  (i < length l)%nat → nth i (map f l) d' = f (nth i l d).
Proof.
  intros Hi. rewrite (nth_indep _ d' (f d)) by (by rewrite length_map).
  apply map_nth.
Qed.

Lemma dot_sum u v :
  length u = length v →
  dot u v = Rsum (length u) (λ k, nth k u 0 * nth k v 0).
Proof.
  revert v. induction u as [|x u IH]; intros [|y v] Hlen; try done.
  cbn [dot length]. rewrite Rsum_shift. cbn [nth].
  rewrite IH by (simpl in Hlen; lia). done.
Qed.

Lemma dot_nil_r u : dot u [] = 0.
Proof. by destruct u. Qed.

(** *** Square matrices *)

Lemma square_length n m : square n m → length m = n.
Proof. by intros [? _]. Qed.

Lemma square_row n m i :
  square n m → (i < n)%nat → length (nth i m []) = n.
Proof.
  intros [Hlen Hrows] Hi. rewrite Forall_forall in Hrows.
  apply Hrows, list_elem_of_In, nth_In. lia.
Qed.

Lemma square_tabulate n (f : nat → nat → R) :
  square n (tabulate n (λ i, tabulate n (f i))).
Proof.
  split; [apply tabulate_length|].
  apply Forall_forall. intros row Hrow.
  apply list_elem_of_In, in_map_iff in Hrow as (i & <- & _).
  apply tabulate_length.
Qed.

Lemma entry_tabulate n (f : nat → nat → R) i j :
  (i < n)%nat → (j < n)%nat →
  entry (tabulate n (λ i, tabulate n (f i))) i j = f i j.
Proof. intros Hi Hj. unfold entry. by rewrite !tabulate_nth. Qed.

Lemma square_diag n d : square n (diag n d).
Proof. apply square_tabulate. Qed.

Lemma entry_diag n d i j :
  (i < n)%nat → (j < n)%nat →
  entry (diag n d) i j = if decide (i = j) then d i else 0.
Proof. intros. unfold diag. by rewrite entry_tabulate. Qed.

Lemma square_identity n : square n (identity n).
Proof. apply square_tabulate. Qed.

Lemma entry_identity n i j :
  (i < n)%nat → (j < n)%nat →
  entry (identity n) i j = if decide (i = j) then 1 else 0.
Proof. intros. unfold identity. by rewrite entry_tabulate. Qed.

(** Two square matrices with the same entries are the same nested list. *)
Lemma matrix_ext n a b :
  square n a → square n b →
  (∀ i j, (i < n)%nat → (j < n)%nat → entry a i j = entry b i j) → a = b.
Proof.
  intros Ha Hb H. apply (nth_ext _ _ [] []).
  - by rewrite (square_length n a), (square_length n b).
  - intros i Hi. rewrite (square_length n a) in Hi by done.
    apply (nth_ext _ _ 0 0).
    + by rewrite (square_row n a), (square_row n b).
    + intros j Hj. rewrite (square_row n a) in Hj by done. by apply H.
Qed.

Lemma zeros_diag n : zeros n = diag n (λ _, 0).
Proof.
  apply (matrix_ext n); [apply square_tabulate|apply square_diag|].
  intros i j Hi Hj. unfold zeros. rewrite entry_tabulate, entry_diag by done.
  by destruct (decide (i = j)).
Qed.

Lemma square_set_diag n m i x : square n m → square n (set_diag m i x).
Proof.
  intros [Hlen Hrows]. unfold set_diag. split.
  - by rewrite length_alter.
  - apply Forall_alter; [done|]. intros row _ Hrow. by rewrite length_insert.
Qed.

Lemma entry_set_diag n m i x k j :
  square n m → (i < n)%nat → (k < n)%nat → (j < n)%nat →
  entry (set_diag m i x) k j
  = if decide (k = i ∧ j = i) then x else entry m k j.
Proof.
  intros Hm Hi Hk Hj. unfold entry, set_diag.
  rewrite !nth_lookup, list_lookup_alter.
  destruct (decide (i = k)) as [<-|Hik].
  - assert (is_Some (m !! i)) as [row Hrow].
    { apply lookup_lt_is_Some. by rewrite (square_length n m). }
    rewrite Hrow. cbn.
    assert (length row = n) as Hlen.
    { pose proof (square_row n m i Hm Hi) as H.
      by rewrite nth_lookup, Hrow in H. }
    destruct (decide (j = i)) as [->|Hji].
    + rewrite list_lookup_insert_eq by lia.
      rewrite decide_True by done. done.
    + rewrite list_lookup_insert_ne by done.
      rewrite decide_False by (intros [_ ?]; done). done.
  - rewrite decide_False by (intros [? _]; done). done.
Qed.

(** Writing a diagonal entry of a diagonal matrix. *)
Lemma set_diag_diag n d i x :
  (i < n)%nat →
  set_diag (diag n d) i x = diag n (λ k, if decide (k = i) then x else d k).
Proof.
  intros Hi. apply (matrix_ext n).
  - apply square_set_diag, square_diag.
  - apply square_diag.
  - intros k j Hk Hj.
    rewrite (entry_set_diag n) by (done || apply square_diag).
    rewrite !entry_diag by done.
    repeat case_decide; try done; intuition congruence.
Qed.

Lemma diag_ext n d d' :
  (∀ k, (k < n)%nat → d k = d' k) → diag n d = diag n d'.
Proof.
  intros H. apply (matrix_ext n); try apply square_diag.
  intros i j Hi Hj. rewrite !entry_diag by done.
  case_decide; [by apply H|done].
Qed.

(** *** Shapes *)

Lemma square_shape n m :
  square n m → rectangular m = true ∧ (n = 0%nat ∨ cols m = n).
Proof.
  intros [Hlen Hrows]. destruct m as [|row m].
  - split; [done|]. left. by rewrite <- Hlen.
  - assert (Hc : cols (row :: m) = n) by (by inversion Hrows).
    split; [|by right].
    unfold rectangular. rewrite Hc. apply forallb_forall.
    intros r Hr. rewrite Forall_forall in Hrows.
    apply Nat.eqb_eq, Hrows, list_elem_of_In, Hr.
Qed.

Lemma square_cols n m : square n m → cols m = n.
Proof.
  intros Hm. destruct (square_shape n m Hm) as [_ [->|?]]; [|done].
  destruct Hm as [Hlen _]. by destruct m.
Qed.

Lemma transpose_nth m j :
  (j < cols m)%nat → nth j (transpose m) [] = map (λ row, nth j row 0) m.
Proof. intros Hj. unfold transpose. by rewrite tabulate_nth. Qed.

Lemma square_transpose n m : square n m → square n (transpose m).
Proof.
  intros Hm. unfold transpose. rewrite (square_cols n m Hm). split.
  - apply tabulate_length.
  - apply Forall_forall. intros col Hcol.
    apply list_elem_of_In, in_map_iff in Hcol as (j & <- & _).
    rewrite length_map. by apply square_length.
Qed.

Lemma entry_transpose n m i j :
  square n m → (i < n)%nat → (j < n)%nat →
  entry (transpose m) i j = entry m j i.
Proof.
  intros Hm Hi Hj. unfold entry.
  rewrite transpose_nth by (by rewrite (square_cols n m)).
  rewrite (nth_map_in _ _ _ []) by (by rewrite (square_length n m)). done.
Qed.

Lemma square_matmul n a b : square n a → square n b → square n (matmul a b).
Proof.
  intros Ha Hb. unfold matmul. split.
  - rewrite length_map. by apply square_length.
  - apply Forall_forall. intros row Hrow.
    apply list_elem_of_In, in_map_iff in Hrow as (r & <- & _).
    rewrite length_map. apply square_length. by apply square_transpose.
Qed.

Lemma entry_matmul n a b i j :
  square n a → square n b → (i < n)%nat → (j < n)%nat →
  entry (matmul a b) i j = Rsum n (λ k, entry a i k * entry b k j).
Proof.
  intros Ha Hb Hi Hj. unfold entry at 1, matmul.
  rewrite (nth_map_in _ _ _ []) by (by rewrite (square_length n a)).
  rewrite (nth_map_in _ _ _ [])
    by (by rewrite (square_length n (transpose b)); [|apply square_transpose]).
  rewrite transpose_nth by (by rewrite (square_cols n b)).
  rewrite dot_sum.
  - rewrite (square_row n a) by done. apply Rsum_ext. intros k Hk.
    unfold entry. f_equal.
    rewrite (nth_map_in _ _ _ []) by (by rewrite (square_length n b)). done.
  - rewrite (square_row n a), length_map by done.
    by rewrite (square_length n b).
Qed.

Lemma matvec_length n a v : square n a → length (matvec a v) = n.
Proof. intros Ha. unfold matvec. rewrite length_map. by apply square_length. Qed.

Lemma matvec_nth n a v i :
  square n a → length v = n → (i < n)%nat →
  nth i (matvec a v) 0 = Rsum n (λ k, entry a i k * nth k v 0).
Proof.
  intros Ha Hv Hi. unfold matvec.
  rewrite (nth_map_in _ _ _ []) by (by rewrite (square_length n a)).
  rewrite dot_sum by (by rewrite (square_row n a)).
  by rewrite (square_row n a).
Qed.

Lemma vecmat_length n v b : square n b → length (vecmat v b) = n.
Proof.
  intros Hb. unfold vecmat. rewrite length_map.
  apply square_length. by apply square_transpose.
Qed.

Lemma vecmat_nth n v b j :
  square n b → length v = n → (j < n)%nat →
  nth j (vecmat v b) 0 = Rsum n (λ k, nth k v 0 * entry b k j).
Proof.
  intros Hb Hv Hj. unfold vecmat.
  rewrite (nth_map_in _ _ _ [])
    by (by rewrite (square_length n (transpose b)); [|apply square_transpose]).
  rewrite transpose_nth by (by rewrite (square_cols n b)).
  rewrite dot_sum by (by rewrite length_map, (square_length n b)).
  rewrite Hv. apply Rsum_ext. intros k Hk. f_equal. unfold entry.
  rewrite (nth_map_in _ _ _ []) by (by rewrite (square_length n b)). done.
Qed.

Lemma np_dot_mm_square n a b :
  square n a → square n b → np_dot_mm a b = Ok (matmul a b).
Proof.
  intros Ha Hb. unfold np_dot_mm.
  destruct (square_shape n a Ha) as [-> _].
  destruct (square_shape n b Hb) as [-> _].
  rewrite (square_cols n a), (square_length n b) by done.
  by rewrite Nat.eqb_refl.
Qed.

Lemma np_dot_mv_square n a v :
  square n a → length v = n → np_dot_mv a v = Ok (matvec a v).
Proof.
  intros Ha Hv. unfold np_dot_mv.
  destruct (square_shape n a Ha) as [-> _].
  rewrite (square_cols n a), Hv by done. by rewrite Nat.eqb_refl.
Qed.

Lemma np_dot_vm_square n v b :
  square n b → length v = n → np_dot_vm v b = Ok (vecmat v b).
Proof.
  intros Hb Hv. unfold np_dot_vm.
  destruct (square_shape n b Hb) as [-> _].
  rewrite (square_length n b), Hv by done. by rewrite Nat.eqb_refl.
Qed.

Lemma zip_with_nth (f : R → R → R) u v i :
  length u = length v → (i < length u)%nat →
  nth i (zip_with f u v) 0 = f (nth i u 0) (nth i v 0).
Proof.
  intros Hlen Hi. rewrite !nth_lookup, lookup_zip_with.
  destruct (lookup_lt_is_Some_2 u i Hi) as [x ->].
  destruct (lookup_lt_is_Some_2 v i ltac:(lia)) as [y ->]. done.
Qed.

Lemma np_sub_v_ok u v :
  length u = length v → np_sub_v u v = Ok (zip_with Rminus u v).
Proof. intros H. unfold np_sub_v. by rewrite H, Nat.eqb_refl. Qed.

Lemma np_add_v_ok u v :
  length u = length v → np_add_v u v = Ok (zip_with Rplus u v).
Proof. intros H. unfold np_add_v. by rewrite H, Nat.eqb_refl. Qed.

Lemma np_sub_m_square n a b :
  square n a → square n b → np_sub_m a b = Ok (msub a b).
Proof.
  intros Ha Hb. unfold np_sub_m.
  destruct (square_shape n a Ha) as [-> _].
  destruct (square_shape n b Hb) as [-> _].
  rewrite (square_length n a), (square_length n b) by done.
  rewrite (square_cols n a), (square_cols n b) by done.
  by rewrite Nat.eqb_refl.
Qed.

Lemma square_msub n a b : square n a → square n b → square n (msub a b).
Proof.
  intros Ha Hb. unfold msub. split.
  - rewrite length_zip_with, (square_length n a), (square_length n b) by done.
    lia.
  - apply Forall_forall. intros row Hrow.
    apply list_elem_of_lookup in Hrow as [i Hi].
    rewrite lookup_zip_with in Hi.
    destruct (a !! i) as [ra|] eqn:Hra; [|done].
    destruct (b !! i) as [rb|] eqn:Hrb; [|done].
    injection Hi as <-.
    assert (i < n)%nat as Hlt.
    { apply lookup_lt_Some in Hra. by rewrite (square_length n a) in Hra. }
    pose proof (square_row n a i Ha Hlt) as H1.
    pose proof (square_row n b i Hb Hlt) as H2.
    rewrite nth_lookup, Hra in H1. rewrite nth_lookup, Hrb in H2.
    cbn in H1, H2. rewrite length_zip_with. lia.
Qed.

Lemma entry_msub n a b i j :
  square n a → square n b → (i < n)%nat → (j < n)%nat →
  entry (msub a b) i j = entry a i j - entry b i j.
Proof.
  intros Ha Hb Hi Hj. unfold entry, msub.
  pose proof (square_row n a i Ha Hi) as H1.
  pose proof (square_row n b i Hb Hi) as H2.
  rewrite (nth_lookup (zip_with _ a b)), lookup_zip_with.
  rewrite (nth_lookup a), (nth_lookup b) in *.
  destruct (lookup_lt_is_Some_2 a i) as [ra Hra];
    [by rewrite (square_length n a)|].
  destruct (lookup_lt_is_Some_2 b i) as [rb Hrb];
    [by rewrite (square_length n b)|].
  rewrite Hra, Hrb in *. cbn in *.
  apply zip_with_nth; lia.
Qed.

(** *** The inverse *)

Lemma linalg_inv_ok m :
  (∃ inv, is_inverse m inv) → ∃ inv, linalg_inv m = Ok inv ∧ is_inverse m inv.
Proof.
  intros H. unfold linalg_inv.
  destruct (excluded_middle_informative _) as [Hinv|Hno]; [|done].
  destruct (constructive_indefinite_description _ Hinv) as [inv Hi].
  by exists inv.
Qed.

Lemma linalg_inv_inverse m inv : linalg_inv m = Ok inv → is_inverse m inv.
Proof.
  unfold linalg_inv.
  destruct (excluded_middle_informative _) as [Hinv|Hno]; [|done].
  destruct (constructive_indefinite_description _ Hinv) as [inv' Hi].
  by intros [= <-].
Qed.

(** *** [evec . diag(d) . evec.T] *)

Lemma square_sandwich n evec d : square n evec → square n (sandwich n evec d).
Proof.
  intros He. apply square_matmul; [done|].
  apply square_matmul; [apply square_diag|by apply square_transpose].
Qed.

Lemma entry_sandwich n evec d i j :
  square n evec → (i < n)%nat → (j < n)%nat →
  entry (sandwich n evec d) i j
  = Rsum n (λ k, entry evec i k * d k * entry evec j k).
Proof.
  intros He Hi Hj. unfold sandwich.
  rewrite (entry_matmul n); try done.
  2:{ apply square_matmul; [apply square_diag|by apply square_transpose]. }
  apply Rsum_ext. intros k Hk.
  rewrite (entry_matmul n);
    [|apply square_diag|by apply square_transpose|done|done].
  rewrite (Rsum_single n k).
  - rewrite entry_diag, decide_True by done.
    rewrite (entry_transpose n) by done. lra.
  - done.
  - intros l Hl Hne. rewrite entry_diag, decide_False by done. lra.
Qed.

Lemma sandwich_symmetric n evec d i j :
  square n evec → (i < n)%nat → (j < n)%nat →
  entry (sandwich n evec d) i j = entry (sandwich n evec d) j i.
Proof.
  intros He Hi Hj. rewrite !entry_sandwich by done.
  apply Rsum_ext. intros. lra.
Qed.

(** *** Orthonormal bases *)

Lemma Rsum_scal_r n c f : Rsum n (λ k, f k * c) = Rsum n f * c.
Proof. induction n as [|n IH]; simpl; [lra|]. rewrite IH. lra. Qed.

Lemma Rsum_pick n i f :
  (i < n)%nat → Rsum n (λ k, f k * (if decide (k = i) then 1 else 0)) = f i.
Proof.
  intros Hi. rewrite (Rsum_single n i).
  - rewrite decide_True by done. lra.
  - done.
  - intros k _ Hk. rewrite decide_False by done. lra.
Qed.

Lemma orthonormal_rows n evec i l :
  orthonormal n evec → (i < n)%nat → (l < n)%nat →
  Rsum n (λ k, entry evec i k * entry evec l k)
  = if decide (i = l) then 1 else 0.
Proof.
  intros (Hsq & Hrows & _) Hi Hl.
  rewrite <- (entry_identity n) by done. rewrite <- Hrows.
  rewrite (entry_matmul n) by (done || by apply square_transpose).
  apply Rsum_ext. intros k Hk. by rewrite (entry_transpose n).
Qed.

Lemma orthonormal_columns n evec k m :
  orthonormal n evec → (k < n)%nat → (m < n)%nat →
  Rsum n (λ j, entry evec j k * entry evec j m)
  = if decide (k = m) then 1 else 0.
Proof.
  intros (Hsq & _ & Hcols) Hk Hm.
  rewrite <- (entry_identity n) by done. rewrite <- Hcols.
  rewrite (entry_matmul n) by (done || by apply square_transpose).
  apply Rsum_ext. intros j Hj. by rewrite (entry_transpose n).
Qed.

Lemma sandwich_ext n evec d d' :
  (∀ k, (k < n)%nat → d k = d' k) → sandwich n evec d = sandwich n evec d'.
Proof. intros H. unfold sandwich. by rewrite (diag_ext n d d'). Qed.

Lemma sandwich_mul n evec p q :
  orthonormal n evec →
  matmul (sandwich n evec p) (sandwich n evec q)
  = sandwich n evec (λ k, p k * q k).
Proof.
  intros Ho. pose proof Ho as (Hsq & _).
  apply (matrix_ext n).
  { apply square_matmul; by apply square_sandwich. }
  { by apply square_sandwich. }
  intros i l Hi Hl.
  rewrite (entry_matmul n) by (done || by apply square_sandwich).
  rewrite entry_sandwich by done.
  transitivity
    (Rsum n (λ j, Rsum n (λ k, Rsum n (λ m,
       entry evec i k * p k * q m * entry evec l m
       * (entry evec j k * entry evec j m))))).
  { apply Rsum_ext. intros j Hj. rewrite !entry_sandwich by done.
    rewrite <- Rsum_scal_r. apply Rsum_ext. intros k Hk.
    rewrite <- Rsum_scal. apply Rsum_ext. intros m Hm. lra. }
  rewrite Rsum_exchange. apply Rsum_ext. intros k Hk.
  rewrite Rsum_exchange.
  transitivity
    (Rsum n (λ m, entry evec i k * p k * q m * entry evec l m
                  * (if decide (m = k) then 1 else 0))).
  { apply Rsum_ext. intros m Hm. rewrite Rsum_scal.
    rewrite (orthonormal_columns n evec k m) by done.
    repeat case_decide; (done || lia || by subst). }
  rewrite (Rsum_pick n k (λ m, entry evec i k * p k * q m * entry evec l m))
    by done.
  lra.
Qed.

Lemma sandwich_one n evec :
  orthonormal n evec → sandwich n evec (λ _, 1) = identity n.
Proof.
  intros Ho. pose proof Ho as (Hsq & _).
  apply (matrix_ext n); [by apply square_sandwich|apply square_identity|].
  intros i l Hi Hl. rewrite entry_sandwich, entry_identity by done.
  rewrite <- (orthonormal_rows n evec i l) by done.
  apply Rsum_ext. intros. lra.
Qed.

Lemma sandwich_inverse n evec p :
  orthonormal n evec → (∀ k, (k < n)%nat → p k ≠ 0) →
  is_inverse (sandwich n evec p) (sandwich n evec (λ k, / p k)).
Proof.
  intros Ho Hp. pose proof Ho as (Hsq & _).
  unfold is_inverse. rewrite (square_length n) by (by apply square_sandwich).
  repeat split; try (apply square_sandwich; done).
  - rewrite sandwich_mul by done. rewrite <- (sandwich_one n evec) by done.
    apply sandwich_ext. intros k Hk. by apply Rinv_r, Hp.
  - rewrite sandwich_mul by done. rewrite <- (sandwich_one n evec) by done.
    apply sandwich_ext. intros k Hk. by apply Rinv_l, Hp.
Qed.

(** Solving with a symmetric matrix against its own product. *)
Lemma solve_symmetric n m inv c rhs :
  square n m → is_inverse m inv → length c = n → length rhs = n →
  (∀ i j, (i < n)%nat → (j < n)%nat → entry m i j = entry m j i) →
  (∀ i, (i < n)%nat → nth i rhs 0 = Rsum n (λ k, entry m i k * nth k c 0)) →
  vecmat rhs inv = c.
Proof.
  intros Hm (_ & Hinv & Hmi & _) Hc Hrhs Hsym Hnum.
  rewrite (square_length n m Hm) in Hinv, Hmi.
  apply (nth_ext _ _ 0 0).
  { by rewrite (vecmat_length n), Hc. }
  intros j Hj. rewrite (vecmat_length n) in Hj by done.
  rewrite (vecmat_nth n) by done.
  transitivity
    (Rsum n (λ i, Rsum n (λ k, nth k c 0 * (entry m k i * entry inv i j)))).
  { apply Rsum_ext. intros i Hi. rewrite Hnum by done.
    rewrite <- Rsum_scal_r. apply Rsum_ext. intros k Hk.
    rewrite (Hsym i k) by done. lra. }
  rewrite Rsum_exchange.
  transitivity (Rsum n (λ k, nth k c 0 * (if decide (k = j) then 1 else 0))).
  { apply Rsum_ext. intros k Hk. rewrite Rsum_scal. f_equal.
    rewrite <- (entry_identity n) by done. rewrite <- Hmi.
    by rewrite (entry_matmul n). }
  by rewrite (Rsum_pick n j (λ k, nth k c 0)).
Qed.

(** *** The identity as a basis *)

Lemma orthonormal_identity n : orthonormal n (identity n).
Proof.
  assert (H : ∀ i j, (i < n)%nat → (j < n)%nat →
            Rsum n (λ k, entry (identity n) i k * entry (identity n) j k)
            = if decide (i = j) then 1 else 0).
  { intros i j Hi Hj. rewrite (Rsum_single n i).
    - rewrite !entry_identity by done. rewrite (decide_True (P := i = i)) by done.
      repeat case_decide; (lra || by subst).
    - done.
    - intros k Hk Hne. rewrite (entry_identity n i k) by done.
      rewrite decide_False by done. lra. }
  assert (Hsq := square_identity n).
  assert (Ht : ∀ i j, (i < n)%nat → (j < n)%nat →
            entry (transpose (identity n)) i j = entry (identity n) i j).
  { intros i j Hi Hj. rewrite (entry_transpose n), !entry_identity by done.
    repeat case_decide; (done || by subst). }
  split; [done|]. split.
  - apply (matrix_ext n); [apply square_matmul; [done|by apply square_transpose]|done|].
    intros i j Hi Hj.
    rewrite (entry_matmul n) by (done || by apply square_transpose).
    rewrite entry_identity by done. rewrite <- H by done.
    apply Rsum_ext. intros k Hk. by rewrite (entry_transpose n).
  - apply (matrix_ext n); [apply square_matmul; [by apply square_transpose|done]|done|].
    intros i j Hi Hj.
    rewrite (entry_matmul n) by (done || by apply square_transpose).
    rewrite entry_identity by done. rewrite <- H by done.
    apply Rsum_ext. intros k Hk. rewrite Ht by done.
    rewrite !entry_identity by done.
    repeat case_decide; (done || by subst).
Qed.

Lemma sandwich_identity n d : sandwich n (identity n) d = diag n d.
Proof.
  apply (matrix_ext n);
    [apply square_sandwich, square_identity|apply square_diag|].
  intros i j Hi Hj.
  rewrite entry_sandwich by (done || apply square_identity).
  rewrite entry_diag by done. rewrite (Rsum_single n i).
  - rewrite !entry_identity by done. rewrite (decide_True (P := i = i)) by done.
    repeat case_decide; (lra || by subst).
  - done.
  - intros k Hk Hne. rewrite (entry_identity n i k) by done.
    rewrite decide_False by done. lra.
Qed.

Lemma matvec_diag_nth n d w i :
  length w = n → (i < n)%nat →
  nth i (matvec (diag n d) w) 0 = d i * nth i w 0.
Proof.
  intros Hw Hi. rewrite (matvec_nth n) by (done || apply square_diag).
  rewrite (Rsum_single n i).
  - rewrite entry_diag by done. by rewrite decide_True.
  - done.
  - intros k Hk Hne. rewrite entry_diag by done.
    rewrite decide_False by done. lra.
Qed.

End NumpyFacts.

(** ** class Transition *)

Module DynamicsFacts.
Import Numpy Dynamics PythonFacts NumpyFacts.
Local Open Scope R_scope.

(** *** The store *)

Lemma load_item_Some (h : heap) r i x :
  load_item h r i = Ok x →
  ∃ v, h !! r = Some (Vector v) ∧ v !! i = Some x.
Proof.
  unfold load_item, load_vector, getitem.
  destruct (h !! r) as [[v|m]|]; try done. cbn.
  destruct (v !! i) as [y|] eqn:Hy; [|done]. intros [= <-]. eauto.
Qed.

Lemma load_item_ok (h : heap) r v i :
  h !! r = Some (Vector v) → (i < length v)%nat →
  load_item h r i = Ok (nth i v 0).
Proof.
  intros Hr Hi. unfold load_item, load_vector, getitem. rewrite Hr. cbn.
  rewrite nth_lookup. by destruct (lookup_lt_is_Some_2 v i Hi) as [x ->].
Qed.

Lemma store_item_ok (h : heap) r v i x :
  h !! r = Some (Vector v) → (i < length v)%nat →
  store_item h r i x = Ok (<[r := Vector (<[i := x]> v)]> h).
Proof.
  intros Hr Hi. unfold store_item, load_vector. rewrite Hr.
  apply Nat.ltb_lt in Hi. cbn -[Nat.ltb]. by rewrite Hi.
Qed.

(** *** Clamped eigenvalue arrays *)

Lemma clamp_lookup n v k :
  clamp n v !! k
  = (λ x, if decide (k < n)%nat then clamp_value x else x) <$> v !! k.
Proof. unfold clamp. by rewrite list_lookup_imap. Qed.

Lemma clamp_length n v : length (clamp n v) = length v.
Proof. unfold clamp. by rewrite length_imap. Qed.

Lemma clamp_nth n v k :
  nth k (clamp n v) 0
  = if decide (k < n)%nat then
      (if decide (k < length v)%nat then clamp_value (nth k v 0) else 0)
    else nth k v 0.
Proof.
  rewrite !nth_lookup, clamp_lookup.
  destruct (v !! k) as [x|] eqn:Hx; cbn.
  - apply lookup_lt_Some in Hx. repeat case_decide; done || lia.
  - apply lookup_ge_None in Hx. repeat case_decide; done || lia.
Qed.

Lemma clamp_0 v : clamp 0 v = v.
Proof.
  apply list_eq. intros k. rewrite clamp_lookup.
  destruct (v !! k); cbn; [|done]. by rewrite decide_False by lia.
Qed.

Lemma clamp_value_idem x : clamp_value (clamp_value x) = clamp_value x.
Proof.
  unfold clamp_value. destruct (Rlt_dec x zero_mode); [|by destruct (Rlt_dec x zero_mode)].
  destruct (Rlt_dec 0 zero_mode) as [|H]; [done|]. unfold zero_mode in H. lra.
Qed.

Lemma clamp_idem n v : clamp n (clamp n v) = clamp n v.
Proof.
  apply list_eq. intros k. rewrite !clamp_lookup.
  destruct (v !! k); cbn; [|done]. f_equal.
  case_decide; [apply clamp_value_idem|done].
Qed.

Lemma clamp_entry_length i v : length (clamp_entry i v) = length v.
Proof.
  unfold clamp_entry. destruct (Rlt_dec _ _); [|done]. apply length_insert.
Qed.

Lemma clamp_entry_lookup i v k :
  (i < length v)%nat →
  clamp_entry i v !! k
  = (λ x, if decide (k = i) then clamp_value x else x) <$> v !! k.
Proof.
  intros Hi. unfold clamp_entry.
  destruct (lookup_lt_is_Some_2 v i Hi) as [xi Hxi].
  rewrite nth_lookup, Hxi. change (default 0 (Some xi)) with xi.
  destruct (decide (k = i)) as [->|Hk].
  - rewrite Hxi. cbn. unfold clamp_value.
    destruct (Rlt_dec xi zero_mode); [|done].
    by rewrite list_lookup_insert_eq.
  - destruct (Rlt_dec xi zero_mode).
    + rewrite list_lookup_insert_ne by lia. by destruct (v !! k).
    + by destruct (v !! k).
Qed.

(** One more pass clamps one more entry. *)
Lemma clamp_entry_clamp i v :
  (i < length v)%nat → clamp_entry i (clamp i v) = clamp (S i) v.
Proof.
  intros Hi. apply list_eq. intros k.
  rewrite clamp_entry_lookup by (by rewrite clamp_length).
  rewrite !clamp_lookup. destruct (v !! k) as [x|]; cbn; [|done]. f_equal.
  repeat case_decide; try lia; try done; apply clamp_value_idem.
Qed.

(** A second pass over the same entry changes nothing. *)
Lemma clamp_entry_again i v :
  (i < length v)%nat → clamp_entry i (clamp (S i) v) = clamp (S i) v.
Proof.
  intros Hi. apply list_eq. intros k.
  rewrite clamp_entry_lookup by (by rewrite clamp_length).
  rewrite !clamp_lookup. destruct (v !! k) as [x|]; cbn; [|done]. f_equal.
  repeat case_decide; try lia; try done; apply clamp_value_idem.
Qed.

Lemma clamp_heap_lookup n r1 r2 (h : heap) r :
  clamp_heap n r1 r2 h !! r
  = (if decide (r = r1 ∨ r = r2) then clamp_array n else λ a, a) <$> h !! r.
Proof.
  unfold clamp_heap.
  destruct (decide (r = r1)) as [->|H1].
  - rewrite lookup_alter_eq.
    destruct (decide (r1 = r2)) as [->|H2].
    + rewrite lookup_alter_eq, decide_True by auto.
      destruct (h !! r2) as [[v|m]|]; cbn; [|done|done].
      by rewrite clamp_idem.
    + rewrite lookup_alter_ne by done. by rewrite decide_True by auto.
  - rewrite lookup_alter_ne by done.
    destruct (decide (r = r2)) as [->|H2].
    + rewrite lookup_alter_eq. by rewrite decide_True by auto.
    + rewrite lookup_alter_ne by done.
      rewrite decide_False by (intros [?|?]; done).
      by destruct (h !! r).
Qed.

Lemma clamp_heap_vector n r1 r2 (h : heap) r w :
  r = r1 ∨ r = r2 →
  clamp_heap n r1 r2 h !! r = Some (Vector w) →
  ∃ v, h !! r = Some (Vector v) ∧ w = clamp n v.
Proof.
  intros Hr. rewrite clamp_heap_lookup, decide_True by done.
  destruct (h !! r) as [[v|m]|]; cbn; [|done|done].
  intros [= <-]. eauto.
Qed.

Lemma clamp_heap_0 r1 r2 (h : heap) : clamp_heap 0 r1 r2 h = h.
Proof.
  apply map_eq. intros r. rewrite clamp_heap_lookup.
  destruct (h !! r) as [[v|m]|]; cbn; [|by case_decide|done].
  case_decide; cbn; [|done]. by rewrite clamp_0.
Qed.

(** One pass of the second loop on the store: first the left array, then
    the right one, which may be the same array. *)
Lemma clamp_heap_step i r1 r2 (h g1 g2 : heap) w1 w2 :
  clamp_heap i r1 r2 h !! r1 = Some (Vector w1) → (i < length w1)%nat →
  g1 = <[r1 := Vector (clamp_entry i w1)]> (clamp_heap i r1 r2 h) →
  g1 !! r2 = Some (Vector w2) → (i < length w2)%nat →
  g2 = <[r2 := Vector (clamp_entry i w2)]> g1 →
  g2 = clamp_heap (S i) r1 r2 h.
Proof.
  intros H1 Hi1 -> H2 Hi2 ->.
  apply clamp_heap_vector in H1 as (v1 & Hv1 & ->); [|by left].
  rewrite clamp_length in Hi1.
  rewrite clamp_entry_clamp in * by done.
  apply map_eq. intros r. rewrite clamp_heap_lookup.
  destruct (decide (r1 = r2)) as [<-|Hne].
  - rewrite lookup_insert_eq in H2. injection H2 as <-.
    rewrite clamp_entry_again by done.
    destruct (decide (r = r1)) as [->|Hr].
    + rewrite lookup_insert_eq, decide_True by auto. by rewrite Hv1.
    + rewrite !lookup_insert_ne by done.
      rewrite clamp_heap_lookup. rewrite !decide_False by (intros [?|?]; done).
      done.
  - rewrite lookup_insert_ne in H2 by done.
    apply clamp_heap_vector in H2 as (v2 & Hv2 & ->); [|by right].
    rewrite clamp_length in Hi2. rewrite clamp_entry_clamp by done.
    destruct (decide (r = r2)) as [->|Hr2].
    + rewrite lookup_insert_eq, decide_True by auto. by rewrite Hv2.
    + rewrite lookup_insert_ne by done.
      destruct (decide (r = r1)) as [->|Hr1].
      * rewrite lookup_insert_eq, decide_True by auto. by rewrite Hv1.
      * rewrite lookup_insert_ne by done. rewrite clamp_heap_lookup.
        rewrite !decide_False by (intros [?|?]; done). done.
Qed.

(** *** What the second loop writes *)

Section StoreEffect.

Variable self : Attributes.

Lemma stiffness_left_store i b s (g : heap) b' s' g' :
  stiffness_left self i (b, s, g) = Ok (b', s', g') →
  ∃ w, g !! eval1 self = Some (Vector w) ∧ (i < length w)%nat ∧
       g' = <[eval1 self := Vector (clamp_entry i w)]> g.
Proof.
  unfold stiffness_left.
  destruct (load_item g (eval1 self) i) as [x|] eqn:Hload; [|done].
  apply load_item_Some in Hload as (w & Hw & Hx).
  pose proof (lookup_lt_Some _ _ _ Hx) as Hi.
  cbn. intros H. exists w. split; [done|]. split; [done|].
  unfold clamp_entry. rewrite nth_lookup, Hx.
  change (default 0 (Some x)) with x.
  destruct (Rlt_dec x zero_mode).
  - destruct (pdiv 1 (tbar_left self)); cbn in H; [|discriminate H].
    rewrite (store_item_ok _ _ w) in H by done. cbn in H. by injection H as _ _ <-.
  - rewrite insert_id by done.
    destruct (within_700 _).
    + destruct (pdiv (x * cosh _) _); cbn in H; [|discriminate H].
      destruct (pdiv (x * exp _) _); cbn in H; [|discriminate H].
      by injection H as _ _ <-.
    + by injection H as _ _ <-.
Qed.

Lemma stiffness_right_store i a s (g : heap) a' s' g' :
  stiffness_right self i (a, s, g) = Ok (a', s', g') →
  ∃ w, g !! eval2 self = Some (Vector w) ∧ (i < length w)%nat ∧
       g' = <[eval2 self := Vector (clamp_entry i w)]> g.
Proof.
  unfold stiffness_right.
  destruct (load_item g (eval2 self) i) as [x|] eqn:Hload; [|done].
  apply load_item_Some in Hload as (w & Hw & Hx).
  pose proof (lookup_lt_Some _ _ _ Hx) as Hi.
  cbn. intros H. exists w. split; [done|]. split; [done|].
  unfold clamp_entry. rewrite nth_lookup, Hx.
  change (default 0 (Some x)) with x.
  destruct (Rlt_dec x zero_mode).
  - destruct (pdiv 1 _); cbn in H; [|discriminate H].
    rewrite (store_item_ok _ _ w) in H by done. cbn in H. by injection H as _ _ <-.
  - rewrite insert_id by done.
    destruct (within_700 _).
    + destruct (pdiv (x * cosh _) _); cbn in H; [|discriminate H].
      destruct (pdiv (x * exp _) _); cbn in H; [|discriminate H].
      by injection H as _ _ <-.
    + by injection H as _ _ <-.
Qed.

Lemma stiffness_store (h : heap) i st st' :
  st.2 = clamp_heap i (eval1 self) (eval2 self) h →
  stiffness self i st = Ok st' →
  st'.2 = clamp_heap (S i) (eval1 self) (eval2 self) h.
Proof.
  destruct st as [[[[b a] sl] sr] g]. cbn [snd]. intros ->.
  unfold stiffness. intros H.
  apply bind_inv in H as ([[b1 sl1] g1] & Hl & H).
  apply bind_inv in H as ([[a2 sr2] g2] & Hr & H).
  injection H as <-. cbn [snd].
  apply stiffness_left_store in Hl as (w1 & Hw1 & Hi1 & Hg1).
  apply stiffness_right_store in Hr as (w2 & Hw2 & Hi2 & Hg2).
  by apply (clamp_heap_step i _ _ h g1 g2 w1 w2).
Qed.

End StoreEffect.

(** The store that [transition_state] returns. *)
Lemma transition_state_store dim work self (h h' : heap) res :
  transition_state dim work self h = Ok (res, h') →
  h' = clamp_heap (dimensions dim self) (eval1 self) (eval2 self) h.
Proof.
  unfold transition_state. intros H.
  apply bind_inv in H as ([b0 a0] & _ & H).
  apply bind_inv in H as ([[[[b a] sl] sr] g] & Hloop & H).
  apply (for_each_seq_partial
           (λ i st, st.2 = clamp_heap i (eval1 self) (eval2 self) h)) in Hloop.
  2:{ cbn. by rewrite clamp_heap_0. }
  2:{ intros i s s' _. apply stiffness_store. }
  cbn in Hloop. subst g.
  repeat (apply bind_inv in H as (? & _ & H)).
  by injection H as _ <-.
Qed.

(** *** The diagonals that the two loops build *)

Lemma diag_upd_same n d i : diag n (upd d i (d i)) = diag n d.
Proof. apply diag_ext. intros k _. unfold upd. by case_decide; subst. Qed.

Lemma diag_below n f g :
  diag n (λ k, if decide (k < n)%nat then f k else g k) = diag n f.
Proof. apply diag_ext. intros k Hk. by rewrite decide_True by lia. Qed.

Lemma zero_mode_pos : 0 < zero_mode.
Proof. unfold zero_mode. lra. Qed.

Lemma sinh_pos x : 0 < x → 0 < sinh x.
Proof. intros Hx. rewrite <- sinh_0. by apply sinh_lt. Qed.

Lemma sinh_neg x : x < 0 → sinh x < 0.
Proof. intros Hx. rewrite <- sinh_0. by apply sinh_lt. Qed.

Lemma sinh_nonzero x : x ≠ 0 → sinh x ≠ 0.
Proof.
  intros Hx. destruct (Rtotal_order x 0) as [H|[H|H]]; [|done|].
  - apply sinh_neg in H. lra.
  - apply sinh_pos in H. lra.
Qed.

Lemma cosh_pos x : 0 < cosh x.
Proof.
  unfold cosh. pose proof (exp_pos x). pose proof (exp_pos (- x)). lra.
Qed.

Lemma sinh_opp x : sinh (- x) = - sinh x.
Proof. unfold sinh. rewrite Ropp_involutive. lra. Qed.

Lemma cosh_opp x : cosh (- x) = cosh x.
Proof. unfold cosh. rewrite Ropp_involutive. lra. Qed.

Lemma within_700_opp x : within_700 (- x) = within_700 x.
Proof.
  unfold within_700.
  repeat (destruct (Rlt_dec _ _) || destruct (Rgt_dec _ _)); done || lra.
Qed.

Section Passes.

Variable self : Attributes.
Hypothesis tbar_left_pos : 0 < tbar_left self.
Hypothesis tbar_right_pos : 0 < tbar_right self.
Hypothesis tf_sum : tf self = tbar_left self + tbar_right self.

Lemma stiffness_left_total n i db ds (g : heap) w :
  (i < n)%nat → g !! eval1 self = Some (Vector w) → (i < length w)%nat →
  stiffness_left self i (diag n db, diag n ds, g)
  = Ok (diag n (upd db i (b_entry (tbar_left self) (nth i w 0) (db i))),
        diag n (upd ds i (s_left_entry (tbar_left self) (nth i w 0) (ds i))),
        <[eval1 self := Vector (clamp_entry i w)]> g).
Proof.
  intros Hn Hw Hi. unfold stiffness_left.
  rewrite (bind_ok _ _ _ (load_item_ok g _ w i Hw Hi)).
  unfold b_entry, s_left_entry, clamp_entry.
  set (x := nth i w 0).
  destruct (Rlt_dec x zero_mode) as [Hx|Hx].
  - rewrite (bind_ok _ _ _ (pdiv_ok 1 (tbar_left self) ltac:(intros ?; lra))).
    rewrite (bind_ok _ _ _ (store_item_ok g _ w i 0 Hw Hi)).
    by rewrite !set_diag_diag.
  - pose proof zero_mode_pos.
    rewrite insert_id by done.
    destruct (within_700 (x * tbar_left self)).
    + assert (sinh (x * tbar_left self) ≠ 0) as Hs.
      { apply sinh_nonzero. intros ?. nra. }
      rewrite (bind_ok _ _ _ (pdiv_ok _ _ Hs)).
      rewrite (bind_ok _ _ _ (pdiv_ok _ _ Hs)).
      by rewrite !set_diag_diag.
    + by rewrite !diag_upd_same.
Qed.

Lemma stiffness_right_total n i da ds (g : heap) w :
  (i < n)%nat → g !! eval2 self = Some (Vector w) → (i < length w)%nat →
  stiffness_right self i (diag n da, diag n ds, g)
  = Ok (diag n (upd da i (a_entry (tbar_left self) (tf self) (nth i w 0) (da i))),
        diag n (upd ds i
                  (s_right_entry (tbar_left self) (tf self) (nth i w 0) (ds i))),
        <[eval2 self := Vector (clamp_entry i w)]> g).
Proof.
  intros Hn Hw Hi. unfold stiffness_right.
  rewrite (bind_ok _ _ _ (load_item_ok g _ w i Hw Hi)).
  unfold a_entry, s_right_entry, clamp_entry.
  set (x := nth i w 0).
  destruct (Rlt_dec x zero_mode) as [Hx|Hx].
  - rewrite (bind_ok _ _ _ (pdiv_ok 1 (tbar_left self - tf self) ltac:(intros ?; lra))).
    rewrite (bind_ok _ _ _ (store_item_ok g _ w i 0 Hw Hi)).
    by rewrite !set_diag_diag.
  - pose proof zero_mode_pos.
    rewrite insert_id by done.
    destruct (within_700 (x * (tbar_left self - tf self))).
    + assert (sinh (x * (tbar_left self - tf self)) ≠ 0) as Hs.
      { apply sinh_nonzero. intros ?. nra. }
      assert (sinh (x * (tf self - tbar_left self)) ≠ 0) as Hs'.
      { apply sinh_nonzero. intros ?. nra. }
      rewrite (bind_ok _ _ _ (pdiv_ok _ _ Hs)).
      rewrite (bind_ok _ _ _ (pdiv_ok _ _ Hs')).
      by rewrite !set_diag_diag.
    + by rewrite !diag_upd_same.
Qed.

End Passes.

Lemma a_entry_clamp_value tl tf x prev :
  a_entry tl tf (clamp_value x) prev = a_entry tl tf x prev.
Proof.
  unfold a_entry, clamp_value. pose proof zero_mode_pos.
  destruct (Rlt_dec x zero_mode) as [Hx|Hx].
  - destruct (Rlt_dec 0 zero_mode); [done|lra].
  - destruct (Rlt_dec x zero_mode); [lra|done].
Qed.

Lemma s_right_entry_clamp_value tl tf x prev :
  s_right_entry tl tf (clamp_value x) prev = s_right_entry tl tf x prev.
Proof.
  unfold s_right_entry, clamp_value. pose proof zero_mode_pos.
  destruct (Rlt_dec x zero_mode) as [Hx|Hx].
  - destruct (Rlt_dec 0 zero_mode); [done|lra].
  - destruct (Rlt_dec x zero_mode); [lra|done].
Qed.

(** *** The two loops of [transition_state] *)

Section Loops.

Variable dim : nat.
Variable self : Attributes.
Variable h : heap.
Variables v1 v2 : vector.

Hypothesis tbar_left_pos : 0 < tbar_left self.
Hypothesis tbar_right_pos : 0 < tbar_right self.
Hypothesis tf_sum : tf self = tbar_left self + tbar_right self.
Hypothesis eval1_array : h !! eval1 self = Some (Vector v1).
Hypothesis eval2_array : h !! eval2 self = Some (Vector v2).
Hypothesis eval1_length : (dimensions dim self ≤ length v1)%nat.
Hypothesis eval2_length : (dimensions dim self ≤ length v2)%nat.

Let n := dimensions dim self.

Lemma init_loop :
  for_each (seq 0 n) (init_diagonal self h) (zeros n, zeros n)
  = Ok (diag n (λ k, nth k v1 0), diag n (λ k, - nth k v2 0)).
Proof.
  destruct (for_each_seq_total
    (λ i (st : matrix * matrix),
       st.1 = diag n (λ k, if decide (k < i)%nat then nth k v1 0 else 0) ∧
       st.2 = diag n (λ k, if decide (k < i)%nat then - nth k v2 0 else 0))
    (init_diagonal self h) 0 n (zeros n, zeros n)) as ([b a] & -> & Hb & Ha).
  - cbn [fst snd]. rewrite zeros_diag.
    split; apply diag_ext; intros k _; by rewrite decide_False by lia.
  - intros i [b a] Hi [Hb Ha]. cbn [fst snd] in Hb, Ha. subst b a.
    unfold init_diagonal.
    rewrite (bind_ok _ _ _ (load_item_ok h _ v1 i eval1_array ltac:(lia))).
    rewrite (bind_ok _ _ _ (load_item_ok h _ v2 i eval2_array ltac:(lia))).
    eexists. split; [done|]. cbn [fst snd].
    rewrite !set_diag_diag by lia.
    split; apply diag_ext; intros k _; unfold upd;
      repeat case_decide; (done || lia || by subst).
  - cbn [fst snd Nat.add] in Hb, Ha. subst b a. by rewrite !diag_below.
Qed.

Lemma stiffness_loop :
  for_each (seq 0 n) (stiffness self)
    (diag n (λ k, nth k v1 0), diag n (λ k, - nth k v2 0), zeros n, zeros n, h)
  = Ok (diag n (b_diagonal self v1), diag n (a_diagonal self v2),
        diag n (s_left_diagonal self v1), diag n (s_right_diagonal self v2),
        clamp_heap n (eval1 self) (eval2 self) h).
Proof.
  destruct (for_each_seq_total
    (λ i (st : matrix * matrix * matrix * matrix * heap),
       let '(b, a, sl, sr, g) := st in
       b = diag n (λ k, if decide (k < i)%nat then b_diagonal self v1 k else nth k v1 0) ∧
       a = diag n (λ k, if decide (k < i)%nat then a_diagonal self v2 k else - nth k v2 0) ∧
       sl = diag n (λ k, if decide (k < i)%nat then s_left_diagonal self v1 k else 0) ∧
       sr = diag n (λ k, if decide (k < i)%nat then s_right_diagonal self v2 k else 0) ∧
       g = clamp_heap i (eval1 self) (eval2 self) h)
    (stiffness self) 0 n
    (diag n (λ k, nth k v1 0), diag n (λ k, - nth k v2 0), zeros n, zeros n, h))
    as ([[[[b a] sl] sr] g] & -> & Hb & Ha & Hsl & Hsr & Hg).
  - rewrite zeros_diag, clamp_heap_0.
    repeat split; try done; apply diag_ext; intros k _;
      by rewrite decide_False by lia.
  - intros i [[[[b a] sl] sr] g] Hi (-> & -> & -> & -> & ->).
    unfold stiffness.
    (* the left state *)
    assert (Hg1 : clamp_heap i (eval1 self) (eval2 self) h !! eval1 self
                  = Some (Vector (clamp i v1))).
    { rewrite clamp_heap_lookup, decide_True by auto. by rewrite eval1_array. }
    rewrite (bind_ok _ _ _
      (stiffness_left_total self tbar_left_pos n i _ _ _ _ ltac:(lia) Hg1
         ltac:(rewrite clamp_length; lia))).
    cbn beta iota.
    (* the right state, whose array may be the left one *)
    set (g1 := <[eval1 self := _]> _).
    assert (∃ w2, g1 !! eval2 self = Some (Vector w2) ∧ length w2 = length v2 ∧
              (nth i w2 0 = nth i v2 0 ∨ nth i w2 0 = clamp_value (nth i v2 0)))
      as (w2 & Hg2 & Hlen2 & Hx2).
    { destruct (decide (eval1 self = eval2 self)) as [Heq|Hne].
      - assert (v1 = v2) as <- by congruence.
        exists (clamp (S i) v1). subst g1.
        rewrite <- Heq, lookup_insert_eq.
        rewrite clamp_entry_clamp by lia.
        split; [done|]. split; [apply clamp_length|].
        right. rewrite clamp_nth.
        by rewrite !decide_True by lia.
      - exists (clamp i v2). subst g1.
        rewrite lookup_insert_ne by done.
        rewrite clamp_heap_lookup, decide_True by auto. rewrite eval2_array.
        split; [done|]. split; [apply clamp_length|].
        left. rewrite clamp_nth. by rewrite decide_False by lia. }
    rewrite (bind_ok _ _ _
      (stiffness_right_total self tbar_right_pos tf_sum
         n i _ _ _ _ ltac:(lia) Hg2 ltac:(lia))).
    cbn beta iota. eexists. split; [done|].
    assert (Hnth1 : nth i (clamp i v1) 0 = nth i v1 0).
    { rewrite clamp_nth. by rewrite decide_False by lia. }
    rewrite Hnth1.
    repeat split.
    + apply diag_ext. intros k _. unfold upd, b_diagonal.
      repeat case_decide; (done || lia || by subst).
    + apply diag_ext. intros k _. unfold upd, a_diagonal.
      repeat case_decide; try (done || lia). subst k.
      destruct Hx2 as [-> | ->]; [done|apply a_entry_clamp_value].
    + apply diag_ext. intros k _. unfold upd, s_left_diagonal.
      repeat case_decide; (done || lia || by subst).
    + apply diag_ext. intros k _. unfold upd, s_right_diagonal.
      repeat case_decide; try (done || lia). subst k.
      destruct Hx2 as [-> | ->]; [done|apply s_right_entry_clamp_value].
    + apply (clamp_heap_step i _ _ h g1 _ (clamp i v1) w2); try done.
      * rewrite clamp_length. lia.
      * lia.
  - cbn [Nat.add] in *. subst. by rewrite !diag_below.
Qed.

End Loops.

(** *** The linear solve of [transition_state] *)

Lemma project_diag n evec d :
  square n evec → project evec (diag n d) = Ok (sandwich n evec d).
Proof.
  intros He. unfold project.
  rewrite (bind_ok _ _ _ (np_dot_mm_square n _ _ (square_diag n d)
                            (square_transpose n _ He))).
  apply (np_dot_mm_square n); [done|].
  apply square_matmul; [apply square_diag|by apply square_transpose].
Qed.

Lemma action_ok n s w :
  square n s → length w = n →
  action s w = Ok (0.5 * dot w (matvec s w)).
Proof.
  intros Hs Hw. unfold action.
  rewrite (bind_ok _ _ _ (np_dot_mv_square n s w Hs Hw)).
  unfold np_dot_vv. rewrite Hw, (matvec_length n) by done.
  by rewrite Nat.eqb_refl.
Qed.

Lemma load_matrix_ok (h : heap) r m :
  h !! r = Some (Matrix m) → load_matrix h r = Ok m.
Proof. intros Hr. unfold load_matrix. by rewrite Hr. Qed.

Lemma load_vector_ok (h : heap) r v :
  h !! r = Some (Vector v) → load_vector h r = Ok v.
Proof. intros Hr. unfold load_vector. by rewrite Hr. Qed.

Lemma clamp_heap_matrix n r1 r2 (h : heap) r m :
  h !! r = Some (Matrix m) → clamp_heap n r1 r2 h !! r = Some (Matrix m).
Proof. intros Hr. rewrite clamp_heap_lookup, Hr. by case_decide. Qed.

Lemma clamp_heap_other n r1 r2 (h : heap) r :
  r ≠ r1 → r ≠ r2 → clamp_heap n r1 r2 h !! r = h !! r.
Proof.
  intros H1 H2. rewrite clamp_heap_lookup.
  rewrite decide_False by (intros [?|?]; done). by destruct (h !! r).
Qed.

Section Solve.

Variable dim : nat.
Variable work : vector → vector → vector.
Variable self : Attributes.
Variable h : heap.
Variables v1 v2 x1 x2 : vector.
Variables e1 e2 : matrix.

Let n := dimensions dim self.

Hypothesis tbar_left_pos : 0 < tbar_left self.
Hypothesis tbar_right_pos : 0 < tbar_right self.
Hypothesis tf_sum : tf self = tbar_left self + tbar_right self.
Hypothesis eval1_array : h !! eval1 self = Some (Vector v1).
Hypothesis eval2_array : h !! eval2 self = Some (Vector v2).
Hypothesis eval1_length : (n ≤ length v1)%nat.
Hypothesis eval2_length : (n ≤ length v2)%nat.
Hypothesis evec1_array : h !! evec1 self = Some (Matrix e1).
Hypothesis evec2_array : h !! evec2 self = Some (Matrix e2).
Hypothesis evec1_square : square n e1.
Hypothesis evec2_square : square n e2.
Hypothesis coord_left_array : h !! coord_left self = Some (Vector x1).
Hypothesis coord_right_array : h !! coord_right self = Some (Vector x2).
Hypothesis coord_left_length : length x1 = n.
Hypothesis coord_right_length : length x2 = n.
Hypothesis coord_left_apart :
  coord_left self ≠ eval1 self ∧ coord_left self ≠ eval2 self.
Hypothesis coord_right_apart :
  coord_right self ≠ eval1 self ∧ coord_right self ≠ eval2 self.
Hypothesis work_length :
  ∀ x c, length x = n → length c = n → length (work x c) = n.

Local Abbreviation D1 := (den1 dim self v1 e1).
Local Abbreviation D2 := (den2 dim self v2 e2).
Local Abbreviation D := (den dim self v1 v2 e1 e2).
Local Abbreviation N := (num dim self v1 v2 x1 x2 e1 e2).

Lemma square_den1 : square n D1.
Proof. by apply square_sandwich. Qed.

Lemma square_den2 : square n D2.
Proof. by apply square_sandwich. Qed.

Lemma square_den : square n D.
Proof. apply square_msub; [apply square_den1|apply square_den2]. Qed.

Lemma num_length : length N = n.
Proof.
  unfold num. rewrite length_zip_with.
  rewrite (matvec_length n _ _ square_den1), (matvec_length n _ _ square_den2).
  lia.
Qed.

(** [transition_state] up to its call of [np.linalg.inv]: everything
    before it succeeds, and so does everything after it. *)
Lemma transition_state_solve :
  transition_state dim work self h
  = match linalg_inv D with
    | Ok inv =>
        let xbar := vecmat N inv in
        let work_left := work xbar x1 in
        let work_right := work xbar x2 in
        Ok (xbar, work_left, work_right,
            0.5 * dot work_left
                    (matvec (sandwich n e1 (s_left_diagonal self v1)) work_left),
            0.5 * dot work_right
                    (matvec (sandwich n e2 (s_right_diagonal self v2)) work_right),
            clamp_heap n (eval1 self) (eval2 self) h)
    | Raise e => Raise e
    end.
Proof.
  unfold transition_state. fold n.
  rewrite (bind_ok _ _ _
    (init_loop dim self h v1 v2 eval1_array eval2_array eval1_length eval2_length)).
  cbn beta iota.
  rewrite (bind_ok _ _ _
    (stiffness_loop dim self h v1 v2 tbar_left_pos tbar_right_pos tf_sum
       eval1_array eval2_array eval1_length eval2_length)).
  cbn beta iota. fold n.
  rewrite (bind_ok _ _ _ (load_matrix_ok _ _ _
    (clamp_heap_matrix n _ _ h _ _ evec1_array))).
  rewrite (bind_ok _ _ _ (load_matrix_ok _ _ _
    (clamp_heap_matrix n _ _ h _ _ evec2_array))).
  destruct coord_left_apart, coord_right_apart.
  assert (Hx1 : load_vector (clamp_heap n (eval1 self) (eval2 self) h)
                  (coord_left self) = Ok x1).
  { apply load_vector_ok. by rewrite clamp_heap_other. }
  assert (Hx2 : load_vector (clamp_heap n (eval1 self) (eval2 self) h)
                  (coord_right self) = Ok x2).
  { apply load_vector_ok. by rewrite clamp_heap_other. }
  rewrite (bind_ok _ _ _ Hx1), (bind_ok _ _ _ Hx2).
  rewrite (bind_ok _ _ _ (project_diag n e1 _ evec1_square)).
  rewrite (bind_ok _ _ _ (project_diag n e2 _ evec2_square)).
  change (sandwich n e1 (b_diagonal self v1)) with D1.
  change (sandwich n e2 (a_diagonal self v2)) with D2.
  rewrite (bind_ok _ _ _ (np_dot_mv_square n D1 x1 square_den1 coord_left_length)).
  rewrite (bind_ok _ _ _ (np_dot_mv_square n D2 x2 square_den2 coord_right_length)).
  assert (Hsub : np_sub_v (matvec D1 x1) (matvec D2 x2) = Ok N).
  { apply np_sub_v_ok.
    by rewrite (matvec_length n _ _ square_den1),
               (matvec_length n _ _ square_den2). }
  rewrite (bind_ok _ _ _ Hsub).
  rewrite (bind_ok _ _ _ (np_sub_m_square n D1 D2 square_den1 square_den2)).
  change (msub D1 D2) with D.
  destruct (linalg_inv D) as [inv|err] eqn:Hinv; [|done].
  apply linalg_inv_inverse in Hinv as His.
  assert (Hsq : square n inv).
  { destruct His as (_ & Hs & _). by rewrite (square_length n D square_den) in Hs. }
  rewrite (bind_ok _ _ inv eq_refl).
  rewrite (bind_ok _ _ _ (np_dot_vm_square n N inv Hsq num_length)).
  assert (Hx : length (vecmat N inv) = n) by (by apply vecmat_length).
  rewrite (bind_ok _ _ _ (project_diag n e1 _ evec1_square)).
  rewrite (bind_ok _ _ _ (project_diag n e2 _ evec2_square)).
  rewrite (bind_ok _ _ _ (action_ok n _ _
    (square_sandwich n e1 _ evec1_square)
    (work_length _ _ Hx coord_left_length))).
  rewrite (bind_ok _ _ _ (action_ok n _ _
    (square_sandwich n e2 _ evec2_square)
    (work_length _ _ Hx coord_right_length))).
  done.
Qed.

(** With an invertible [D], [transition_state] raises nothing. *)
Lemma transition_state_total :
  (∃ inv, is_inverse D inv) →
  ∃ inv,
    is_inverse D inv ∧
    let xbar := vecmat N inv in
    let work_left := work xbar x1 in
    let work_right := work xbar x2 in
    transition_state dim work self h
    = Ok (xbar, work_left, work_right,
          0.5 * dot work_left
                  (matvec (sandwich n e1 (s_left_diagonal self v1)) work_left),
          0.5 * dot work_right
                  (matvec (sandwich n e2 (s_right_diagonal self v2)) work_right),
          clamp_heap n (eval1 self) (eval2 self) h).
Proof.
  intros Hinv. apply linalg_inv_ok in Hinv as (inv & Hinv & His).
  exists inv. split; [done|]. cbv zeta.
  by rewrite transition_state_solve, Hinv.
Qed.

End Solve.

(** *** Two identical end states *)

Lemma a_entry_mirror tl x :
  tl ≠ 0 → a_entry tl (tl + tl) x (- x) = - b_entry tl x x.
Proof.
  intros Htl. unfold a_entry, b_entry.
  replace (tl - (tl + tl)) with (- tl) by lra.
  replace (x * - tl) with (- (x * tl)) by lra.
  rewrite within_700_opp, cosh_opp, sinh_opp.
  destruct (Rlt_dec x zero_mode); [by field|].
  destruct (within_700 (x * tl)); [|done].
  unfold Rdiv. rewrite Rinv_opp. lra.
Qed.

Lemma s_right_entry_mirror tl x :
  tl ≠ 0 → s_right_entry tl (tl + tl) x 0 = s_left_entry tl x 0.
Proof.
  intros Htl. unfold s_right_entry, s_left_entry.
  replace (tl - (tl + tl)) with (- tl) by lra.
  replace (tl + tl - tl) with tl by lra.
  replace (x * - tl) with (- (x * tl)) by lra.
  rewrite within_700_opp.
  destruct (Rlt_dec x zero_mode); [by field|done].
Qed.

Lemma b_entry_pos tl x : 0 < tl → 0 < b_entry tl x x.
Proof.
  intros Htl. unfold b_entry. pose proof zero_mode_pos.
  destruct (Rlt_dec x zero_mode).
  - apply Rdiv_lt_0_compat; lra.
  - destruct (within_700 (x * tl)); [|lra].
    apply Rdiv_lt_0_compat.
    + apply Rmult_lt_0_compat; [lra|apply cosh_pos].
    + apply sinh_pos. nra.
Qed.

Section Mirror.

Variable dim : nat.
Variable work : vector → vector → vector.
Variable self : Attributes.
Variable h : heap.
Variables v x1 x2 : vector.
Variable e : matrix.

Let n := dimensions dim self.

Hypothesis tbar_equal : tbar_left self = tbar_right self.
Hypothesis tbar_left_pos : 0 < tbar_left self.
Hypothesis tf_sum : tf self = tbar_left self + tbar_right self.
Hypothesis eval1_array : h !! eval1 self = Some (Vector v).
Hypothesis eval2_array : h !! eval2 self = Some (Vector v).
Hypothesis eval_length : (n ≤ length v)%nat.
Hypothesis evec1_array : h !! evec1 self = Some (Matrix e).
Hypothesis evec2_array : h !! evec2 self = Some (Matrix e).
Hypothesis evec_orthonormal : orthonormal n e.
Hypothesis coord_left_array : h !! coord_left self = Some (Vector x1).
Hypothesis coord_right_array : h !! coord_right self = Some (Vector x2).
Hypothesis coord_left_length : length x1 = n.
Hypothesis coord_right_length : length x2 = n.
Hypothesis coord_left_apart :
  coord_left self ≠ eval1 self ∧ coord_left self ≠ eval2 self.
Hypothesis coord_right_apart :
  coord_right self ≠ eval1 self ∧ coord_right self ≠ eval2 self.
Hypothesis work_length :
  ∀ x c, length x = n → length c = n → length (work x c) = n.

Lemma tf_twice : tf self = tbar_left self + tbar_left self.
Proof. by rewrite tf_sum, <- tbar_equal. Qed.

Lemma a_diagonal_mirror k : a_diagonal self v k = - b_diagonal self v k.
Proof.
  unfold a_diagonal, b_diagonal. rewrite tf_twice.
  apply a_entry_mirror. lra.
Qed.

Lemma s_right_diagonal_mirror k :
  s_right_diagonal self v k = s_left_diagonal self v k.
Proof.
  unfold s_right_diagonal, s_left_diagonal. rewrite tf_twice.
  apply s_right_entry_mirror. lra.
Qed.

Lemma entry_den2_mirror i j :
  (i < n)%nat → (j < n)%nat →
  entry (den2 dim self v e) i j = - entry (den1 dim self v e) i j.
Proof.
  destruct evec_orthonormal as (Hsq & _). intros Hi Hj.
  unfold den1, den2. fold n. rewrite !entry_sandwich by done.
  rewrite <- Rsum_opp. apply Rsum_ext. intros k Hk.
  rewrite a_diagonal_mirror. lra.
Qed.

Lemma den_mirror :
  den dim self v v e e = sandwich n e (λ k, 2 * b_diagonal self v k).
Proof.
  destruct evec_orthonormal as (Hsq & _).
  apply (matrix_ext n).
  { apply square_den; done. }
  { by apply square_sandwich. }
  intros i j Hi Hj. unfold den. fold n.
  rewrite (entry_msub n)
    by first [done | by apply square_den1 | by apply square_den2].
  rewrite entry_den2_mirror by done. unfold den1. fold n.
  rewrite !entry_sandwich by done.
  rewrite <- Rsum_opp, <- Rsum_minus.
  apply Rsum_ext. intros k Hk. lra.
Qed.

Lemma den_invertible : ∃ inv, is_inverse (den dim self v v e e) inv.
Proof.
  rewrite den_mirror. eexists. apply sandwich_inverse; [done|].
  intros k Hk. pose proof (b_entry_pos (tbar_left self) (nth k v 0) tbar_left_pos).
  unfold b_diagonal. lra.
Qed.

Lemma transition_state_mirror :
  let s := sandwich n e (s_left_diagonal self v) in
  let work_left := work (midpoint x1 x2) x1 in
  let work_right := work (midpoint x1 x2) x2 in
  transition_state dim work self h
  = Ok (midpoint x1 x2, work_left, work_right,
        0.5 * dot work_left (matvec s work_left),
        0.5 * dot work_right (matvec s work_right),
        clamp_heap n (eval1 self) (eval2 self) h).
Proof.
  destruct evec_orthonormal as (Hsq & _).
  assert (0 < tbar_right self) as Htr by (by rewrite <- tbar_equal).
  destruct (transition_state_total dim work self h v v x1 x2 e e
              tbar_left_pos Htr tf_sum eval1_array eval2_array
              eval_length eval_length evec1_array evec2_array Hsq Hsq
              coord_left_array coord_right_array
              coord_left_length coord_right_length
              coord_left_apart coord_right_apart work_length den_invertible)
    as (inv & His & Hts).
  cbv zeta in Hts. fold n in Hts.
  assert (Hd1 : square n (den1 dim self v e)) by (by apply square_den1).
  assert (Hd2 : square n (den2 dim self v e)) by (by apply square_den2).
  assert (Hx : vecmat (num dim self v v x1 x2 e e) inv = midpoint x1 x2).
  { apply (solve_symmetric n (den dim self v v e e)); try done.
    - by apply square_den.
    - unfold midpoint. rewrite length_zip_with. lia.
    - by apply num_length.
    - intros i j Hi Hj. rewrite den_mirror.
      by apply sandwich_symmetric.
    - intros i Hi. unfold num, den.
      rewrite zip_with_nth
        by (rewrite ?(matvec_length n _ _ Hd1), ?(matvec_length n _ _ Hd2); lia).
      rewrite !(matvec_nth n) by done.
      rewrite <- Rsum_minus.
      apply Rsum_ext. intros k Hk. rewrite (entry_msub n) by done.
      rewrite entry_den2_mirror by done.
      unfold midpoint. rewrite zip_with_nth by lia. lra. }
  rewrite Hx in Hts.
  rewrite (sandwich_ext n e (s_right_diagonal self v) (s_left_diagonal self v))
    in Hts by (intros; apply s_right_diagonal_mirror).
  exact Hts.
Qed.

End Mirror.

Lemma midpoint_same x : midpoint x x = x.
Proof.
  unfold midpoint. apply (nth_ext _ _ 0 0).
  - rewrite length_zip_with. lia.
  - intros i Hi. rewrite length_zip_with in Hi.
    rewrite zip_with_nth by lia. lra.
Qed.

(** *** The trajectory *)

Lemma math_sinh_Some x y : math_sinh x = Some y → y = sinh x.
Proof. unfold math_sinh. destruct (Rlt_dec _ _); [done|]. by intros [= <-]. Qed.

Lemma float_max_pos : 0 < float_max.
Proof.
  unfold float_max. apply Rmult_lt_0_compat.
  - assert (0 < / 2 ^ 52 < 1); [|lra]. split.
    + apply Rinv_0_lt_compat, pow_lt. lra.
    + rewrite <- Rinv_1. apply Rinv_lt_contravar.
      * rewrite Rmult_1_l. apply pow_lt. lra.
      * apply Rlt_pow_R1; [lra|lia].
  - apply pow_lt. lra.
Qed.

Lemma math_sinh_0 : math_sinh 0 = Some 0.
Proof.
  unfold math_sinh. rewrite sinh_0, Rabs_R0.
  pose proof float_max_pos. destruct (Rlt_dec float_max 0); [lra|done].
Qed.

Lemma math_sinh_in_range x :
  Rabs (sinh x) <= float_max → math_sinh x = Some (sinh x).
Proof. intros H. unfold math_sinh. destruct (Rlt_dec _ _); [lra|done]. Qed.

Section Trajectory.

Variable dim : nat.
Variable self : Attributes.
Variable h : heap.
Variables w_left w_right : vector.
Variables v1 v2 x1 x2 : vector.
Variables e1 e2 : matrix.

Let n := dimensions dim self.

Hypothesis tbar_left_pos : 0 < tbar_left self.
Hypothesis tbar_right_pos : 0 < tbar_right self.
Hypothesis eval1_array : h !! eval1 self = Some (Vector v1).
Hypothesis eval2_array : h !! eval2 self = Some (Vector v2).
Hypothesis eval1_length : (n ≤ length v1)%nat.
Hypothesis eval2_length : (n ≤ length v2)%nat.
Hypothesis evec1_array : h !! evec1 self = Some (Matrix e1).
Hypothesis evec2_array : h !! evec2 self = Some (Matrix e2).
Hypothesis evec1_square : square n e1.
Hypothesis evec2_square : square n e2.
Hypothesis coord_left_array : h !! coord_left self = Some (Vector x1).
Hypothesis coord_right_array : h !! coord_right self = Some (Vector x2).
Hypothesis coord_left_length : length x1 = n.
Hypothesis coord_right_length : length x2 = n.
Hypothesis w_left_length : length w_left = n.
Hypothesis w_right_length : length w_right = n.

Local Abbreviation weight := (weight_at self v1 v2).
Local Abbreviation point :=
  (coord_at dim self w_left w_right v1 v2 x1 x2 e1 e2).

Lemma weight_left_ok t k :
  (k < n)%nat →
  weight_left self h t k
  = Ok (weight_left_value (tbar_left self) (nth k v1 0) t).
Proof.
  intros Hk. unfold weight_left, weight_left_value.
  rewrite (bind_ok _ _ _ (load_item_ok h _ v1 k eval1_array ltac:(lia))).
  set (e := nth k v1 0). pose proof zero_mode_pos.
  destruct (Rlt_dec e zero_mode) as [He|He].
  - apply pdiv_ok. intros ?. lra.
  - destruct (math_sinh (e * t)) as [x|]; [|done].
    destruct (math_sinh (e * tbar_left self)) as [y|] eqn:Hy; [|done].
    apply math_sinh_Some in Hy as ->.
    apply pdiv_ok, sinh_nonzero. intros ?. nra.
Qed.

Lemma weight_right_ok t k :
  (k < n)%nat →
  weight_right self h t k
  = Ok (weight_right_value (tbar_right self) (tf self) (nth k v2 0) t).
Proof.
  intros Hk. unfold weight_right, weight_right_value.
  rewrite (bind_ok _ _ _ (load_item_ok h _ v2 k eval2_array ltac:(lia))).
  set (e := nth k v2 0). pose proof zero_mode_pos.
  destruct (Rlt_dec e zero_mode) as [He|He].
  - apply pdiv_ok. intros ?. lra.
  - destruct (math_sinh (e * (t - tf self))) as [x|]; [|done].
    destruct (math_sinh (e * tbar_right self)) as [y|] eqn:Hy; [|done].
    apply math_sinh_Some in Hy as ->.
    apply pdiv_ok, sinh_nonzero. intros ?. nra.
Qed.

(** The inner loop overwrites the whole diagonal of [xlr]. *)
Lemma weights_loop t d0 :
  for_each (seq 0 n) (set_weight self h t) (diag n d0)
  = Ok (diag n (weight t)).
Proof.
  destruct (for_each_seq_total
    (λ i (xlr : matrix),
       xlr = diag n (λ k, if decide (k < i)%nat then weight t k else d0 k))
    (set_weight self h t) 0 n (diag n d0)) as (xlr & -> & Hxlr).
  - apply diag_ext. intros k _. by rewrite decide_False by lia.
  - intros i xlr Hi ->. unfold set_weight.
    assert (Hw : (if Rlt_dec t (tbar_left self) then weight_left self h t i
                  else weight_right self h t i) = Ok (weight t i)).
    { unfold weight_at. destruct (Rlt_dec t (tbar_left self)).
      - apply weight_left_ok. lia.
      - apply weight_right_ok. lia. }
    rewrite (bind_ok _ _ _ Hw). eexists. split; [done|].
    rewrite set_diag_diag by lia. apply diag_ext. intros k _.
    unfold upd. repeat case_decide; (done || lia || by subst).
  - cbn [Nat.add] in Hxlr. subst xlr. by rewrite diag_below.
Qed.

Lemma trajectory_step_ok t d0 coord :
  trajectory_step dim self h w_left w_right t (diag n d0, coord)
  = Ok (diag n (weight t), coord ++ [point t]).
Proof.
  unfold trajectory_step. fold n.
  rewrite (bind_ok _ _ _ (weights_loop t d0)).
  unfold coord_at.
  destruct (Rlt_dec t (tbar_left self)).
  - rewrite (bind_ok _ _ _ (load_matrix_ok _ _ _ evec1_array)).
    rewrite (bind_ok _ _ _ (load_vector_ok _ _ _ coord_left_array)).
    rewrite (bind_ok _ _ _ (project_diag n e1 _ evec1_square)).
    pose proof (square_sandwich n e1 (weight t) evec1_square) as Hp.
    rewrite (bind_ok _ _ _ (np_dot_mv_square n _ w_left Hp w_left_length)).
    assert (Hadd : np_add_v (matvec (sandwich n e1 (weight t)) w_left) x1
                   = Ok (zip_with Rplus
                           (matvec (sandwich n e1 (weight t)) w_left) x1)).
    { apply np_add_v_ok. by rewrite (matvec_length n), coord_left_length. }
    by rewrite (bind_ok _ _ _ Hadd).
  - rewrite (bind_ok _ _ _ (load_matrix_ok _ _ _ evec2_array)).
    rewrite (bind_ok _ _ _ (load_vector_ok _ _ _ coord_right_array)).
    rewrite (bind_ok _ _ _ (project_diag n e2 _ evec2_square)).
    pose proof (square_sandwich n e2 (weight t) evec2_square) as Hp.
    rewrite (bind_ok _ _ _ (np_dot_mv_square n _ w_right Hp w_right_length)).
    assert (Hadd : np_add_v (matvec (sandwich n e2 (weight t)) w_right) x2
                   = Ok (zip_with Rplus
                           (matvec (sandwich n e2 (weight t)) w_right) x2)).
    { apply np_add_v_ok. by rewrite (matvec_length n), coord_right_length. }
    by rewrite (bind_ok _ _ _ Hadd).
Qed.

Lemma trajectory_loop_ok times d0 coord :
  ∃ d, trajectory_loop dim self h w_left w_right times (diag n d0, coord)
       = Ok (diag n d, coord ++ map point times).
Proof.
  revert d0 coord. induction times as [|t times IH]; intros d0 coord.
  - exists d0. cbn. by rewrite app_nil_r.
  - cbn [trajectory_loop map].
    rewrite (bind_ok _ _ _ (trajectory_step_ok t d0 coord)).
    destruct (IH (weight t) (coord ++ [point t])) as [d ->].
    exists d. by rewrite <- app_assoc.
Qed.

(** [trajectory] raises nothing: one coordinate vector per time. *)
Lemma trajectory_total :
  trajectory dim self h w_left w_right = Ok (map point (t_series self)).
Proof.
  unfold trajectory. fold n. rewrite zeros_diag.
  destruct (trajectory_loop_ok (t_series self) (λ _, 0) []) as [d ->].
  done.
Qed.

End Trajectory.

(** A step whose weights all vanish returns the coordinates of its side. *)
Lemma vanishing_weights n evec (d : nat → R) w x :
  square n evec → length w = n → length x = n →
  (∀ k, (k < n)%nat → d k = 0) →
  zip_with Rplus (matvec (sandwich n evec d) w) x = x.
Proof.
  intros He Hw Hx H0.
  pose proof (square_sandwich n evec d He) as Hs.
  apply (nth_ext _ _ 0 0).
  { rewrite length_zip_with, (matvec_length n) by done. lia. }
  intros i Hi. rewrite length_zip_with, (matvec_length n) in Hi by done.
  rewrite zip_with_nth by (rewrite (matvec_length n) by done; lia).
  rewrite (matvec_nth n) by (done || lia).
  rewrite (Rsum_ext n _ (λ _, 0)), Rsum_zero; [lra|].
  intros j Hj. rewrite entry_sandwich by (done || lia).
  rewrite (Rsum_ext n _ (λ _, 0)), Rsum_zero; [lra|].
  intros k Hk. rewrite H0 by done. lra.
Qed.

(** *** The constructor *)

Section Constructor.

Variable dim : nat.
Variable work : vector → vector → vector.
Variables tl fc_left fc_right : R.
Variables eval_left eval_right evec_left evec_right c_left c_right : nat.
Variable times : list R.
Variable atoms : nat.
Variable h : heap.
Variables v x1 x2 : vector.
Variable e : matrix.

Let n := (atoms * dim)%nat.

Hypothesis tbar_pos : 0 < tl.
Hypothesis eval_left_array : h !! eval_left = Some (Vector v).
Hypothesis eval_right_array : h !! eval_right = Some (Vector v).
Hypothesis eval_length : (n ≤ length v)%nat.
Hypothesis evec_left_array : h !! evec_left = Some (Matrix e).
Hypothesis evec_right_array : h !! evec_right = Some (Matrix e).
Hypothesis evec_orthonormal : orthonormal n e.
Hypothesis coord_left_array : h !! c_left = Some (Vector x1).
Hypothesis coord_right_array : h !! c_right = Some (Vector x2).
Hypothesis coord_left_length : length x1 = n.
Hypothesis coord_right_length : length x2 = n.
Hypothesis coord_left_apart : c_left ≠ eval_left ∧ c_left ≠ eval_right.
Hypothesis coord_right_apart : c_right ≠ eval_left ∧ c_right ≠ eval_right.
Hypothesis work_length :
  ∀ x c, length x = n → length c = n → length (work x c) = n.

Local Abbreviation this :=
  (mirror_attributes tl fc_left fc_right eval_left eval_right
     evec_left evec_right c_left c_right times atoms).
Local Abbreviation store := (clamp_heap n eval_left eval_right h).

(** With the same spectrum and basis on both sides and equal times,
    [__init__] raises nothing; the transition state is the midpoint, and
    the store is the clamped one. *)
Lemma Transition_init_mirror :
  ∃ t,
    Transition_init dim work tl tl fc_left fc_right eval_left eval_right
      evec_left evec_right c_left c_right times atoms h
    = Ok (t, store) ∧
    attributes t = this ∧
    xbar t = midpoint x1 x2 ∧
    work_left t = work (midpoint x1 x2) x1 ∧
    work_right t = work (midpoint x1 x2) x2 ∧
    (x1 = x2 → action_left t = action_right t) ∧
    trajectory_coord t
    = map (coord_at dim this (work_left t) (work_right t)
             (clamp n v) (clamp n v) x1 x2 e e) times.
Proof.
  unfold Transition_init. fold this.
  pose proof evec_orthonormal as (Hsq & _).
  assert (Hmid : length (midpoint x1 x2) = n).
  { unfold midpoint. rewrite length_zip_with. lia. }
  rewrite (bind_ok _ _ _
    (transition_state_mirror dim work this h v x1 x2 e
       eq_refl tbar_pos eq_refl eval_left_array eval_right_array eval_length
       evec_left_array evec_right_array evec_orthonormal
       coord_left_array coord_right_array coord_left_length coord_right_length
       coord_left_apart coord_right_apart work_length)).
  cbn beta iota zeta.
  change (dimensions dim this) with n.
  destruct coord_left_apart, coord_right_apart.
  assert (Hv1 : store !! eval1 this
                = Some (Vector (clamp n v))).
  { rewrite clamp_heap_lookup, decide_True by auto.
    cbn [eval1 mirror_attributes]. by rewrite eval_left_array. }
  assert (Hv2 : store !! eval2 this
                = Some (Vector (clamp n v))).
  { rewrite clamp_heap_lookup, decide_True by auto.
    cbn [eval2 mirror_attributes]. by rewrite eval_right_array. }
  assert (Hlen : (dimensions dim this ≤ length (clamp n v))%nat).
  { by rewrite clamp_length. }
  assert (He1 : store !! evec1 this = Some (Matrix e)).
  { by apply clamp_heap_matrix. }
  assert (He2 : store !! evec2 this = Some (Matrix e)).
  { by apply clamp_heap_matrix. }
  assert (Hx1 : store !! coord_left this = Some (Vector x1)).
  { by rewrite clamp_heap_other. }
  assert (Hx2 : store !! coord_right this = Some (Vector x2)).
  { by rewrite clamp_heap_other. }
  rewrite (bind_ok _ _ _
    (trajectory_total dim this store
       (work (midpoint x1 x2) x1) (work (midpoint x1 x2) x2)
       (clamp n v) (clamp n v) x1 x2 e e tbar_pos tbar_pos
       Hv1 Hv2 Hlen Hlen He1 He2 Hsq Hsq Hx1 Hx2
       coord_left_length coord_right_length
       (work_length _ _ Hmid coord_left_length)
       (work_length _ _ Hmid coord_right_length))).
  eexists. split; [done|]. cbn.
  repeat split; try done. by intros ->.
Qed.

End Constructor.

(** *** The weights at the two ends of the path *)

Lemma math_sinh_overflow x : float_max < Rabs (sinh x) → math_sinh x = None.
Proof. intros H. unfold math_sinh. by destruct (Rlt_dec _ _). Qed.

Lemma weight_left_value_start tl e :
  (zero_mode <= e → Rabs (sinh (e * tl)) <= float_max) →
  weight_left_value tl e 0 = 0.
Proof.
  intros Hrange. unfold weight_left_value.
  destruct (Rlt_dec e zero_mode) as [He|He]; [lra|].
  replace (e * 0) with 0 by lra. rewrite math_sinh_0.
  rewrite math_sinh_in_range by (apply Hrange; lra). lra.
Qed.

Lemma weight_right_value_end tr tf e :
  (zero_mode <= e → Rabs (sinh (e * tr)) <= float_max) →
  weight_right_value tr tf e tf = 0.
Proof.
  intros Hrange. unfold weight_right_value.
  destruct (Rlt_dec e zero_mode) as [He|He]; [lra|].
  replace (e * (tf - tf)) with 0 by lra. rewrite math_sinh_0.
  rewrite math_sinh_in_range by (apply Hrange; lra). lra.
Qed.

(** [sinh 720] is beyond the largest double, while [exp (-720)], about
    1.9e-313, is not 0 (nor is it as a double). *)
Lemma exp_scale n x : exp (INR n * x) = exp x ^ n.
Proof.
  induction n as [|n IH].
  - simpl. rewrite Rmult_0_l. apply exp_0.
  - rewrite S_INR, Rmult_plus_distr_r, exp_plus, IH, Rmult_1_l. simpl.
    apply Rmult_comm.
Qed.

Lemma exp_1_ge : 269 / 100 <= exp 1.
Proof.
  assert (H : 1 + / 64 <= exp (/ 64)).
  { left. apply exp_ineq1. lra. }
  assert (E : exp 1 = exp (/ 64) ^ 64).
  { rewrite <- exp_scale. f_equal. rewrite INR_IZR_INZ.
    change (Z.of_nat 64) with 64%Z. lra. }
  rewrite E. apply Rle_trans with ((1 + / 64) ^ 64); [lra|].
  apply pow_incr. lra.
Qed.

Lemma sinh_720_overflows : float_max < Rabs (sinh 720).
Proof.
  assert (Hexp : 2 ^ 1026 <= exp 720).
  { assert (E : exp 720 = exp 1 ^ 720).
    { rewrite <- exp_scale. f_equal. rewrite INR_IZR_INZ.
      change (Z.of_nat 720) with 720%Z. lra. }
    rewrite E. apply Rle_trans with ((269 / 100) ^ 720); [lra|].
    apply pow_incr. pose proof exp_1_ge. lra. }
  assert (Hsmall : exp (Ropp 720) < 1).
  { rewrite <- exp_0. apply exp_increasing. lra. }
  assert (Hmax : float_max < 2 * 2 ^ 1023).
  { unfold float_max.
    assert (0 < / 2 ^ 52) by (apply Rinv_0_lt_compat, pow_lt; lra).
    assert (0 < 2 ^ 1023) by (apply pow_lt; lra).
    apply Rmult_lt_compat_r; lra. }
  assert (Hsplit : 2 ^ 1026 = 2 ^ 1023 * 2 ^ 3).
  { rewrite <- pow_add. done. }
  simpl (2 ^ 3) in Hsplit.
  assert (Hp : 1 <= 2 ^ 1023) by (apply pow_R1_Rle; lra).
  set (P := 2 ^ 1023) in *. set (T := 2 ^ 1026) in *.
  assert (Hs : 2 * P < sinh 720) by (unfold sinh; lra).
  rewrite Rabs_pos_eq; lra.
Qed.

End DynamicsFacts.

Module DynamicsClaims.
Import Numpy Dynamics PythonFacts NumpyFacts DynamicsFacts.
Local Open Scope R_scope.

(** *** Two single-atom paths in three dimensions *)

Lemma displacement_length n x c :
  length x = n → length c = n → length (displacement x c) = n.
Proof. intros Hx Hc. unfold displacement. rewrite length_zip_with. lia. Qed.

(** [Transition(1, 1, 7, 7, eval_left, eval_right, evec_left, evec_right,
    coord_left, coord_right, [0, 2], 1)] on such a store. *)
Lemma single_atom_path spectrum x_left x_right :
  length spectrum = 3%nat → length x_left = 3%nat → length x_right = 3%nat →
  ∃ t,
    Transition_init 3 displacement 1 1 7 7 0 1 2 3 4 5 [0; 2] 1
      (store_of spectrum x_left x_right)
    = Ok (t, clamp_heap 3 0 1 (store_of spectrum x_left x_right)) ∧
    xbar t = midpoint x_left x_right ∧
    work_left t = displacement (midpoint x_left x_right) x_left ∧
    (x_left = x_right → action_left t = action_right t) ∧
    trajectory_coord t
    = map (coord_at 3 (mirror_attributes 1 7 7 0 1 2 3 4 5 [0; 2] 1)
             (work_left t) (work_right t)
             (clamp 3 spectrum) (clamp 3 spectrum) x_left x_right
             (identity 3) (identity 3)) [0; 2].
Proof.
  intros Hs Hl Hr.
  destruct (Transition_init_mirror 3 displacement 1 7 7 0 1 2 3 4 5 [0; 2] 1
              (store_of spectrum x_left x_right) spectrum x_left x_right
              (identity 3)) as (t & Ht & _ & Hx & Hw & _ & Ha & Hc);
    try done; try lra.
  - cbn. lia.
  - apply orthonormal_identity.
  - intros x c. apply displacement_length.
  - exists t. by rewrite Hw at 1.
Qed.

Lemma clamp_small : clamp 3 [0; 0; 1e-7] = [0; 0; 0].
Proof.
  unfold clamp. cbn [imap]. unfold compose. cbn [Nat.add].
  repeat case_decide; try lia.
  destruct (Rlt_dec 0 zero_mode); destruct (Rlt_dec 1e-7 zero_mode) as [|Hn];
    try done; unfold zero_mode in Hn; lra.
Qed.

(** C4, as stated, fails: the eigenvalue array [0, 0, 1e-7] that the caller
    passed for the left state holds [0, 0, 0] once the object is
    constructed. *)
Lemma eigenvalues_overwritten :
  let h := store_of [0; 0; 1e-7] [1; 2; 3] [1; 2; 3] in
  ∃ t h',
    Transition_init 3 displacement 1 1 7 7 0 1 2 3 4 5 [0; 2] 1 h = Ok (t, h') ∧
    h !! 0%nat = Some (Vector [0; 0; 1e-7]) ∧
    h' !! 0%nat = Some (Vector [0; 0; 0]) ∧
    h' !! 0%nat ≠ h !! 0%nat.
Proof.
  cbv zeta.
  destruct (single_atom_path [0; 0; 1e-7] [1; 2; 3] [1; 2; 3])
    as (t & Ht & _); try done.
  eexists t, _. split; [exact Ht|].
  assert (Hafter : clamp_heap 3 0 1 (store_of [0; 0; 1e-7] [1; 2; 3] [1; 2; 3])
                     !! 0%nat = Some (Vector [0; 0; 0])).
  { rewrite clamp_heap_lookup, decide_True by auto.
    change (Some (Vector (clamp 3 [0; 0; 1e-7])) = Some (Vector [0; 0; 0])).
    by rewrite clamp_small. }
  split; [done|]. split; [done|].
  rewrite Hafter.
  change (store_of [0; 0; 1e-7] [1; 2; 3] [1; 2; 3] !! 0%nat)
    with (Some (Vector [0; 0; 1e-7])).
  intros [= H]. lra.
Qed.

(** C4, amended. Constructing a Transition writes to the two eigenvalue
    arrays only: every other array of the store, the eigenvector matrices
    and the coordinate vectors among them, is unchanged, and in each
    eigenvalue array the entries below 1e-6 among the first natoms * dim
    are overwritten with 0. *)
Theorem init_only_clamps_eigenvalues dim work tbar_left tbar_right
    fc_left fc_right eval_left eval_right evec_left evec_right
    coord_left coord_right t_series natoms (h h' : heap) t :
  Transition_init dim work tbar_left tbar_right fc_left fc_right
    eval_left eval_right evec_left evec_right coord_left coord_right
    t_series natoms h = Ok (t, h') →
  (∀ r, r ≠ eval_left → r ≠ eval_right → h' !! r = h !! r) ∧
  (∀ r m, h !! r = Some (Matrix m) → h' !! r = Some (Matrix m)) ∧
  (∀ r v, r = eval_left ∨ r = eval_right → h !! r = Some (Vector v) →
     h' !! r = Some (Vector (clamp (natoms * dim) v))).
Proof.
  unfold Transition_init. intros H.
  apply bind_inv in H as ([[[[[xb wl] wr] al] ar] h1] & Hts & H).
  apply bind_inv in H as (coords & _ & H). injection H as _ <-.
  apply transition_state_store in Hts. subst h1.
  unfold dimensions. cbn [eval1 eval2 Dynamics.natoms].
  repeat split.
  - intros r H1 H2. by apply clamp_heap_other.
  - intros r m Hm. by apply clamp_heap_matrix.
  - intros r v Hr Hv. rewrite clamp_heap_lookup, decide_True by done.
    by rewrite Hv.
Qed.

Lemma init_only_clamps_eigenvalues_witness :
  let h := store_of [0; 0; 1e-7] [1; 2; 3] [1; 2; 3] in
  ∃ t h',
    Transition_init 3 displacement 1 1 7 7 0 1 2 3 4 5 [0; 2] 1 h = Ok (t, h') ∧
    (∀ r, r ≠ 0%nat → r ≠ 1%nat → h' !! r = h !! r) ∧
    (∀ r m, h !! r = Some (Matrix m) → h' !! r = Some (Matrix m)) ∧
    (∀ r v, r = 0%nat ∨ r = 1%nat → h !! r = Some (Vector v) →
       h' !! r = Some (Vector (clamp (1 * 3) v))).
Proof.
  cbv zeta.
  destruct (single_atom_path [0; 0; 1e-7] [1; 2; 3] [1; 2; 3])
    as (t & Ht & _); try done.
  eexists t, _. split; [exact Ht|].
  exact (init_only_clamps_eigenvalues _ _ _ _ _ _ _ _ _ _ _ _ _ _ _ _ _ Ht).
Defined.

(** In exact arithmetic: if the two end states hold the same coordinates,
    the same spectrum and the same orthonormal eigenvectors, and
    tbar_left == tbar_right > 0, then [transition_state] returns the common
    coordinate vector as xbar, and action_left == action_right.  (The
    binary64 products and inverse of NumPy return this xbar up to rounding
    only.) *)
Theorem identical_end_states dim work self (h : heap) v x e :
  let n := dimensions dim self in
  tbar_left self = tbar_right self → 0 < tbar_left self →
  tf self = tbar_left self + tbar_right self →
  h !! eval1 self = Some (Vector v) → h !! eval2 self = Some (Vector v) →
  (n ≤ length v)%nat →
  h !! evec1 self = Some (Matrix e) → h !! evec2 self = Some (Matrix e) →
  orthonormal n e →
  h !! coord_left self = Some (Vector x) →
  h !! coord_right self = Some (Vector x) →
  length x = n →
  coord_left self ≠ eval1 self ∧ coord_left self ≠ eval2 self →
  coord_right self ≠ eval1 self ∧ coord_right self ≠ eval2 self →
  (∀ x c, length x = n → length c = n → length (work x c) = n) →
  ∃ xbar work_left work_right action_left action_right h',
    transition_state dim work self h
    = Ok (xbar, work_left, work_right, action_left, action_right, h') ∧
    xbar = x ∧ action_left = action_right.
Proof.
  intros n Ht Hpos Htf Hv1 Hv2 Hlen He1 He2 Ho Hx1 Hx2 Hxl Ha1 Ha2 Hw.
  pose proof (transition_state_mirror dim work self h v x x e
                Ht Hpos Htf Hv1 Hv2 Hlen He1 He2 Ho Hx1 Hx2 Hxl Hxl
                Ha1 Ha2 Hw) as H.
  cbv zeta in H. rewrite midpoint_same in H.
  eexists _, _, _, _, _, _. split; [exact H|]. done.
Qed.

Lemma identical_end_states_witness :
  ∃ xbar work_left work_right action_left action_right h',
    transition_state 3 displacement
      (mirror_attributes 1 7 7 0 1 2 3 4 5 [0; 2] 1)
      (store_of [0; 0; 1e-7] [1; 2; 3] [1; 2; 3])
    = Ok (xbar, work_left, work_right, action_left, action_right, h') ∧
    xbar = [1; 2; 3] ∧ action_left = action_right.
Proof.
  apply (identical_end_states 3 displacement
           (mirror_attributes 1 7 7 0 1 2 3 4 5 [0; 2] 1)
           (store_of [0; 0; 1e-7] [1; 2; 3] [1; 2; 3])
           [0; 0; 1e-7] [1; 2; 3] (identity 3));
    try done; try (cbn; lra); try (cbn; lia).
  - apply orthonormal_identity.
  - intros x c. apply displacement_length.
Defined.

(** C6, as stated, fails. On a mode of eigenvalue 720 with tbar_left = 1,
    [math.sinh(720)] overflows and the weight at t == 0 is the fall-back
    exp(-720), which is small but not 0: the first coordinate vector is
    not coord_left = [0, 0, 0], although the time series starts at 0 and
    ends at tf = 2. *)
Lemma stiff_mode_moves_the_start :
  let h := store_of [720; 720; 720] [0; 0; 0] [1; 1; 1] in
  ∃ t h' first,
    Transition_init 3 displacement 1 1 7 7 0 1 2 3 4 5 [0; 2] 1 h = Ok (t, h') ∧
    h !! 4%nat = Some (Vector [0; 0; 0]) ∧
    head (trajectory_coord t) = Some first ∧
    first ≠ [0; 0; 0].
Proof.
  cbv zeta.
  destruct (single_atom_path [720; 720; 720] [0; 0; 0] [1; 1; 1])
    as (t & Ht & _ & Hw & _ & Hc); try done.
  eexists t, _, _. split; [exact Ht|]. split; [done|].
  rewrite Hc. cbn [map head]. split; [done|].
  intros Hfirst. apply (f_equal (λ l, nth 0 l 0)) in Hfirst.
  cbn [nth] in Hfirst. revert Hfirst.
  unfold coord_at. cbn [tbar_left mirror_attributes].
  destruct (Rlt_dec 0 1) as [_|?]; [|lra].
  change (dimensions 3 (mirror_attributes 1 7 7 0 1 2 3 4 5 [0; 2] 1))
    with 3%nat.
  rewrite sandwich_identity.
  assert (Hwl : length (work_left t) = 3%nat) by (by rewrite Hw).
  rewrite zip_with_nth
    by (rewrite (matvec_length 3) by apply square_diag; simpl; lia).
  rewrite matvec_diag_nth by (done || lia).
  unfold weight_at. cbn [tbar_left mirror_attributes].
  destruct (Rlt_dec 0 1) as [_|?]; [|lra].
  assert (He : nth 0 (clamp 3 [720; 720; 720]) 0 = 720).
  { rewrite clamp_nth. rewrite !decide_True by (simpl; lia).
    unfold clamp_value. cbn [nth].
    destruct (Rlt_dec 720 zero_mode) as [Hlt|]; [|done].
    unfold zero_mode in Hlt. lra. }
  rewrite He. unfold weight_left_value.
  destruct (Rlt_dec 720 zero_mode) as [Hlt|_].
  { unfold zero_mode in Hlt. lra. }
  replace (720 * 0) with 0 by lra. rewrite math_sinh_0.
  replace (720 * 1) with 720 by lra.
  rewrite (math_sinh_overflow 720 sinh_720_overflows).
  rewrite Hw. cbn [displacement midpoint zip_with nth].
  pose proof (exp_pos (720 * (0 - 1))). nra.
Qed.

(** C6, amended. For every Transition whose time series starts at 0 and
    ends at tf = tbar_left + tbar_right (with tbar_left, tbar_right > 0),
    and in which no mode of eigenvalue 1e-6 or more makes
    [math.sinh(eval * tbar)] overflow on its side, [trajectory] returns one
    coordinate vector per time, the first equal to coord_left and the last
    equal to coord_right: the weight is 0 in every mode at t == 0 and at
    t == tf. *)
Theorem trajectory_endpoints dim self (h : heap) w_left w_right
    v1 v2 x1 x2 e1 e2 middle :
  let n := dimensions dim self in
  0 < tbar_left self → 0 < tbar_right self →
  tf self = tbar_left self + tbar_right self →
  t_series self = 0 :: middle ++ [tf self] →
  h !! eval1 self = Some (Vector v1) → h !! eval2 self = Some (Vector v2) →
  (n ≤ length v1)%nat → (n ≤ length v2)%nat →
  h !! evec1 self = Some (Matrix e1) → h !! evec2 self = Some (Matrix e2) →
  square n e1 → square n e2 →
  h !! coord_left self = Some (Vector x1) →
  h !! coord_right self = Some (Vector x2) →
  length x1 = n → length x2 = n →
  length w_left = n → length w_right = n →
  (∀ k, (k < n)%nat → zero_mode <= nth k v1 0 →
     Rabs (sinh (nth k v1 0 * tbar_left self)) <= float_max) →
  (∀ k, (k < n)%nat → zero_mode <= nth k v2 0 →
     Rabs (sinh (nth k v2 0 * tbar_right self)) <= float_max) →
  ∃ coord,
    trajectory dim self h w_left w_right = Ok coord ∧
    length coord = length (t_series self) ∧
    head coord = Some x1 ∧ last coord = Some x2.
Proof.
  intros n Htl Htr Htf Hts Hv1 Hv2 Hn1 Hn2 He1 He2 Hs1 Hs2 Hx1 Hx2 Hl1 Hl2
    Hw1 Hw2 Hr1 Hr2.
  eexists. split.
  { by apply (trajectory_total dim self h w_left w_right v1 v2 x1 x2 e1 e2). }
  split; [by rewrite length_map|].
  rewrite Hts. cbn [map head]. rewrite map_app. cbn [map].
  rewrite app_comm_cons, last_snoc.
  split; f_equal.
  - unfold coord_at. destruct (Rlt_dec 0 (tbar_left self)) as [_|?]; [|lra].
    apply vanishing_weights; try done.
    intros k Hk. unfold weight_at.
    destruct (Rlt_dec 0 (tbar_left self)) as [_|?]; [|lra].
    apply weight_left_value_start. by apply Hr1.
  - unfold coord_at.
    destruct (Rlt_dec (tf self) (tbar_left self)) as [?|_]; [lra|].
    apply vanishing_weights; try done.
    intros k Hk. unfold weight_at.
    destruct (Rlt_dec (tf self) (tbar_left self)) as [?|_]; [lra|].
    apply weight_right_value_end. by apply Hr2.
Qed.

Lemma trajectory_endpoints_witness :
  ∃ coord,
    trajectory 3 (mirror_attributes 1 7 7 0 1 2 3 4 5 ([0] ++ [] ++ [1 + 1]) 1)
      (store_of [0; 0; 1e-7] [1; 2; 3] [4; 5; 6]) [1; 1; 1] [1; 1; 1]
    = Ok coord ∧
    length coord = 2%nat ∧
    head coord = Some [1; 2; 3] ∧ last coord = Some [4; 5; 6].
Proof.
  assert (Hsmall : ∀ k, zero_mode <= nth k [0; 0; 1e-7] 0 → False).
  { intros k. unfold zero_mode.
    destruct k as [|[|[|[|k]]]]; cbn [nth]; lra. }
  apply (trajectory_endpoints 3
           (mirror_attributes 1 7 7 0 1 2 3 4 5 ([0] ++ [] ++ [1 + 1]) 1)
           (store_of [0; 0; 1e-7] [1; 2; 3] [4; 5; 6]) [1; 1; 1] [1; 1; 1]
           [0; 0; 1e-7] [0; 0; 1e-7] [1; 2; 3] [4; 5; 6]
           (identity 3) (identity 3) []);
    try done; try (cbn; lra); try (cbn; lia); try apply square_identity.
  - intros k _ Hk. by apply Hsmall in Hk.
  - intros k _ Hk. by apply Hsmall in Hk.
Defined.

End DynamicsClaims.

(** ** Time.time_to_transition_state: NaN, a dominant first mode, the
    skipped modes *)

Module SpectrumBehaviour.
Import Spectrum SpectrumFacts.
Local Open Scope float_scope.

(** *** NaN and division by zero in binary64 *)

Lemma add_nan_l x : nan + x = nan.
Proof.
  apply Prim2SF_inj. rewrite FloatAxioms.add_spec.
  change (Prim2SF nan) with S754_nan. by destruct (Prim2SF x).
Qed.

Lemma add_nan_r x : x + nan = nan.
Proof.
  apply Prim2SF_inj. rewrite FloatAxioms.add_spec.
  change (Prim2SF nan) with S754_nan. by destruct (Prim2SF x).
Qed.

Lemma div_nan_r x : x / nan = nan.
Proof.
  apply Prim2SF_inj. rewrite FloatAxioms.div_spec.
  change (Prim2SF nan) with S754_nan. by destruct (Prim2SF x).
Qed.

Lemma fold_add_nan r : fold_left PrimFloat.add r nan = nan.
Proof. induction r as [|y r IH]; simpl; [done|]. by rewrite add_nan_l. Qed.

Lemma fold_add_in_nan r acc :
  In nan r → fold_left PrimFloat.add r acc = nan.
Proof.
  revert acc. induction r as [|y r IH]; intros acc; [done|]. simpl.
  intros [->|Hin]; [by rewrite add_nan_r, fold_add_nan|by apply IH].
Qed.

Lemma sum_in_order_nan l : In nan l → sum_in_order l = nan.
Proof.
  destruct l as [|x r]; [done|]. simpl.
  intros [->|Hin]; [apply fold_add_nan|by apply fold_add_in_nan].
Qed.

Lemma blocked_total_nan l : In nan l → blocked_total l = nan.
Proof.
  intros Hin. apply (In_nth _ _ 0) in Hin as (i & Hi & Hnan).
  unfold blocked_total.
  pose proof (Nat.div_mod_eq (length l) 8) as Hdiv.
  pose proof (Nat.mod_upper_bound (length l) 8 ltac:(lia)) as Hmod.
  set (q := (length l / 8)%nat) in *.
  destruct (decide (i < 8 * q)%nat) as [Hfull|Htail].
  - pose proof (Nat.div_mod_eq i 8) as Hidiv.
    pose proof (Nat.mod_upper_bound i 8 ltac:(lia)) as Himod.
    set (b := (i / 8)%nat) in *. set (j := (i mod 8)%nat) in *.
    assert (Hs : sum_in_order (every_eighth j l) = nan).
    { apply sum_in_order_nan. unfold every_eighth. fold q.
      apply in_map_iff. exists b. split.
      - by rewrite <- Hidiv.
      - apply in_seq. lia. }
    clearbody j.
    do 8 (destruct j as [|j];
          [rewrite Hs; repeat (rewrite add_nan_l || rewrite add_nan_r);
           apply fold_add_nan|]).
    lia.
  - apply fold_add_in_nan. rewrite <- Hnan.
    replace i with (8 * q + (i - 8 * q))%nat by lia.
    rewrite <- nth_drop_shift. apply nth_In. rewrite length_drop. lia.
Qed.

Lemma halved_total_nan depth l : In nan l → halved_total depth l = nan.
Proof.
  revert l. induction depth as [|d IH]; intros l Hin; cbn [halved_total].
  - destruct (length l <? 8)%nat; [by apply fold_add_in_nan|].
    destruct (length l <=? 128)%nat; by apply blocked_total_nan.
  - destruct (length l <? 8)%nat; [by apply fold_add_in_nan|].
    destruct (length l <=? 128)%nat; [by apply blocked_total_nan|].
    set (cut := (length l / 2 - (length l / 2) mod 8)%nat).
    rewrite <- (take_drop cut l) in Hin. apply in_app_or in Hin as [H|H].
    + by rewrite (IH _ H), add_nan_l.
    + by rewrite (IH _ H), add_nan_r.
Qed.

Lemma np_sum_nan l : In nan l → np_sum l = nan.
Proof.
  intros Hin. rewrite np_sum_numpy_total. unfold numpy_total.
  by rewrite halved_total_nan, add_nan_r.
Qed.

(** A fraction that is not below 0.95, divided by the index 0, is
    [infinity] or [nan]. *)
Lemma div_index_zero c :
  (c <? cutoff_fraction) = false → c / 0 = infinity ∨ c / 0 = nan.
Proof.
  rewrite FloatAxioms.ltb_spec. intros Hc.
  assert (H : Prim2SF (c / 0) = S754_infinity false ∨ Prim2SF (c / 0) = S754_nan).
  { rewrite FloatAxioms.div_spec. change (Prim2SF 0) with (S754_zero false).
    revert Hc. change (Prim2SF cutoff_fraction)
      with (S754_finite false 8556839292003942 (-53)).
    destruct (Prim2SF c) as [s|s| |s m e]; intros Hc.
    - exfalso. destruct s; vm_compute in Hc; discriminate Hc.
    - destruct s; [exfalso; vm_compute in Hc; discriminate Hc|by left].
    - by right.
    - destruct s; [exfalso|by left].
      cbv beta iota delta [SFltb SFcompare] in Hc. discriminate Hc. }
  destruct H as [H|H]; [left|right]; apply Prim2SF_inj; by rewrite H.
Qed.

Lemma cumulative_fraction_nan reciprocal :
  np_sum reciprocal = nan →
  cumulative_fraction reciprocal = map (λ _, nan) (np_cumsum reciprocal).
Proof.
  intros Hsum. unfold cumulative_fraction. rewrite Hsum.
  apply map_ext. intros c. apply div_nan_r.
Qed.

(** A NaN among the retained eigenvalues is not reported: the total of
    the reciprocals is NaN, every fraction is NaN, no fraction is below
    0.95, the cutoff index is 0 and the function returns (nan, nan). *)
Theorem nan_eigenvalue_returns_nan eigenvalue :
  In nan (drop (skip_count eigenvalue) eigenvalue) →
  time_to_transition_state eigenvalue = Ok (nan, nan).
Proof.
  intros Hin. unfold time_to_transition_state.
  set (reciprocal := np_reciprocal (drop (skip_count eigenvalue) eigenvalue)).
  assert (Hrec : In nan reciprocal).
  { unfold reciprocal, np_reciprocal. apply in_map_iff. exists nan.
    split; [apply div_nan_r|done]. }
  rewrite cumulative_fraction_nan by (by apply np_sum_nan).
  destruct reciprocal as [|x r]; [done|].
  cbn [np_cumsum map np_argmin].
  change (nan <? cutoff_fraction) with false.
  rewrite argmin_scan_false. done.
Qed.

Lemma nan_eigenvalue_returns_nan_witness :
  time_to_transition_state [0; 0; 0; 0; 0; 0; 1; nan; 2] = Ok (nan, nan).
Proof.
  apply (nan_eigenvalue_returns_nan [0; 0; 0; 0; 0; 0; 1; nan; 2]).
  cbn. right. by left.
Defined.

(** Whenever the first cumulative fraction is not below 0.95, whatever the
    length of the spectrum, the cutoff index is 0 and the quotient by it
    is infinite or NaN: the function returns (inf, 0.0) or (nan, nan),
    never a finite time. *)
Theorem dominant_first_mode eigenvalue c :
  cumulative_fraction
    (np_reciprocal (drop (skip_count eigenvalue) eigenvalue)) !! 0%nat
  = Some c →
  (c <? cutoff_fraction) = false →
  time_to_transition_state eigenvalue = Ok (infinity, 0) ∨
  time_to_transition_state eigenvalue = Ok (nan, nan).
Proof.
  intros Hc Hnot. unfold time_to_transition_state.
  destruct (cumulative_fraction _) as [|c0 r]; [done|].
  injection Hc as ->. cbn [map np_argmin]. rewrite Hnot, argmin_scan_false.
  cbn [mbind result_bind]. unfold force_constant_at, getitem.
  cbn [lookup list_lookup mbind result_bind].
  change (float_of_index 0) with 0.
  destruct (div_index_zero c Hnot) as [-> | ->]; [by left|by right].
Qed.

Lemma dominant_first_mode_witness :
  time_to_transition_state [0; 0; 0; 0; 0; 0; 1; 100; 200] = Ok (infinity, 0) ∨
  time_to_transition_state [0; 0; 0; 0; 0; 0; 1; 100; 200] = Ok (nan, nan).
Proof.
  apply (dominant_first_mode [0; 0; 0; 0; 0; 0; 1; 100; 200]
           0x1.f86ef9b1d0144p-1); by vm_compute.
Defined.

End SpectrumBehaviour.

(** ** Time.time_steps: outcomes and the energy series *)

Module ScheduleBehaviour.
Import Schedule PythonFacts ScheduleFacts.
Local Open Scope R_scope.

Lemma pdiv_zero x : pdiv x 0 = Raise ZeroDivisionError.
Proof. unfold pdiv. by destruct (Req_dec_T 0 0). Qed.

(** The second loop stops at the first index that raises. *)
Lemma schedule_loop_raises fc_left fc_right energy_left energy_right nconf
    ratio tf before step after t energy e :
  (∀ s, In s before →
     ∃ p, schedule_entry fc_left fc_right energy_left energy_right nconf
            ratio tf s = Ok p) →
  schedule_entry fc_left fc_right energy_left energy_right nconf ratio tf step
    = Raise e →
  schedule_loop fc_left fc_right energy_left energy_right nconf ratio tf
    (before ++ step :: after) t energy = Raise e.
Proof.
  intros Hbefore Hstep. revert t energy.
  induction before as [|s before IH]; intros t energy; cbn [app schedule_loop].
  - by rewrite Hstep.
  - destruct (Hbefore s) as [[ti ei] Hs]; [by left|]. rewrite Hs. cbn.
    apply IH. intros s' Hs'. apply Hbefore. by right.
Qed.

Section Entry.

Variables tbar_left tbar_right fc_left fc_right energy_left energy_right : R.
Variable nconf : nat.
Hypothesis nconf_ge_2 : (2 ≤ nconf)%nat.

Local Abbreviation tf := (tbar_left + tbar_right).
Local Abbreviation step_size := (2 / (INR nconf - 1)).
Local Abbreviation ratio :=
  ([0] ++ ratio_loop (nconf - 2) step_size step_size ++ [0]).
Local Abbreviation entry :=
  (schedule_entry fc_left fc_right energy_left energy_right nconf ratio tf).
Local Abbreviation closed :=
  (entry_at tbar_left tbar_right fc_left fc_right energy_left energy_right
     nconf).

Lemma schedule_entry_first : entry 0%nat = Ok (closed 0%nat).
Proof.
  unfold schedule_entry, entry_at, getitem. rewrite ratio_first. cbn.
  destruct (Rle_dec _ _) as [_|Hn].
  - by destruct (Req_dec_T 0 0).
  - exfalso. apply Hn, (first_half_iff nconf 0). lia.
Qed.

Lemma schedule_entry_last : entry (nconf - 1)%nat = Ok (closed (nconf - 1)%nat).
Proof.
  unfold schedule_entry, entry_at, getitem.
  rewrite ratio_last by done. cbn.
  rewrite (decide_False (P := (nconf - 1)%nat = 0%nat)) by lia.
  rewrite decide_True by done.
  destruct (Rle_dec _ _) as [Hh|Hh]; destruct (Req_dec_T 0 0) as [_|]; try done.
  - apply first_half_iff in Hh. by rewrite decide_True by lia.
  - rewrite decide_False; [done|]. intros E. apply Hh, first_half_iff. lia.
Qed.

(** An interior index of the first half divides by [fc_left], one of the
    second half by [fc_right]. *)
Lemma schedule_entry_left k :
  interior nconf k → (2 * k ≤ nconf)%nat →
  entry k
  = (let r := tent (INR k * step_size) in
     t ← pdiv (7 + ln r) fc_left;
     Ok (t, r * energy_left + (energy_right - energy_left))).
Proof.
  intros Hi Hh. unfold schedule_entry, getitem.
  rewrite ratio_interior by done. cbn.
  pose proof (ratio_interior_range nconf nconf_ge_2 k Hi) as Hr.
  destruct (Req_dec_T _ 0) as [Hz|_]; [lra|].
  destruct (Rle_dec _ _) as [_|Hn]; [done|].
  exfalso. by apply Hn, first_half_iff.
Qed.

Lemma schedule_entry_right k :
  interior nconf k → ¬ (2 * k ≤ nconf)%nat →
  entry k
  = (let r := tent (INR k * step_size) in
     q ← pdiv (7 + ln r) fc_right;
     Ok (tf - q, r * energy_right)).
Proof.
  intros Hi Hh. unfold schedule_entry, getitem.
  rewrite ratio_interior by done. cbn.
  pose proof (ratio_interior_range nconf nconf_ge_2 k Hi) as Hr.
  destruct (Req_dec_T _ 0) as [Hz|_]; [lra|].
  destruct (Rle_dec _ _) as [Hle|_]; [|done].
  exfalso. by apply Hh, first_half_iff.
Qed.

(** [fc_left] is a divisor only from three conformations on, [fc_right]
    only from five on. *)
Lemma schedule_entry_closed k :
  (k < nconf)%nat →
  ((3 ≤ nconf)%nat → fc_left ≠ 0) → ((5 ≤ nconf)%nat → fc_right ≠ 0) →
  entry k = Ok (closed k).
Proof.
  intros Hk Hl Hr.
  destruct (decide (k = 0%nat)) as [->|Hk0]; [apply schedule_entry_first|].
  destruct (decide (k = (nconf - 1)%nat)) as [->|Hk1];
    [apply schedule_entry_last|].
  assert (Hi : interior nconf k) by (unfold interior; lia).
  unfold entry_at. rewrite !decide_False by done.
  destruct (decide (2 * k ≤ nconf)%nat) as [Hh|Hh].
  - rewrite schedule_entry_left by done. cbv zeta.
    by rewrite pdiv_ok by (apply Hl; unfold interior in Hi; lia).
  - rewrite schedule_entry_right by done. cbv zeta.
    by rewrite pdiv_ok by (apply Hr; unfold interior in Hi; lia).
Qed.

Lemma time_steps_unfold :
  time_steps tbar_left tbar_right fc_left fc_right energy_left energy_right nconf
  = schedule_loop fc_left fc_right energy_left energy_right nconf ratio tf
      (seq 0 nconf) [] [].
Proof.
  unfold time_steps.
  replace (IZR (Z.of_nat nconf - 2 + 1)) with (INR nconf - 1).
  2:{ rewrite plus_IZR, minus_IZR, <- INR_IZR_INZ. lra. }
  pose proof (INR_nconf nconf nconf_ge_2).
  rewrite pdiv_ok by lra. cbn.
  by replace (Z.to_nat (Z.of_nat nconf - 2)) with (nconf - 2)%nat by lia.
Qed.

Lemma time_steps_closed :
  ((3 ≤ nconf)%nat → fc_left ≠ 0) → ((5 ≤ nconf)%nat → fc_right ≠ 0) →
  time_steps tbar_left tbar_right fc_left fc_right energy_left energy_right nconf
  = Ok (map (λ k, fst (closed k)) (seq 0 nconf),
        map (λ k, snd (closed k)) (seq 0 nconf)).
Proof.
  intros Hl Hr. rewrite time_steps_unfold.
  rewrite (schedule_loop_map _ _ _ _ _ _ _ closed); [done|].
  intros k Hk. apply in_seq in Hk. apply schedule_entry_closed; [lia|done|done].
Qed.

Lemma schedule_entry_first_half k :
  (k < nconf)%nat → (2 * k ≤ nconf)%nat → ((3 ≤ nconf)%nat → fc_left ≠ 0) →
  ∃ p, entry k = Ok p.
Proof.
  intros Hk Hh Hl.
  destruct (decide (k = 0%nat)) as [->|Hk0];
    [eexists; apply schedule_entry_first|].
  destruct (decide (k = (nconf - 1)%nat)) as [->|Hk1];
    [eexists; apply schedule_entry_last|].
  rewrite schedule_entry_left by (done || (unfold interior; lia)). cbv zeta.
  rewrite pdiv_ok by (apply Hl; lia). by eexists.
Qed.

Lemma time_steps_raises_left :
  (3 ≤ nconf)%nat → fc_left = 0 →
  time_steps tbar_left tbar_right fc_left fc_right energy_left energy_right nconf
  = Raise ZeroDivisionError.
Proof.
  intros Hn Hfc. rewrite time_steps_unfold.
  rewrite (seq_split nconf 1) by lia.
  apply schedule_loop_raises.
  - intros s [<-|[]]. eexists. apply schedule_entry_first.
  - rewrite schedule_entry_left by (unfold interior; lia). cbv zeta.
    by rewrite Hfc, pdiv_zero.
Qed.

Lemma time_steps_raises_right :
  (5 ≤ nconf)%nat → fc_left ≠ 0 → fc_right = 0 →
  time_steps tbar_left tbar_right fc_left fc_right energy_left energy_right nconf
  = Raise ZeroDivisionError.
Proof.
  intros Hn Hl Hfc. rewrite time_steps_unfold.
  pose proof (Nat.div_mod_eq nconf 2) as Hdiv.
  pose proof (Nat.mod_upper_bound nconf 2 ltac:(lia)) as Hmod.
  set (half := (nconf / 2)%nat) in *.
  rewrite (seq_split nconf (S half)) by lia.
  apply schedule_loop_raises.
  - intros s Hs. apply in_seq in Hs.
    apply schedule_entry_first_half; [lia|lia|done].
  - rewrite schedule_entry_right by (unfold interior; lia). cbv zeta.
    by rewrite Hfc, pdiv_zero.
Qed.

End Entry.

(** [time_steps] raises [ZeroDivisionError] with a single conformation
    (the step size is 2.0 / 0), with a zero [fc_left] from three
    conformations on (index 1 divides by it), and with a zero [fc_right]
    from five conformations on (the first index past nconf / 2 divides by
    it). *)
Theorem time_steps_raises tbar_left tbar_right fc_left fc_right
    energy_left energy_right nconf :
  nconf = 1%nat ∨ ((3 ≤ nconf)%nat ∧ fc_left = 0) ∨
    ((5 ≤ nconf)%nat ∧ fc_right = 0) →
  time_steps tbar_left tbar_right fc_left fc_right energy_left energy_right nconf
  = Raise ZeroDivisionError.
Proof.
  intros [->|[[Hn Hl]|[Hn Hr]]].
  - unfold time_steps. change (IZR (Z.of_nat 1 - 2 + 1)) with 0.
    by rewrite pdiv_zero.
  - apply time_steps_raises_left; [lia|done|done].
  - destruct (Req_dec_T fc_left 0) as [Hl|Hl].
    + apply time_steps_raises_left; [lia|lia|done].
    + apply time_steps_raises_right; [lia|done|done|done].
Qed.

Lemma time_steps_raises_witness :
  time_steps 1 1 0 1 0 0 3 = Raise ZeroDivisionError ∧
  time_steps 1 1 1 0 0 0 5 = Raise ZeroDivisionError ∧
  time_steps 1 1 1 1 0 0 1 = Raise ZeroDivisionError.
Proof.
  repeat split.
  - apply (time_steps_raises 1 1 0 1 0 0 3). right. left. split; [lia|done].
  - apply (time_steps_raises 1 1 1 0 0 0 5). right. right. split; [lia|done].
  - apply (time_steps_raises 1 1 1 1 0 0 1). by left.
Defined.

(** In every other case [time_steps] raises nothing and returns two lists
    of [nconf] entries: with no conformation at all (two empty lists), with
    two, with three or four and a non-zero [fc_left] ([fc_right] is then
    never a divisor), and with five or more and both force constants
    non-zero. *)
Theorem time_steps_returns tbar_left tbar_right fc_left fc_right
    energy_left energy_right nconf :
  nconf ≠ 1%nat →
  ((3 ≤ nconf)%nat → fc_left ≠ 0) → ((5 ≤ nconf)%nat → fc_right ≠ 0) →
  ∃ t energy,
    time_steps tbar_left tbar_right fc_left fc_right energy_left energy_right
      nconf = Ok (t, energy) ∧
    length t = nconf ∧ length energy = nconf.
Proof.
  intros H1 Hl Hr. destruct (decide (nconf = 0%nat)) as [->|H0].
  - exists [], []. split; [|done]. unfold time_steps.
    change (IZR (Z.of_nat 0 - 2 + 1)) with (-1).
    rewrite pdiv_ok by lra. done.
  - eexists _, _. split.
    { apply time_steps_closed; [lia|done|done]. }
    by rewrite !length_map, !length_seq.
Qed.

Lemma time_steps_returns_witness :
  ∃ t energy,
    time_steps 1 1 1 0 0 0 4 = Ok (t, energy) ∧
    length t = 4%nat ∧ length energy = 4%nat.
Proof.
  apply (time_steps_returns 1 1 1 0 0 0 4); [lia|intros _; lra|lia].
Defined.

End ScheduleBehaviour.

(** ** Transition: short arrays, a second call, the shape of the
    trajectory *)

Module DynamicsBehaviour.
Import Numpy Dynamics PythonFacts NumpyFacts DynamicsFacts.
Import DynamicsClaims.
Local Open Scope R_scope.

Lemma load_item_short (h : heap) r v i :
  h !! r = Some (Vector v) → (length v ≤ i)%nat →
  load_item h r i = Raise IndexError.
Proof.
  intros Hr Hi. unfold load_item, load_vector. rewrite Hr. cbn.
  unfold getitem. by rewrite lookup_ge_None_2 by lia.
Qed.

(** *** The clamped arrays give the same diagonals *)

Lemma b_entry_clamped tl x :
  b_entry tl (clamp_value x) (clamp_value x) = b_entry tl x x.
Proof.
  unfold b_entry, clamp_value. pose proof zero_mode_pos.
  destruct (Rlt_dec x zero_mode) as [Hx|Hx].
  - destruct (Rlt_dec 0 zero_mode); [done|lra].
  - destruct (Rlt_dec x zero_mode); [lra|done].
Qed.

Lemma a_entry_clamped tl tf x :
  a_entry tl tf (clamp_value x) (- clamp_value x) = a_entry tl tf x (- x).
Proof.
  unfold a_entry, clamp_value. pose proof zero_mode_pos.
  destruct (Rlt_dec x zero_mode) as [Hx|Hx].
  - destruct (Rlt_dec 0 zero_mode); [done|lra].
  - destruct (Rlt_dec x zero_mode); [lra|done].
Qed.

Lemma s_left_entry_clamped tl x prev :
  s_left_entry tl (clamp_value x) prev = s_left_entry tl x prev.
Proof.
  unfold s_left_entry, clamp_value. pose proof zero_mode_pos.
  destruct (Rlt_dec x zero_mode) as [Hx|Hx].
  - destruct (Rlt_dec 0 zero_mode); [done|lra].
  - destruct (Rlt_dec x zero_mode); [lra|done].
Qed.

Lemma clamp_heap_idem n r1 r2 (h : heap) :
  clamp_heap n r1 r2 (clamp_heap n r1 r2 h) = clamp_heap n r1 r2 h.
Proof.
  apply map_eq. intros r. rewrite !clamp_heap_lookup.
  case_decide; [|by destruct (h !! r)].
  destruct (h !! r) as [[v|m]|]; cbn; [|done|done].
  by rewrite clamp_idem.
Qed.

Lemma clamped_entry n v k :
  (n ≤ length v)%nat → (k < n)%nat →
  nth k (clamp n v) 0 = clamp_value (nth k v 0).
Proof.
  intros Hv Hk. rewrite clamp_nth. by rewrite !decide_True by lia.
Qed.

Lemma den1_clamped dim self v e :
  (dimensions dim self ≤ length v)%nat →
  den1 dim self (clamp (dimensions dim self) v) e = den1 dim self v e.
Proof.
  intros Hv. unfold den1. apply sandwich_ext. intros k Hk. unfold b_diagonal.
  rewrite clamped_entry by done. apply b_entry_clamped.
Qed.

Lemma den2_clamped dim self v e :
  (dimensions dim self ≤ length v)%nat →
  den2 dim self (clamp (dimensions dim self) v) e = den2 dim self v e.
Proof.
  intros Hv. unfold den2. apply sandwich_ext. intros k Hk. unfold a_diagonal.
  rewrite clamped_entry by done. apply a_entry_clamped.
Qed.

Lemma s_left_clamped n self v e :
  (n ≤ length v)%nat →
  sandwich n e (s_left_diagonal self (clamp n v))
  = sandwich n e (s_left_diagonal self v).
Proof.
  intros Hv. apply sandwich_ext. intros k Hk. unfold s_left_diagonal.
  rewrite clamped_entry by done. apply s_left_entry_clamped.
Qed.

Lemma s_right_clamped n self v e :
  (n ≤ length v)%nat →
  sandwich n e (s_right_diagonal self (clamp n v))
  = sandwich n e (s_right_diagonal self v).
Proof.
  intros Hv. apply sandwich_ext. intros k Hk. unfold s_right_diagonal.
  rewrite clamped_entry by done. apply s_right_entry_clamp_value.
Qed.

(** [transition_state] raises [IndexError], in its first loop, when one of
    the two eigenvalue arrays has fewer than natoms * dim entries. *)
Theorem short_eigenvalues_raise dim work self (h : heap) v1 v2 :
  h !! eval1 self = Some (Vector v1) → h !! eval2 self = Some (Vector v2) →
  (length v1 < dimensions dim self ∨ length v2 < dimensions dim self)%nat →
  transition_state dim work self h = Raise IndexError.
Proof.
  intros Hv1 Hv2 Hshort. unfold transition_state.
  set (n := dimensions dim self) in *.
  set (m := (length v1 `min` length v2)%nat).
  assert (Hloop : for_each (seq 0 n) (init_diagonal self h) (zeros n, zeros n)
                  = Raise IndexError).
  { rewrite (seq_split n m) by lia. apply for_each_raises.
    - intros j [b a] Hj. apply in_seq in Hj. unfold init_diagonal.
      rewrite (bind_ok _ _ _ (load_item_ok h _ v1 j Hv1 ltac:(lia))).
      rewrite (bind_ok _ _ _ (load_item_ok h _ v2 j Hv2 ltac:(lia))).
      by eexists.
    - intros [b a]. unfold init_diagonal.
      destruct (decide (length v1 ≤ m)%nat) as [Hm|Hm].
      + by rewrite (load_item_short h _ v1 m Hv1 Hm).
      + rewrite (bind_ok _ _ _ (load_item_ok h _ v1 m Hv1 ltac:(lia))).
        by rewrite (load_item_short h _ v2 m Hv2 ltac:(lia)). }
  by rewrite Hloop.
Qed.

Lemma short_eigenvalues_raise_witness :
  transition_state 3 displacement
    (mirror_attributes 1 7 7 0 1 2 3 4 5 [0; 2] 1)
    (store_of [0; 0] [1; 2; 3] [1; 2; 3])
  = Raise IndexError.
Proof.
  apply (short_eigenvalues_raise 3 displacement
           (mirror_attributes 1 7 7 0 1 2 3 4 5 [0; 2] 1)
           (store_of [0; 0] [1; 2; 3] [1; 2; 3]) [0; 0] [0; 0]);
    [done|done|cbn; lia].
Defined.

(** A second call of [transition_state] returns what the first call
    returned and leaves the store as the first call left it: the entries
    that the first call overwrote with 0 were below 1e-6 and were already
    treated as zero modes. *)
Theorem transition_state_again dim work self (h h' : heap)
    v1 v2 x1 x2 e1 e2 res :
  let n := dimensions dim self in
  0 < tbar_left self → 0 < tbar_right self →
  tf self = tbar_left self + tbar_right self →
  h !! eval1 self = Some (Vector v1) → h !! eval2 self = Some (Vector v2) →
  (n ≤ length v1)%nat → (n ≤ length v2)%nat →
  h !! evec1 self = Some (Matrix e1) → h !! evec2 self = Some (Matrix e2) →
  square n e1 → square n e2 →
  h !! coord_left self = Some (Vector x1) →
  h !! coord_right self = Some (Vector x2) →
  length x1 = n → length x2 = n →
  coord_left self ≠ eval1 self ∧ coord_left self ≠ eval2 self →
  coord_right self ≠ eval1 self ∧ coord_right self ≠ eval2 self →
  (∀ x c, length x = n → length c = n → length (work x c) = n) →
  transition_state dim work self h = Ok (res, h') →
  transition_state dim work self h' = Ok (res, h').
Proof.
  intros n Htl Htr Htf Hv1 Hv2 Hn1 Hn2 He1 He2 Hs1 Hs2 Hx1 Hx2 Hl1 Hl2
    Ha1 Ha2 Hw Hts.
  subst n.
  rewrite (transition_state_solve dim work self h v1 v2 x1 x2 e1 e2) in Hts
    by done.
  destruct (linalg_inv (den dim self v1 v2 e1 e2)) as [inv|err] eqn:Hinv;
    [|done].
  cbv zeta in Hts. injection Hts as <- <-.
  set (g := clamp_heap (dimensions dim self) (eval1 self) (eval2 self) h).
  assert (Hg1 : g !! eval1 self = Some (Vector (clamp (dimensions dim self) v1))).
  { unfold g. rewrite clamp_heap_lookup, decide_True by (by left).
    by rewrite Hv1. }
  assert (Hg2 : g !! eval2 self = Some (Vector (clamp (dimensions dim self) v2))).
  { unfold g. rewrite clamp_heap_lookup, decide_True by (by right).
    by rewrite Hv2. }
  destruct Ha1 as [Ha11 Ha12], Ha2 as [Ha21 Ha22].
  rewrite (transition_state_solve dim work self g
             (clamp (dimensions dim self) v1) (clamp (dimensions dim self) v2) x1 x2 e1 e2); try done.
  - unfold den, num.
    rewrite (den1_clamped dim self v1 e1 Hn1), (den2_clamped dim self v2 e2 Hn2).
    fold (den dim self v1 v2 e1 e2). rewrite Hinv. cbv zeta.
    fold (num dim self v1 v2 x1 x2 e1 e2).
    rewrite (s_left_clamped _ self v1 e1 Hn1), (s_right_clamped _ self v2 e2 Hn2).
    unfold g. by rewrite clamp_heap_idem.
  - by rewrite clamp_length.
  - by rewrite clamp_length.
  - by apply clamp_heap_matrix.
  - by apply clamp_heap_matrix.
  - unfold g. by rewrite clamp_heap_other.
  - unfold g. by rewrite clamp_heap_other.
Qed.

Lemma transition_state_again_witness :
  ∃ res h',
    transition_state 3 displacement
      (mirror_attributes 1 7 7 0 1 2 3 4 5 [0; 2] 1)
      (store_of [0; 0; 1e-7] [1; 2; 3] [4; 5; 6]) = Ok (res, h') ∧
    transition_state 3 displacement
      (mirror_attributes 1 7 7 0 1 2 3 4 5 [0; 2] 1) h' = Ok (res, h').
Proof.
  set (self := mirror_attributes 1 7 7 0 1 2 3 4 5 [0; 2] 1).
  set (h := store_of [0; 0; 1e-7] [1; 2; 3] [4; 5; 6]).
  assert (Hts : ∃ res h', transition_state 3 displacement self h = Ok (res, h')).
  { eexists _, _.
    apply (transition_state_mirror 3 displacement self h
             [0; 0; 1e-7] [1; 2; 3] [4; 5; 6] (identity 3));
      try done; try (cbn; lra); try (cbn; lia).
    - apply orthonormal_identity.
    - intros x c. apply displacement_length. }
  destruct Hts as (res & h' & Hts). exists res, h'. split; [done|].
  apply (transition_state_again 3 displacement self h h'
           [0; 0; 1e-7] [0; 0; 1e-7] [1; 2; 3] [4; 5; 6]
           (identity 3) (identity 3) res);
    try done; try (cbn; lra); try (cbn; lia); try apply square_identity.
  intros x c. apply displacement_length.
Defined.

(** On a well-formed store [trajectory] raises nothing, whatever the
    times are (before 0, past tf, in any order, none at all) and also when
    [math.sinh] overflows: it returns one coordinate vector of
    natoms * dim entries for every entry of the time series. *)
Theorem trajectory_shape dim self (h : heap) w_left w_right
    v1 v2 x1 x2 e1 e2 :
  let n := dimensions dim self in
  0 < tbar_left self → 0 < tbar_right self →
  h !! eval1 self = Some (Vector v1) → h !! eval2 self = Some (Vector v2) →
  (n ≤ length v1)%nat → (n ≤ length v2)%nat →
  h !! evec1 self = Some (Matrix e1) → h !! evec2 self = Some (Matrix e2) →
  square n e1 → square n e2 →
  h !! coord_left self = Some (Vector x1) →
  h !! coord_right self = Some (Vector x2) →
  length x1 = n → length x2 = n →
  length w_left = n → length w_right = n →
  ∃ coord,
    trajectory dim self h w_left w_right = Ok coord ∧
    length coord = length (t_series self) ∧
    (∀ c, In c coord → length c = n).
Proof.
  intros n Htl Htr Hv1 Hv2 Hn1 Hn2 He1 He2 Hs1 Hs2 Hx1 Hx2 Hl1 Hl2 Hw1 Hw2.
  eexists. split.
  { by apply (trajectory_total dim self h w_left w_right v1 v2 x1 x2 e1 e2). }
  split; [by rewrite length_map|].
  intros c Hc. apply in_map_iff in Hc as (t & <- & _).
  unfold coord_at. fold n.
  destruct (Rlt_dec t (tbar_left self)); rewrite length_zip_with.
  - rewrite (matvec_length n) by (by apply square_sandwich). lia.
  - rewrite (matvec_length n) by (by apply square_sandwich). lia.
Qed.

Lemma trajectory_shape_witness :
  ∃ coord,
    trajectory 3 (mirror_attributes 1 7 7 0 1 2 3 4 5 [3; -1; 0; 720; 1] 1)
      (store_of [0; 2; 720] [1; 2; 3] [4; 5; 6]) [1; 1; 1] [1; 1; 1]
    = Ok coord ∧
    length coord = 5%nat ∧
    (∀ c, In c coord → length c = 3%nat).
Proof.
  apply (trajectory_shape 3
           (mirror_attributes 1 7 7 0 1 2 3 4 5 [3; -1; 0; 720; 1] 1)
           (store_of [0; 2; 720] [1; 2; 3] [4; 5; 6]) [1; 1; 1] [1; 1; 1]
           [0; 2; 720] [0; 2; 720] [1; 2; 3] [4; 5; 6]
           (identity 3) (identity 3));
    try done; try (cbn; lra); try (cbn; lia); try apply square_identity.
Defined.

(** With the same spectrum, the same orthonormal eigenvectors and the same
    coordinates on both sides, and tbar_left == tbar_right > 0,
    [transition_state] returns the same work vector and the same action
    for the two sides. *)
Theorem identical_end_states_actions dim work self (h : heap) v x e :
  let n := dimensions dim self in
  tbar_left self = tbar_right self → 0 < tbar_left self →
  tf self = tbar_left self + tbar_right self →
  h !! eval1 self = Some (Vector v) → h !! eval2 self = Some (Vector v) →
  (n ≤ length v)%nat →
  h !! evec1 self = Some (Matrix e) → h !! evec2 self = Some (Matrix e) →
  orthonormal n e →
  h !! coord_left self = Some (Vector x) →
  h !! coord_right self = Some (Vector x) →
  length x = n →
  coord_left self ≠ eval1 self ∧ coord_left self ≠ eval2 self →
  coord_right self ≠ eval1 self ∧ coord_right self ≠ eval2 self →
  (∀ x c, length x = n → length c = n → length (work x c) = n) →
  ∃ xbar work_left work_right action_left action_right h',
    transition_state dim work self h
    = Ok (xbar, work_left, work_right, action_left, action_right, h') ∧
    work_left = work_right ∧ action_left = action_right.
Proof.
  intros n Ht Hpos Htf Hv1 Hv2 Hlen He1 He2 Ho Hx1 Hx2 Hxl Ha1 Ha2 Hw.
  pose proof (transition_state_mirror dim work self h v x x e
                Ht Hpos Htf Hv1 Hv2 Hlen He1 He2 Ho Hx1 Hx2 Hxl Hxl
                Ha1 Ha2 Hw) as H.
  cbv zeta in H.
  eexists _, _, _, _, _, _. split; [exact H|]. done.
Qed.

Lemma identical_end_states_actions_witness :
  ∃ xbar work_left work_right action_left action_right h',
    transition_state 3 displacement
      (mirror_attributes 1 7 7 0 1 2 3 4 5 [0; 2] 1)
      (store_of [0; 3; 1e-7] [1; 2; 3] [1; 2; 3])
    = Ok (xbar, work_left, work_right, action_left, action_right, h') ∧
    work_left = work_right ∧ action_left = action_right.
Proof.
  apply (identical_end_states_actions 3 displacement
           (mirror_attributes 1 7 7 0 1 2 3 4 5 [0; 2] 1)
           (store_of [0; 3; 1e-7] [1; 2; 3] [1; 2; 3])
           [0; 3; 1e-7] [1; 2; 3] (identity 3));
    try done; try (cbn; lra); try (cbn; lia).
  - apply orthonormal_identity.
  - intros x c. apply displacement_length.
Defined.

End DynamicsBehaviour.
